(** * DiagnoSphere live voice session: codec, playback scheduling, controller

    A shallow embedding of the realtime audio core of the application
    (the helper functions [decodeBase64], [float32ToBase64],
    [decodeAudioData], [getApiKey], the [useLiveAPI] hook and the
    [handleLiveTranscript] callback of the home view), followed by the
    properties of the specification that concern them. *)

From Stdlib Require Import ZArith QArith Qround Qminmax Lqa Lia List Bool.
From Stdlib.Strings Require Import Ascii String Byte.
From Stdlib Require Import Decimal DecimalString DecimalNat.
From stdpp Require Import base list.
Import ListNotations.

Local Open Scope Z_scope.

(* ===================================================================== *)
(** * JavaScript numbers *)
(* ===================================================================== *)

(** A JavaScript number is a finite value, an infinity or NaN.  Every
    finite value handled by the codec is a 32-bit float sample, a 16-bit
    integer, or the product or quotient of one of them by a constant below
    2^16; all of these are exact in double precision, so finite values are
    modelled by rationals and the arithmetic below is exact. *)
Inductive number : Type :=
  | Fin (q : Q)
  | PosInf
  | NegInf
  | NaN.

(** [Math.min] and [Math.max]: NaN is contagious. *)
Definition Math_min (a b : number) : number :=
  match a, b with
  | NaN, _ | _, NaN => NaN
  | NegInf, _ | _, NegInf => NegInf
  | PosInf, x | x, PosInf => x
  | Fin x, Fin y => Fin (Qmin x y)
  end.

Definition Math_max (a b : number) : number :=
  match a, b with
  | NaN, _ | _, NaN => NaN
  | PosInf, _ | _, PosInf => PosInf
  | NegInf, x | x, NegInf => x
  | Fin x, Fin y => Fin (Qmax x y)
  end.

(** [Qltb x y] decides [x < y] on rationals. *)
Definition Qltb (x y : Q) : bool := negb (Qle_bool y x).

(** The relational operator [a < b]; any comparison with NaN is false. *)
Definition js_lt (a b : number) : bool :=
  match a, b with
  | NaN, _ | _, NaN => false
  | _, NegInf => false
  | NegInf, _ => true
  | PosInf, _ => false
  | Fin _, PosInf => true
  | Fin x, Fin y => Qltb x y
  end.

(** The product [a * b]. *)
Definition js_mul (a b : number) : number :=
  let sign (x : number) : option comparison :=
    match x with
    | Fin q => Some (0 ?= q)%Q
    | PosInf => Some Lt
    | NegInf => Some Gt
    | NaN => None
    end in
  match a, b with
  | Fin x, Fin y => Fin (x * y)
  | _, _ =>
      match sign a, sign b with
      | Some Lt, Some Lt | Some Gt, Some Gt => PosInf
      | Some Lt, Some Gt | Some Gt, Some Lt => NegInf
      | _, _ => NaN
      end
  end.

(** The quotient [a / b] for a finite non-zero divisor, which is the only
    form the source uses ([x / 32768.0]).  [None] stands for [undefined],
    the value of a typed-array read out of range; it converts to NaN. *)
Definition js_div_const (a : option number) (k : positive) : number :=
  match a with
  | Some (Fin x) => Fin (x / inject_Z (Z.pos k))
  | Some PosInf => PosInf
  | Some NegInf => NegInf
  | Some NaN | None => NaN
  end.

(** Truncation toward zero of a rational. *)
Definition Qtrunc (q : Q) : Z := Z.quot (Qnum q) (Z.pos (Qden q)).

(** Reduction of an integer modulo 2^16 into the signed 16-bit range. *)
Definition wrap16 (z : Z) : Z :=
  let m := z mod 65536 in
  if 32768 <=? m then m - 65536 else m.

(** The conversion applied when a number is stored in an [Int16Array]:
    NaN and the infinities become 0, a finite value is truncated toward
    zero and reduced modulo 2^16. *)
Definition ToInt16 (x : number) : Z :=
  match x with
  | Fin q => wrap16 (Qtrunc q)
  | PosInf | NegInf | NaN => 0
  end.

(* ===================================================================== *)
(** * Bytes, typed-array views and binary strings *)
(* ===================================================================== *)

(** The value of an element of a [Uint8Array]. *)
Definition byte_val (b : byte) : Z := Z.of_N (Byte.to_N b).

(** The conversion applied when an integer is stored in a [Uint8Array]. *)
Definition byte_of_Z (z : Z) : byte :=
  match Byte.of_N (Z.to_N (z mod 256)) with
  | Some b => b
  | None => x00
  end.

(** [new Uint8Array(int16.buffer)]: the two bytes of each 16-bit element,
    low byte first (typed arrays use the byte order of the platform, which
    is little-endian on every platform a browser runs on). *)
Definition int16_bytes (v : Z) : list byte :=
  [byte_of_Z v; byte_of_Z (v / 256)].

Definition Uint8Array_of_Int16Array (a : list Z) : list byte :=
  flat_map int16_bytes a.

(** The signed 16-bit element made of two bytes, low byte first. *)
Definition int16_of_bytes (lo hi : byte) : Z :=
  wrap16 (byte_val lo + 256 * byte_val hi).

(** Errors that the platform or the source raises. *)
Inductive exn : Type :=
  | RangeError            (* typed-array view over a buffer of odd length *)
  | NotSupportedError     (* createBuffer with an argument out of range *)
  | InvalidCharacterError (* atob on text that is not base64 *)
  | NotAllowedError       (* getUserMedia refused *)
  | Error (msg : string). (* [new Error(msg)] thrown by the source *)

Inductive result (A : Type) : Type :=
  | Ok (a : A)
  | Throw (e : exn).
Arguments Ok {A} a.
Arguments Throw {A} e.

Definition bind {A B : Type} (r : result A) (k : A -> result B) : result B :=
  match r with
  | Ok a => k a
  | Throw e => Throw e
  end.

Notation "'let*' x ':=' r 'in' k" := (bind r (fun x => k))
  (at level 10, x name, r at level 100, k at level 200).

(** [new Int16Array(data.buffer)]: a [RangeError] when the byte length is
    odd, else one element per pair of bytes. *)
Fixpoint Int16Array_of_bytes (data : list byte) : result (list Z) :=
  match data with
  | [] => Ok []
  | [_] => Throw RangeError
  | lo :: hi :: rest =>
      let* tl := Int16Array_of_bytes rest in
      Ok (int16_of_bytes lo hi :: tl)
  end.

(** [s.charCodeAt(i)] and [String.fromCharCode(b)] on binary strings. *)
Definition charCode (c : ascii) : Z := Z.of_N (N_of_ascii c).
Definition fromCharCode (b : byte) : ascii := ascii_of_byte b.

(* ===================================================================== *)
(** * [btoa] and [atob] *)
(* ===================================================================== *)

Definition b64_alphabet : string :=
  "ABCDEFGHIJKLMNOPQRSTUVWXYZabcdefghijklmnopqrstuvwxyz0123456789+/".

(** The character of a 6-bit value. *)
Definition b64_char (n : Z) : ascii :=
  match String.get (Z.to_nat n) b64_alphabet with
  | Some c => c
  | None => "="%char
  end.

(** The 6-bit value of a character of the alphabet. *)
Definition b64_index (c : ascii) : option Z :=
  let n := charCode c in
  if (65 <=? n) && (n <=? 90) then Some (n - 65)
  else if (97 <=? n) && (n <=? 122) then Some (n - 71)
  else if (48 <=? n) && (n <=? 57) then Some (n + 4)
  else if n =? 43 then Some 62
  else if n =? 47 then Some 63
  else None.

(** [btoa] on a binary string (one character per byte): three bytes give
    four characters, a last group of one or two bytes is padded. *)
Fixpoint btoa (binary : string) : string :=
  match binary with
  | EmptyString => EmptyString
  | String a EmptyString =>
      let a := charCode a in
      String (b64_char (a / 4)) (String (b64_char (a mod 4 * 16)) "==")
  | String a (String b EmptyString) =>
      let a := charCode a in
      let b := charCode b in
      String (b64_char (a / 4))
        (String (b64_char (a mod 4 * 16 + b / 16))
           (String (b64_char (b mod 16 * 4)) "="))
  | String a (String b (String c rest)) =>
      let a := charCode a in
      let b := charCode b in
      let c := charCode c in
      String (b64_char (a / 4))
        (String (b64_char (a mod 4 * 16 + b / 16))
           (String (b64_char (b mod 16 * 4 + c / 64))
              (String (b64_char (c mod 64)) (btoa rest))))
  end.

Definition is_ascii_whitespace (c : ascii) : bool :=
  let n := charCode c in
  (n =? 9) || (n =? 10) || (n =? 12) || (n =? 13) || (n =? 32).

(** Removal of one or two trailing padding characters. *)
Definition ends_with_pad (l : list ascii) : bool :=
  match rev l with
  | c :: _ => Ascii.eqb c "="
  | [] => false
  end.

Definition strip_padding (l : list ascii) : list ascii :=
  if ends_with_pad l then
    let l1 := removelast l in
    if ends_with_pad l1 then removelast l1 else l1
  else l.

Fixpoint b64_indices (l : list ascii) : option (list Z) :=
  match l with
  | [] => Some []
  | c :: r =>
      match b64_index c, b64_indices r with
      | Some n, Some ns => Some (n :: ns)
      | _, _ => None
      end
  end.

Definition chr (z : Z) : ascii := ascii_of_N (Z.to_N (z mod 256)).

(** Four 6-bit values give three bytes; a last group of three gives two
    bytes and one of two gives one byte, the spare bits being dropped. *)
Fixpoint decode_sextets (l : list Z) : list ascii :=
  match l with
  | a :: b :: c :: d :: rest =>
      chr (a * 4 + b / 16) :: chr (b mod 16 * 16 + c / 4)
        :: chr (c mod 4 * 64 + d) :: decode_sextets rest
  | [a; b; c] => [chr (a * 4 + b / 16); chr (b mod 16 * 16 + c / 4)]
  | [a; b] => [chr (a * 4 + b / 16)]
  | _ => []
  end.

(** [atob], the forgiving base64 decoding of the platform: whitespace is
    removed, the padding of a text whose length is a multiple of four is
    stripped, and a remaining length of 1 modulo 4 or a character outside
    the alphabet raises [InvalidCharacterError]. *)
Definition atob (base64 : string) : result string :=
  let d := List.filter (fun c => negb (is_ascii_whitespace c))
                  (list_ascii_of_string base64) in
  let d := if (Z.of_nat (length d) mod 4 =? 0) then strip_padding d else d in
  if Z.of_nat (length d) mod 4 =? 1 then Throw InvalidCharacterError
  else
    match b64_indices d with
    | Some ns => Ok (string_of_list_ascii (decode_sextets ns))
    | None => Throw InvalidCharacterError
    end.

(* ===================================================================== *)
(** * Audio codec helpers *)
(* ===================================================================== *)

(** [decodeBase64]: [atob], then one byte per character of the binary
    string.  The bytes are the whole buffer of the array it returns. *)
Definition decodeBase64 (base64 : string) : result (list byte) :=
  let* binaryString := atob base64 in
  Ok (map (fun c => byte_of_Z (charCode c)) (list_ascii_of_string binaryString)).

(** The body of the first loop of [float32ToBase64]:
    [s = Math.max(-1, Math.min(1, data[i]))] and
    [int16[i] = s < 0 ? s * 0x8000 : s * 0x7FFF]. *)
Definition clamp (x : number) : number :=
  Math_max (Fin (-1)) (Math_min (Fin 1) x).

Definition scale (s : number) : number :=
  if js_lt s (Fin 0) then js_mul s (Fin 32768) else js_mul s (Fin 32767).

Definition pcm16 (x : number) : Z := ToInt16 (scale (clamp x)).

(** [float32ToBase64]: the first loop fills [int16] element by element,
    the second appends one character per byte of the view to [binary]. *)
Definition float32ToBase64 (data : list number) : string :=
  let int16 := map pcm16 data in
  let bytes := Uint8Array_of_Int16Array int16 in
  let binary := string_of_list_ascii (map fromCharCode bytes) in
  btoa binary.

(** An [AudioBuffer]: [channelData] holds one array of samples per
    channel, each of [frames] elements ([buffer.length]). *)
Record AudioBuffer : Type := mkAudioBuffer {
  numberOfChannels : nat;
  frames : nat;
  sampleRate : Z;
  channelData : list (list number)
}.

(** [buffer.duration], in seconds. *)
Definition duration (b : AudioBuffer) : Q :=
  inject_Z (Z.of_nat (frames b)) / inject_Z (sampleRate b).

(** The quotient of two array lengths, as [dataInt16.length / numChannels]. *)
Definition js_div_nat (n d : nat) : number :=
  match d with
  | O => match n with O => NaN | _ => PosInf end
  | _ => Fin (inject_Z (Z.of_nat n) / inject_Z (Z.of_nat d))
  end.

(** The conversion of a number passed where an unsigned long is expected
    (values here stay far below 2^32). *)
Definition ToUint32 (x : number) : nat :=
  match x with
  | Fin q => Z.to_nat (Qtrunc q)
  | _ => O
  end.

(** [ctx.createBuffer(numberOfChannels, length, sampleRate)]: Web Audio
    raises [NotSupportedError] when an argument is zero, negative or above
    what is supported (32 channels); the buffer starts filled with zeros. *)
Definition createBuffer (numberOfChannels : nat) (length : number)
    (sampleRate : Z) : result AudioBuffer :=
  let len := ToUint32 length in
  if (numberOfChannels =? 0)%nat || (32 <? numberOfChannels)%nat
     || (len =? 0)%nat || (sampleRate <=? 0)
  then Throw NotSupportedError
  else Ok (mkAudioBuffer numberOfChannels len sampleRate
             (replicate numberOfChannels (replicate len (Fin 0)))).

(** The values of [i] visited by [for (let i = 0; i < bound; i++)]. *)
Definition loop_indices (bound : number) : list nat :=
  match bound with
  | Fin q => seq 0 (Z.to_nat (Qceiling q))
  | _ => []
  end.

(** The arrays returned by [getChannelData] are views: stores through
    them change the buffer. *)
Definition set_channelData (b : AudioBuffer) (channel : nat)
    (cd : list number) : AudioBuffer :=
  mkAudioBuffer (numberOfChannels b) (frames b) (sampleRate b)
    (<[channel := cd]> (channelData b)).

(** [decodeAudioData].  A store past the end of a [Float32Array] is
    ignored and a read past the end of an [Int16Array] gives [undefined],
    as list insertion and lookup do. *)
Definition decodeAudioData (data : list byte) (sampleRate : Z)
    (numChannels : nat) : result AudioBuffer :=
  let* dataInt16 := Int16Array_of_bytes data in
  let frameCount := js_div_nat (length dataInt16) numChannels in
  let* buffer := createBuffer numChannels frameCount sampleRate in
  Ok (fold_left
        (fun (buffer : AudioBuffer) (channel : nat) =>
           match channelData buffer !! channel with
           | None => buffer
           | Some cd =>
               let cd' :=
                 fold_left
                   (fun (cd : list number) (i : nat) =>
                      <[i := js_div_const
                               (Fin <$> (inject_Z <$>
                                  dataInt16 !! (i * numChannels + channel)%nat))
                               32768]> cd)
                   (loop_indices frameCount) cd in
               set_channelData buffer channel cd'
           end)
        (seq 0 numChannels) buffer).

(* ===================================================================== *)
(** * The live session hook *)
(* ===================================================================== *)

(** ** Credentials *)

(** The two places [getApiKey] reads: [import.meta.env.VITE_API_KEY] and
    [process.env.API_KEY]; [None] is an absent variable. *)
Record environment : Type := mkEnvironment {
  VITE_API_KEY : option string;
  API_KEY : option string
}.

(** Truthiness of an optional string: present and not empty. *)
Definition truthy (o : option string) : bool :=
  match o with
  | Some (String _ _) => true
  | _ => false
  end.

Definition getApiKey (env : environment) : option string :=
  let key := EmptyString in
  let key := if truthy (VITE_API_KEY env)
             then default EmptyString (VITE_API_KEY env) else key in
  let key := if negb (truthy (Some key))
             then (if truthy (API_KEY env)
                   then default EmptyString (API_KEY env) else key)
             else key in
  if truthy (Some key) then Some key else None.

(** ** Messages, transcript entries, scheduled sources *)

Inductive role : Type := user | model.

Record ChatMessage : Type := mkChatMessage {
  msg_role : role;
  content : string
}.

(** The fields of a [LiveServerMessage] that [onmessage] reads, each
    through an optional chain:
    [serverContent?.inputTranscription?.text],
    [serverContent?.outputTranscription?.text],
    [serverContent?.modelTurn?.parts?.[0]?.inlineData?.data] and
    [serverContent?.interrupted]. *)
Record LiveServerMessage : Type := mkMessage {
  inputTranscription : option string;
  outputTranscription : option string;
  inlineData : option string;
  interrupted : bool
}.

(** An [AudioBufferSourceNode] once [start] has been called on it.  Times
    are in seconds and exact: the rounding of the additions on the output
    clock is not modelled. *)
Record source : Type := mkSource {
  src_id : nat;
  src_buffer : AudioBuffer;
  startTime : Q
}.

Definition endTime (src : source) : Q := startTime src + duration (src_buffer src).

(** ** State *)

(** The state and refs of [useLiveAPI], the [chatHistory] of the home view
    that [handleLiveTranscript] appends to, and a counter that names the
    objects the hook creates (contexts, nodes, sources, sessions). *)
Record state : Type := mkState {
  isConnected : bool;
  isError : bool;
  audioContextRef : option nat;
  inputSourceRef : option nat;
  processorRef : option nat;
  nextStartTimeRef : Q;
  scheduledSourcesRef : list source;   (* a Set, in insertion order *)
  sessionRef : option nat;
  chatHistory : list ChatMessage;
  fresh : nat
}.

Definition initial : state :=
  mkState false false None None None 0%Q [] None [] 0.

Definition setIsConnected (b : bool) (s : state) : state :=
  mkState b (isError s) (audioContextRef s) (inputSourceRef s)
    (processorRef s) (nextStartTimeRef s) (scheduledSourcesRef s)
    (sessionRef s) (chatHistory s) (fresh s).

Definition setIsError (b : bool) (s : state) : state :=
  mkState (isConnected s) b (audioContextRef s) (inputSourceRef s)
    (processorRef s) (nextStartTimeRef s) (scheduledSourcesRef s)
    (sessionRef s) (chatHistory s) (fresh s).

Definition set_audioContextRef (v : option nat) (s : state) : state :=
  mkState (isConnected s) (isError s) v (inputSourceRef s)
    (processorRef s) (nextStartTimeRef s) (scheduledSourcesRef s)
    (sessionRef s) (chatHistory s) (fresh s).

Definition set_inputSourceRef (v : option nat) (s : state) : state :=
  mkState (isConnected s) (isError s) (audioContextRef s) v
    (processorRef s) (nextStartTimeRef s) (scheduledSourcesRef s)
    (sessionRef s) (chatHistory s) (fresh s).

Definition set_processorRef (v : option nat) (s : state) : state :=
  mkState (isConnected s) (isError s) (audioContextRef s) (inputSourceRef s)
    v (nextStartTimeRef s) (scheduledSourcesRef s)
    (sessionRef s) (chatHistory s) (fresh s).

Definition set_nextStartTimeRef (v : Q) (s : state) : state :=
  mkState (isConnected s) (isError s) (audioContextRef s) (inputSourceRef s)
    (processorRef s) v (scheduledSourcesRef s)
    (sessionRef s) (chatHistory s) (fresh s).

Definition set_scheduledSourcesRef (v : list source) (s : state) : state :=
  mkState (isConnected s) (isError s) (audioContextRef s) (inputSourceRef s)
    (processorRef s) (nextStartTimeRef s) v
    (sessionRef s) (chatHistory s) (fresh s).

Definition set_sessionRef (v : option nat) (s : state) : state :=
  mkState (isConnected s) (isError s) (audioContextRef s) (inputSourceRef s)
    (processorRef s) (nextStartTimeRef s) (scheduledSourcesRef s)
    v (chatHistory s) (fresh s).

Definition setChatHistory (f : list ChatMessage -> list ChatMessage)
    (s : state) : state :=
  mkState (isConnected s) (isError s) (audioContextRef s) (inputSourceRef s)
    (processorRef s) (nextStartTimeRef s) (scheduledSourcesRef s)
    (sessionRef s) (f (chatHistory s)) (fresh s).

(** Allocation of [n] new objects. *)
Definition alloc (n : nat) (s : state) : state :=
  mkState (isConnected s) (isError s) (audioContextRef s) (inputSourceRef s)
    (processorRef s) (nextStartTimeRef s) (scheduledSourcesRef s)
    (sessionRef s) (chatHistory s) (fresh s + n).

(** ** Effects on the platform *)

(** The calls on the platform and on the live session that the properties
    below are about.  The wiring of the audio nodes ([connect] on a node)
    and the text of the system instruction are left out: no property here
    depends on them. *)

Inductive effect : Type :=
  | SourceStart (src : source)         (* source.start(startTime) *)
  | SourceStop (id : nat)              (* source.stop() *)
  | NodeDisconnect (id : nat)          (* node.disconnect() *)
  | ContextClose (id : nat)            (* audioContext.close() *)
  | GetUserMedia                       (* navigator.mediaDevices.getUserMedia *)
  | LiveConnect (session : nat)        (* ai.live.connect *)
  | SendRealtimeInput (session : nat) (data : string)
  | SessionClose (session : nat)       (* session.close(): never called *)
  | ConsoleLog (msg : string)
  | ConsoleError (msg : string) (e : option exn).

(** A handler leaves a state, the effects it performed in order, and how it
    completed: normally, or by an exception that nothing caught. *)
Definition outcome : Type := state * list effect * result unit.

Definition out_state (o : outcome) : state := fst (fst o).
Definition out_effects (o : outcome) : list effect := snd (fst o).
Definition out_completion (o : outcome) : result unit := snd o.

(** ** [handleLiveTranscript] *)

(** [setChatHistory(prev => [...prev, {role, content: text}])]. *)
Definition handleLiveTranscript (text : string) (isUser : bool)
    (s : state) : state :=
  setChatHistory
    (fun prev => prev ++ [mkChatMessage (if isUser then user else model) text])
    s.

(** ** [disconnect] *)

Definition disconnect (s : state) : outcome :=
  (* 1. Close session *)
  let s := match sessionRef s with
           | Some _ => set_sessionRef None s
           | None => s
           end in
  (* 2. Stop audio input *)
  let '(s, e1) :=
    match inputSourceRef s with
    | Some n => (set_inputSourceRef None s, [NodeDisconnect n])
    | None => (s, [])
    end in
  let '(s, e2) :=
    match processorRef s with
    | Some n => (set_processorRef None s, [NodeDisconnect n])
    | None => (s, [])
    end in
  (* 3. Stop audio output *)
  let e3 := map (fun src => SourceStop (src_id src)) (scheduledSourcesRef s) in
  let s := set_scheduledSourcesRef [] s in
  let s := set_nextStartTimeRef 0%Q s in
  let '(s, e4) :=
    match audioContextRef s with
    | Some c => (set_audioContextRef None s, [ContextClose c])
    | None => (s, [])
    end in
  (setIsConnected false s, e1 ++ e2 ++ e3 ++ e4, Ok tt).

(** ** Sequencing of the parts of a handler *)

(** [andThen o k] continues with [k] after [o] unless [o] threw: an
    exception leaves the rest of the handler unexecuted. *)
Definition andThen (o : outcome) (k : state -> outcome) : outcome :=
  match out_completion o with
  | Throw e => o
  | Ok _ =>
      let o' := k (out_state o) in
      (out_state o', out_effects o ++ out_effects o', out_completion o')
  end.

Definition ret (s : state) : outcome := (s, [], Ok tt).

(** ** [connect] *)

Definition api_key_message : string :=
  "API Key not found. Please add VITE_API_KEY to Vercel.".

(** The [catch] block of [connect]. *)
Definition connect_catch (o : outcome) : outcome :=
  match out_completion o with
  | Throw err =>
      (setIsConnected false (setIsError true (out_state o)),
       out_effects o ++ [ConsoleError "Connection failed" (Some err)],
       Ok tt)
  | Ok _ => o
  end.

(** The [try] block up to [await getUserMedia(...)]. *)
Definition connect_try (env : environment) (s : state) : outcome :=
  let s := setIsError false s in
  let ctx := fresh s in
  let s := set_audioContextRef (Some ctx) (alloc 1 s) in
  match getApiKey env with
  | None => (s, [], Throw (Error api_key_message))
  | Some _ => (s, [GetUserMedia], Ok tt)
  end.

(** [connect()], run until it suspends on the microphone request or ends. *)
Definition connect (env : environment) (s : state) : outcome :=
  connect_catch (connect_try env s).

(** The rest of the [try] block, entered when the microphone request
    settles: on a stream the input nodes are created and stored and the
    live session is requested, with the callbacks below. *)
Definition connect_resume_try (stream : result unit) (s : state) : outcome :=
  match stream with
  | Throw e => (s, [], Throw e)
  | Ok _ =>
      let source := fresh s in
      let processor := S (fresh s) in
      let session := S (S (fresh s)) in
      let s := alloc 3 s in
      let s := set_inputSourceRef (Some source) s in
      let s := set_processorRef (Some processor) s in
      (s, [LiveConnect session], Ok tt)
  end.

Definition connect_resume (stream : result unit) (s : state) : outcome :=
  connect_catch (connect_resume_try stream s).

(** ** Callbacks *)

Definition onopen (s : state) : outcome :=
  (setIsConnected true s, [ConsoleLog "Live API Connected"], Ok tt).

Definition onclose (s : state) : outcome :=
  (setIsConnected false s, [ConsoleLog "Live API Closed"], Ok tt).

Definition onerror (s : state) : outcome :=
  (setIsConnected false (setIsError true s),
   [ConsoleError "Live API Error:" None], Ok tt).

(** [sessionPromise.then(session => ...)]: the session is stored and the
    capture callback installed. *)
Definition session_resolved (session : nat) (s : state) : outcome :=
  ret (set_sessionRef (Some session) s).

(** [processor.onaudioprocess]: one captured frame is encoded and sent on
    the session the callback closed over. *)
Definition onaudioprocess (session : nat) (inputData : list number)
    (s : state) : outcome :=
  (s, [SendRealtimeInput session (float32ToBase64 inputData)], Ok tt).

(** [source.onended]: the source leaves the set. *)
Definition onended (id : nat) (s : state) : outcome :=
  ret (set_scheduledSourcesRef
         (List.filter (fun src => negb (src_id src =? id)%nat)
            (scheduledSourcesRef s))
         s).

(** The three parts of [onmessage]. *)
Definition onmessage_transcriptions (message : LiveServerMessage)
    (s : state) : outcome :=
  let s := if truthy (inputTranscription message)
           then handleLiveTranscript
                  (default EmptyString (inputTranscription message)) true s
           else s in
  let s := if truthy (outputTranscription message)
           then handleLiveTranscript
                  (default EmptyString (outputTranscription message)) false s
           else s in
  ret s.

Definition onmessage_audio (message : LiveServerMessage) (currentTime : Q)
    (s : state) : outcome :=
  match audioContextRef s with
  | Some _ =>
      if truthy (inlineData message) then
        let audioData := default EmptyString (inlineData message) in
        match (let* bytes := decodeBase64 audioData in
               decodeAudioData bytes 24000 1) with
        | Throw e => (s, [], Throw e)
        | Ok buffer =>
            let startTime := Qmax currentTime (nextStartTimeRef s) in
            let source := mkSource (fresh s) buffer startTime in
            let s := alloc 1 s in
            let s := set_nextStartTimeRef (startTime + duration buffer) s in
            let s := set_scheduledSourcesRef
                       (scheduledSourcesRef s ++ [source]) s in
            (s, [SourceStart source], Ok tt)
        end
      else ret s
  | None => ret s
  end.

Definition onmessage_interruption (message : LiveServerMessage)
    (s : state) : outcome :=
  if interrupted message then
    (set_nextStartTimeRef 0 (set_scheduledSourcesRef [] s),
     map (fun src => SourceStop (src_id src)) (scheduledSourcesRef s),
     Ok tt)
  else ret s.

(** [onmessage], with the reading of the output clock
    ([audioContextRef.current.currentTime]) at that moment.  The handler is
    asynchronous; its one [await] is on a promise that is already settled,
    so it runs to its end, or to the exception that ends it, before the
    next event is delivered. *)
Definition onmessage (message : LiveServerMessage) (currentTime : Q)
    (s : state) : outcome :=
  andThen (andThen (onmessage_transcriptions message s)
                   (onmessage_audio message currentTime))
          (onmessage_interruption message).

(** ** Events and runs *)

Inductive event : Type :=
  | Connect (env : environment)
  | MicrophoneSettled (stream : result unit)
  | SessionResolved (session : nat)
  | Open
  | Close
  | TransportError
  | Message (message : LiveServerMessage) (currentTime : Q)
  | Ended (id : nat)
  | AudioProcess (session : nat) (inputData : list number)
  | Disconnect.

Definition handle (ev : event) (s : state) : outcome :=
  match ev with
  | Connect env => connect env s
  | MicrophoneSettled stream => connect_resume stream s
  | SessionResolved session => session_resolved session s
  | Open => onopen s
  | Close => onclose s
  | TransportError => onerror s
  | Message message currentTime => onmessage message currentTime s
  | Ended id => onended id s
  | AudioProcess session inputData => onaudioprocess session inputData s
  | Disconnect => disconnect s
  end.

(** The states and effects of a sequence of events; an exception in one
    handler does not prevent the next event from being handled. *)
Fixpoint run (evs : list event) (s : state) : state * list effect :=
  match evs with
  | [] => (s, [])
  | ev :: rest =>
      let o := handle ev s in
      let '(s', eff) := run rest (out_state o) in
      (s', out_effects o ++ eff)
  end.

(** The buffers started by a list of effects, in order. *)
Definition started (eff : list effect) : list source :=
  omap (fun e => match e with SourceStart src => Some src | _ => None end) eff.

(* ===================================================================== *)
(** * Auxiliary notions used in the statements *)
(* ===================================================================== *)

(** The 6-bit values and the padding that [btoa] produces. *)
Fixpoint sextets (binary : list ascii) : list Z :=
  match binary with
  | [] => []
  | [a] => let a := charCode a in [a / 4; a mod 4 * 16]
  | [a; b] =>
      let a := charCode a in
      let b := charCode b in
      [a / 4; a mod 4 * 16 + b / 16; b mod 16 * 4]
  | a :: b :: c :: rest =>
      let a := charCode a in
      let b := charCode b in
      let c := charCode c in
      a / 4 :: a mod 4 * 16 + b / 16 :: b mod 16 * 4 + c / 64 :: c mod 64
        :: sextets rest
  end.

Fixpoint padding (binary : list ascii) : list ascii :=
  match binary with
  | [] => []
  | [_] => ["="%char; "="%char]
  | [_; _] => ["="%char]
  | _ :: _ :: _ :: rest => padding rest
  end.

(** The signed 16-bit range. *)
Definition int16_range (v : Z) : Prop := -32768 <= v <= 32767.

(** A 16-bit sample divided by 32768. *)
Definition normalized (v : Z) : number := Fin (inject_Z v / 32768).

(** The samples of one channel of interleaved 16-bit data: [len] frames,
    frame [i] of channel [channel] being element [i * numChannels + channel]. *)
Definition deinterleaved (d : list Z) (numChannels len channel : nat)
    : list number :=
  map (fun i => normalized (nth (i * numChannels + channel) d 0)) (seq 0 len).

(** What the clamp of a sample is, by cases on the sample. *)
Definition clamped (x : number) (s : Q) : Prop :=
  match x with
  | Fin q => (q < -1 /\ s == -1) \/ (-1 <= q <= 1 /\ s == q) \/ (1 < q /\ s == 1)
  | PosInf => s == 1
  | NegInf => s == -1
  | NaN => False
  end%Q.

(** What the encoder is to store for a sample: the clamp of the sample
    times 32768 when negative and times 32767 otherwise, truncated toward
    zero on storing into 16 bits. *)
Definition transport_sample (x : number) (v : Z) : Prop :=
  exists s, clamped x s
            /\ ((s < 0 /\ v = Qtrunc (s * 32768))
                \/ (0 <= s /\ v = Qtrunc (s * 32767)))%Q.

(** Two bytes hold a 16-bit value in two's complement, low byte first. *)
Definition little_endian (v : Z) (lo hi : byte) : Prop :=
  byte_val lo + 256 * byte_val hi = v mod 65536.

(** One quantization step of the 16-bit encoding. *)
Definition quantum : Q := 1 # 32768.

(** The value that decoding gives back for a sample. *)
Definition recovered (x : number) : Q := inject_Z (pcm16 x) / 32768.

(** Encoding for transport, then decoding for playback. *)
Definition roundtrip (data : list number) : result AudioBuffer :=
  let* bytes := decodeBase64 (float32ToBase64 data) in
  decodeAudioData bytes 24000 1.

(** Successive buffers: each starts no earlier than [t] and than the end
    of the one before it. *)
Fixpoint chained (t : Q) (l : list source) : Prop :=
  match l with
  | [] => True
  | src :: rest => (t <= startTime src)%Q /\ chained (endTime src) rest
  end.

(** No two buffers of the list play at the same time: each buffer ends
    before any later one starts. *)
Fixpoint no_overlap (l : list source) : Prop :=
  match l with
  | [] => True
  | src :: rest =>
      Forall (fun later => (endTime src <= startTime later)%Q) rest
      /\ no_overlap rest
  end.

(** Every buffer of the list ends by [t]. *)
Definition ends_by (t : Q) (l : list source) : Prop :=
  Forall (fun src => (endTime src <= t)%Q) l.

(** The states of a run, from the first. *)
Fixpoint states (evs : list event) (s : state) : list state :=
  s :: match evs with
       | [] => []
       | ev :: rest => states rest (out_state (handle ev s))
       end.

(** The events that reset the playback clock offset: an interruption
    signal and [disconnect]. *)
Definition resets (ev : event) : bool :=
  match ev with
  | Message message _ => interrupted message
  | Disconnect => true
  | _ => false
  end.

(** The calls of [connect] by the user, as opposed to the callbacks that
    the platform and the live session invoke. *)
Definition is_connect (ev : event) : bool :=
  match ev with
  | Connect _ => true
  | _ => false
  end.

(** The audio payload of a message, decoded as [onmessage] does. *)
Definition decoded_audio (message : LiveServerMessage) : result AudioBuffer :=
  let* bytes := decodeBase64 (default EmptyString (inlineData message)) in
  decodeAudioData bytes 24000 1.

(** The source that [onmessage] creates for a decoded payload. *)
Definition scheduled_source (s : state) (now : Q) (buffer : AudioBuffer) : source :=
  mkSource (fresh s) buffer (Qmax now (nextStartTimeRef s)).

(** The three ways the audio part can go: a source is scheduled, the
    decoding throws, or there is nothing to play. *)
Inductive audio_case (message : LiveServerMessage) (now : Q) (s : state)
    : outcome -> Prop :=
  | audio_scheduled (buffer : AudioBuffer) :
      audioContextRef s <> None ->
      truthy (inlineData message) = true ->
      decoded_audio message = Ok buffer ->
      audio_case message now s
        (set_scheduledSourcesRef
           (scheduledSourcesRef s ++ [scheduled_source s now buffer])
           (set_nextStartTimeRef (endTime (scheduled_source s now buffer))
              (alloc 1 s)),
         [SourceStart (scheduled_source s now buffer)], Ok tt)
  | audio_thrown (e : exn) :
      audioContextRef s <> None ->
      truthy (inlineData message) = true ->
      decoded_audio message = Throw e ->
      audio_case message now s (s, [], Throw e)
  | audio_none :
      audioContextRef s = None \/ truthy (inlineData message) = false ->
      audio_case message now s (ret s).

(** The fragments that a message carries, the user's first. *)
Definition fragments (message : LiveServerMessage) : list (role * string) :=
  match inputTranscription message with
  | Some text => [(user, text)]
  | None => []
  end ++
  match outputTranscription message with
  | Some text => [(model, text)]
  | None => []
  end.

(** The transcript entries that fragments give. *)
Definition entry (fragment : role * string) : ChatMessage :=
  mkChatMessage (fst fragment) (snd fragment).


(** The characters of a transport text: the base64 alphabet and the
    padding character. *)
Definition text_safe (c : ascii) : Prop :=
  (exists n, 0 <= n < 64 /\ c = b64_char n) \/ c = "="%char.


(** The identities of the objects in the state are well allocated: the
    sources of the active set are distinct objects, and every object that
    the state refers to was created before the next one to be created. *)
Definition well_allocated (s : state) : Prop :=
  NoDup (map src_id (scheduledSourcesRef s))
  /\ Forall (fun src => (src_id src < fresh s)%nat) (scheduledSourcesRef s)
  /\ forall c, audioContextRef s = Some c -> (c < fresh s)%nat.


(* ===================================================================== *)
(** * Strings and numbers of the platform, continued *)
(* ===================================================================== *)

(** Strings are sequences of code units below 256, as above.  The white
    space that [trim] and [parseInt] skip: tab, line feed, vertical tab, form
    feed, carriage return, space and no-break space. *)
Definition js_whitespace (c : ascii) : bool :=
  let n := charCode c in
  (n =? 9) || (n =? 10) || (n =? 11) || (n =? 12) || (n =? 13) || (n =? 32)
  || (n =? 160).

Fixpoint trim_start (s : string) : string :=
  match s with
  | String c r => if js_whitespace c then trim_start r else s
  | EmptyString => EmptyString
  end.

Definition string_rev (s : string) : string :=
  string_of_list_ascii (rev (list_ascii_of_string s)).

(** [s.trim()]. *)
Definition trim (s : string) : string :=
  string_rev (trim_start (string_rev (trim_start s))).

(** [s.split(sep)] for a separator of one character. *)
Fixpoint split (sep : ascii) (s : string) : list string :=
  match s with
  | EmptyString => [EmptyString]
  | String c r =>
      if Ascii.eqb c sep then EmptyString :: split sep r
      else match split sep r with
           | h :: t => String c h :: t
           | [] => [String c EmptyString]
           end
  end.

(** The value of a character as a digit: 0-9, then a-z and A-Z for 10 to
    35. *)
Definition digit_value (c : ascii) : option nat :=
  let n := charCode c in
  if (48 <=? n) && (n <=? 57) then Some (Z.to_nat (n - 48))
  else if (97 <=? n) && (n <=? 122) then Some (Z.to_nat (n - 87))
  else if (65 <=? n) && (n <=? 90) then Some (Z.to_nat (n - 55))
  else None.

(** The value of the longest prefix of [s] made of digits of radix
    [radix], after the digits already read; [None] when no digit has been
    read. *)
Fixpoint parse_digits (radix : nat) (s : string) (acc : option nat)
    : option nat :=
  match s with
  | String c r =>
      match digit_value c with
      | Some d =>
          if (d <? radix)%nat
          then parse_digits radix r (Some (radix * default O acc + d)%nat)
          else acc
      | None => acc
      end
  | EmptyString => acc
  end.

(** [parseInt(s)] with no radix: leading white space is skipped, a sign is
    read, a prefix [0x] or [0X] selects radix 16, and the longest prefix of
    digits gives the value; [None] is NaN.  (The platform rounds values
    beyond 2^53; the values here are exact.) *)
Definition parseInt (s : string) : option Z :=
  let s := trim_start s in
  let '(sign, s) :=
    match s with
    | String c r =>
        if Ascii.eqb c "-" then (-1, r)
        else if Ascii.eqb c "+" then (1, r)
        else (1, s)
    | EmptyString => (1, s)
    end in
  let '(radix, s) :=
    match s with
    | String c (String x r) =>
        if Ascii.eqb c "0" && (Ascii.eqb x "x" || Ascii.eqb x "X")
        then (16%nat, r) else (10%nat, s)
    | _ => (10%nat, s)
    end in
  match parse_digits radix s None with
  | Some n => Some (sign * Z.of_nat n)
  | None => None
  end.

(** [n.toString()] for an integer or NaN. *)
Definition toString (n : option Z) : string :=
  match n with
  | None => "NaN"
  | Some z =>
      if z <? 0
      then String "-" (NilZero.string_of_uint (Nat.to_uint (Z.to_nat (- z))))
      else NilZero.string_of_uint (Nat.to_uint (Z.to_nat z))
  end.

(* ===================================================================== *)
(** * The analysis service *)
(* ===================================================================== *)

(** The result of an analysis ([types.ts]). *)
Inductive Confidence : Type := High | Medium | Low | Uncertain.
Inductive Severity : Type := Critical | Moderate | Mild | Unknown.

Record Diagnosis : Type := mkDiagnosis {
  condition : string;
  confidence : Confidence;
  suggestion : string;
  severity : Severity
}.

Record AnalysisResult : Type := mkAnalysisResult {
  summary : string;
  keyInsights : list string;
  diagnoses : list Diagnosis
}.

(** A file chosen by the user: its MIME type and what a [FileReader] gives
    for it as a data URL ([reader.result]: a string, or [None] when the
    reading failed). *)
Record File : Type := mkFile {
  file_type : string;
  dataURL : option string
}.

(** The part sent to the model; [None] is [undefined]. *)
Record GenerativePart : Type := mkPart {
  part_data : option string;
  mimeType : string
}.

(** [fileToGenerativePart]: the second piece of the data URL split at its
    commas. *)
Definition fileToGenerativePart (file : File) : GenerativePart :=
  mkPart
    (match dataURL file with
     | Some r => nth_error (split "," r) 1
     | None => Some EmptyString
     end)
    (file_type file).

Definition key_missing_message : string := "API Key is missing.".

Definition analysis_failed_message : string :=
  "Failed to get a valid analysis from the AI. The model may be unable to process this image or there was a network issue.".

(** What the page gives for [process.env.API_KEY].  Where [process] and
    [process.env] exist the expression has the value of the variable, [None]
    when the variable is absent.  Where one of them is not defined, reading
    the expression throws: the platform's ReferenceError or TypeError, an
    [Error] object of which only the message is observed; the message is the
    platform's own. *)
Inductive process_API_KEY : Type :=
  | process_env (key : option string)
  | process_missing (message : string).

(** The globals of the page that hold credentials:
    [import.meta.env.VITE_API_KEY] and [process]. *)
Record globals : Type := mkGlobals {
  import_meta_env_VITE_API_KEY : option string;
  process : process_API_KEY
}.

(** What [getApiKey] finds in the page.  Its reading of
    [process.env.API_KEY] is guarded by
    [typeof process !== 'undefined' && process.env]: where [process] is
    missing it finds no variable. *)
Definition environment_of (page : globals) : environment :=
  mkEnvironment (import_meta_env_VITE_API_KEY page)
    match process page with
    | process_env key => key
    | process_missing _ => None
    end.

(** [analyzeMedicalImage].  Its first line reads [process.env.API_KEY]
    with no guard and outside the [try] block: where [process] is missing
    the platform's error leaves the function as it is.  [generateContent]
    is the service: for the part it is sent it gives the text of the
    response, or fails (a response with no text makes
    [response.text.trim()] throw, inside the [try] block as well);
    [JSON_parse] is [JSON.parse] read at the type of the result.  The
    function returns the parts it sent to the service and how it completed;
    the failure that it logs on the console before it throws again is left
    out. *)
Definition analyzeMedicalImage (API_KEY : process_API_KEY)
    (generateContent : GenerativePart -> result string)
    (JSON_parse : string -> result AnalysisResult)
    (imageFile : File) : list GenerativePart * result AnalysisResult :=
  match API_KEY with
  | process_missing message => ([], Throw (Error message))
  | process_env API_KEY =>
      if negb (truthy API_KEY) then ([], Throw (Error key_missing_message))
      else
        let imagePart := fileToGenerativePart imageFile in
        ([imagePart],
         match (let* text := generateContent imagePart in
                JSON_parse (trim text)) with
         | Ok parsedResult => Ok parsedResult
         | Throw _ => Throw (Error analysis_failed_message)
         end)
  end.


(* ===================================================================== *)
(** * The home view *)
(* ===================================================================== *)

(** A language of the selector: its code and the name used in prompts
    (the label, which is only displayed, is left out). *)
Record Language : Type := mkLanguage {
  code : string;
  name : string
}.

Definition LANGUAGES : list Language :=
  [mkLanguage "en-US" "English"; mkLanguage "hi-IN" "Hindi";
   mkLanguage "es-ES" "Spanish"; mkLanguage "fr-FR" "French"].

(** A text chat session, created for one analysis. *)
Record Chat : Type := mkChat {
  seeded_with : AnalysisResult
}.

(** The state of [HomeView]: the state of the live hook (which holds the
    chat history here), the states of the view, and the item of local
    storage that holds the user count. *)
Record home : Type := mkHome {
  live : state;
  imageFile : option File;
  imagePreview : option string;
  isLoading : bool;
  analysis : option AnalysisResult;
  error : option string;
  chat : option Chat;
  isChatLoading : bool;
  chatInput : string;
  selectedLanguage : Language;
  diagnosphere_user_count : option string
}.

Definition initial_home : home :=
  mkHome initial None None false None None None false EmptyString
    (mkLanguage "en-US" "English") None.

(** What the view does to the outside: the effects of the live hook, an
    alert, a message sent on the text chat, an analysis requested. *)
Inductive home_effect : Type :=
  | Live (e : effect)
  | Alert (msg : string)
  | ChatSendMessage (c : Chat) (message : string)
  | AnalyzeMedicalImage (file : File).

Definition set_live (v : state) (h : home) : home :=
  mkHome v (imageFile h) (imagePreview h) (isLoading h) (analysis h)
    (error h) (chat h) (isChatLoading h) (chatInput h) (selectedLanguage h)
    (diagnosphere_user_count h).

(** The live hook's [disconnect], called from the view. *)
Definition disconnectLive (h : home) : home * list home_effect :=
  (set_live (out_state (disconnect (live h))) h,
   map Live (out_effects (disconnect (live h)))).

(** [resetState]. *)
Definition resetState (h : home) : home * list home_effect :=
  let h' :=
    mkHome (setChatHistory (fun _ => []) (live h)) None None false None None
      None false EmptyString (selectedLanguage h) (diagnosphere_user_count h) in
  disconnectLive h'.

Definition invalid_image_message : string :=
  "Please upload a valid JPG or PNG image.".

(** [handleFileChange], with [event.target.files?.[0]]. *)
Definition handleFileChange (file : option File) (h : home)
    : home * list home_effect :=
  match file with
  | Some f =>
      if String.eqb (file_type f) "image/jpeg"
         || String.eqb (file_type f) "image/png"
      then
        let '(h, eff) := resetState h in
        (mkHome (live h) (Some f) (imagePreview h) (isLoading h) (analysis h)
           (error h) (chat h) (isChatLoading h) (chatInput h)
           (selectedLanguage h) (diagnosphere_user_count h), eff)
      else
        (mkHome (live h) None None (isLoading h) (analysis h)
           (Some invalid_image_message) (chat h) (isChatLoading h)
           (chatInput h) (selectedLanguage h) (diagnosphere_user_count h), [])
  | None =>
      (mkHome (live h) None None (isLoading h) (analysis h)
         (Some invalid_image_message) (chat h) (isChatLoading h)
         (chatInput h) (selectedLanguage h) (diagnosphere_user_count h), [])
  end.

Definition no_image_message : string := "Please upload an image first.".

(** [handleAnalyzeClick] up to [await analyzeMedicalImage(imageFile)]. *)
Definition handleAnalyzeClick (h : home) : home * list home_effect :=
  match imageFile h with
  | None =>
      (mkHome (live h) (imageFile h) (imagePreview h) (isLoading h)
         (analysis h) (Some no_image_message) (chat h) (isChatLoading h)
         (chatInput h) (selectedLanguage h) (diagnosphere_user_count h), [])
  | Some f =>
      let h :=
        mkHome (setChatHistory (fun _ => []) (live h)) (imageFile h)
          (imagePreview h) true None None None (isChatLoading h) (chatInput h)
          (selectedLanguage h) (diagnosphere_user_count h) in
      let '(h, eff) := disconnectLive h in
      let currentCount :=
        parseInt (if truthy (diagnosphere_user_count h)
                  then default EmptyString (diagnosphere_user_count h)
                  else "498") in
      let h :=
        mkHome (live h) (imageFile h) (imagePreview h) (isLoading h)
          (analysis h) (error h) (chat h) (isChatLoading h) (chatInput h)
          (selectedLanguage h)
          (Some (toString (option_map (fun n => n + 1) currentCount))) in
      (h, eff ++ [AnalyzeMedicalImage f])
  end.

(** The rest of [handleAnalyzeClick], entered when the analysis of the
    file settles.  Every exception that reaches the [catch] block is an
    [Error] object, whose message is shown; the other branch of the
    conditional is there for completeness. *)
Definition handleAnalyzeClick_resume (page : globals)
    (generateContent : GenerativePart -> result string)
    (JSON_parse : string -> result AnalysisResult)
    (file : File) (h : home) : home :=
  let settled :=
    snd (analyzeMedicalImage (process page) generateContent JSON_parse file) in
  let outcome : result (AnalysisResult * Chat) :=
    let* result := settled in
    match getApiKey (environment_of page) with
    | None => Throw (Error "API Key missing")
    | Some _ => Ok (result, mkChat result)
    end in
  let analysis' :=
    match settled with
    | Ok result => Some result
    | Throw _ => analysis h
    end in
  match outcome with
  | Ok (_, chatSession) =>
      mkHome (live h) (imageFile h) (imagePreview h) false analysis'
        (error h) (Some chatSession) (isChatLoading h) (chatInput h)
        (selectedLanguage h) (diagnosphere_user_count h)
  | Throw err =>
      mkHome (live h) (imageFile h) (imagePreview h) false analysis'
        (Some match err with
              | Error msg => msg
              | _ => "An unknown error occurred."%string
              end)
        (chat h) (isChatLoading h) (chatInput h)
        (selectedLanguage h) (diagnosphere_user_count h)
  end.

Definition live_chat_message : string :=
  "Please disconnect Live Voice Chat to type messages.".

(** The prompt that [handleSendChatMessage] sends for an input. *)
Definition promptWithLanguage (content : string) (language : Language)
    : string :=
  (content ++ " (IMPORTANT: Please respond in " ++ name language
   ++ ". If the medical terms are complex, explain them simply in "
   ++ name language ++ ".)")%string.

(** [handleSendChatMessage] up to [await chat.sendMessage(...)]. *)
Definition handleSendChatMessage (h : home) : home * list home_effect :=
  match chat h with
  | None => (h, [])
  | Some c =>
      if negb (truthy (Some (trim (chatInput h)))) || isChatLoading h
      then (h, [])
      else if isConnected (live h) then (h, [Alert live_chat_message])
      else
        (mkHome
           (setChatHistory
              (fun prev => prev ++ [mkChatMessage user (chatInput h)]) (live h))
           (imageFile h) (imagePreview h) (isLoading h) (analysis h) (error h)
           (chat h) true EmptyString (selectedLanguage h)
           (diagnosphere_user_count h),
         [ChatSendMessage c
            (promptWithLanguage (chatInput h) (selectedLanguage h))])
  end.

Definition no_response_message : string :=
  "Failed to get a response. Please try again.".

(** The rest of [handleSendChatMessage], entered when the chat settles,
    with the text of the response. *)
Definition handleSendChatMessage_resume (response : result string)
    (h : home) : home :=
  match response with
  | Ok text =>
      mkHome
        (setChatHistory (fun prev => prev ++ [mkChatMessage model text])
           (live h))
        (imageFile h) (imagePreview h) (isLoading h) (analysis h) (error h)
        (chat h) false (chatInput h) (selectedLanguage h)
        (diagnosphere_user_count h)
  | Throw _ =>
      mkHome (live h) (imageFile h) (imagePreview h) (isLoading h)
        (analysis h) (Some no_response_message) (chat h) false (chatInput h)
        (selectedLanguage h) (diagnosphere_user_count h)
  end.

(** [setChatInput(e.target.value)], the typing in the input box. *)
Definition setChatInput (v : string) (h : home) : home :=
  mkHome (live h) (imageFile h) (imagePreview h) (isLoading h) (analysis h)
    (error h) (chat h) (isChatLoading h) v (selectedLanguage h)
    (diagnosphere_user_count h).

(** An event of the live hook, handled in the view. *)
Definition handle_live (ev : event) (h : home) : home * list home_effect :=
  (set_live (out_state (handle ev (live h))) h,
   map Live (out_effects (handle ev (live h)))).

(** [toggleLiveConnection]. *)
Definition toggleLiveConnection (env : environment) (h : home)
    : home * list home_effect :=
  if isConnected (live h) then disconnectLive h
  else handle_live (Connect env) h.

(** The [onChange] of the language selector. *)
Definition onLanguageChange (value : string) (h : home)
    : home * list home_effect :=
  match List.find (fun l => String.eqb (code l) value) LANGUAGES with
  | Some lang =>
      let h :=
        mkHome (live h) (imageFile h) (imagePreview h) (isLoading h)
          (analysis h) (error h) (chat h) (isChatLoading h) (chatInput h)
          lang (diagnosphere_user_count h) in
      if isConnected (live h) then disconnectLive h else (h, [])
  | None => (h, [])
  end.

(** [reader.onloadend] of [handleFileChange]: the preview is set to the
    result of the reading. *)
Definition onloadend (result : option string) (h : home) : home :=
  mkHome (live h) (imageFile h) result (isLoading h) (analysis h) (error h)
    (chat h) (isChatLoading h) (chatInput h) (selectedLanguage h)
    (diagnosphere_user_count h).

(** ** Events of the view *)

(** What happens to the view: the user acts on a control, a reading, an
    analysis or a chat request settles, the live hook handles one of its
    events, the view is unmounted.  An analysis settles for the file it was
    requested for, in the environment and with the service of that
    moment. *)
Inductive home_event : Type :=
  | FileChange (file : option File)
  | PreviewLoaded (result : option string)
  | AnalyzeClick
  | AnalysisSettled (page : globals)
      (generateContent : GenerativePart -> result string)
      (JSON_parse : string -> result AnalysisResult) (file : File)
  | ChatInput (value : string)
  | SendChatMessage
  | ChatSettled (response : result string)
  | ToggleLive (env : environment)
  | LanguageChange (value : string)
  | LiveEvent (ev : event)
  | Unmount.

Definition home_handle (ev : home_event) (h : home)
    : home * list home_effect :=
  match ev with
  | FileChange file => handleFileChange file h
  | PreviewLoaded result => (onloadend result h, [])
  | AnalyzeClick => handleAnalyzeClick h
  | AnalysisSettled page generateContent JSON_parse file =>
      (handleAnalyzeClick_resume page generateContent JSON_parse file h, [])
  | ChatInput value => (setChatInput value h, [])
  | SendChatMessage => handleSendChatMessage h
  | ChatSettled response => (handleSendChatMessage_resume response h, [])
  | ToggleLive env => toggleLiveConnection env h
  | LanguageChange value => onLanguageChange value h
  | LiveEvent ev => handle_live ev h
  | Unmount => disconnectLive h
  end.

Fixpoint home_run (evs : list home_event) (h : home)
    : home * list home_effect :=
  match evs with
  | [] => (h, [])
  | ev :: rest =>
      let '(h1, eff1) := home_handle ev h in
      let '(h2, eff2) := home_run rest h1 in
      (h2, eff1 ++ eff2)
  end.

(** The number of analyses that a list of effects requests. *)
Definition analyses_requested (eff : list home_effect) : nat :=
  length (List.filter (fun e => match e with
                                | AnalyzeMedicalImage _ => true
                                | _ => false
                                end) eff).

(** ** The user count *)

(** The effect that [LiveStats] runs when it is mounted, with the value
    that [Math.random()] gives: the count shown and the item stored.  The
    product by 50 is exact here. *)
Definition LiveStats_mount (random : Q) (savedCount : option string)
    : option Z * string :=
  let count := if truthy savedCount
               then parseInt (default EmptyString savedCount)
               else Some 498 in
  let count := if negb (truthy savedCount)
               then option_map (fun n => n + Qfloor (random * 50)) count
               else count in
  (count, toString count).

(** ** Reviews *)

Record Review : Type := mkReview {
  review_id : string;
  review_name : string;
  rating : nat;
  comment : string;
  date : string
}.

Definition initialReviews : list Review :=
  [mkReview "1" "Angeelina A." 5
     "Helped me understand my ankle X-ray before seeing the doc!" "2025-11-10";
   mkReview "2" "Rahul M." 5
     "Great initiative by students. Very easy to use." "2025-11-12";
   mkReview "3" "Dr. Avnish K." 4
     "The simplified terms feature is a lifesaver." "2025-11-15"].

(** The state of [FeedbackSection]; [stored] is the list last written to
    local storage, through [JSON.stringify]. *)
Record feedback : Type := mkFeedback {
  reviews : list Review;
  showAll : bool;
  newReview : string * nat * string;   (* name, rating, comment *)
  showForm : bool;
  stored : option (list Review)
}.

Definition thanks_message : string := "Thank you for your feedback!".

(** [handleSubmit], with [Date.now().toString()] and the date of the
    day. *)
Definition handleSubmit (now today : string) (f : feedback)
    : feedback * list home_effect :=
  let '(n, r, c) := newReview f in
  if negb (truthy (Some n)) || negb (truthy (Some c)) then (f, [])
  else
    let review := mkReview now n r c today in
    let updatedReviews := review :: reviews f in
    (mkFeedback updatedReviews (showAll f) (EmptyString, 5%nat, EmptyString)
       false (Some updatedReviews),
     [Alert thanks_message]).

(** [displayedReviews]. *)
Definition displayedReviews (f : feedback) : list Review :=
  if showAll f then reviews f else firstn 3 (reviews f).


(** The decimal digits. *)
Definition is_decimal (c : ascii) : Prop := 48 <= charCode c <= 57.


(** The integers that the platform's numbers hold exactly; [parseInt],
    the addition and [toString] above are those of the platform on them.
    (NaN is a value of its own.) *)
Definition MAX_SAFE_INTEGER : Z := 9007199254740991.

Definition safe_integer (v : option Z) : Prop :=
  match v with
  | Some z => Z.abs z <= MAX_SAFE_INTEGER
  | None => True
  end.

(** The count that [handleAnalyzeClick] reads: the stored item, or 498
    without one. *)
Definition currentCount (h : home) : option Z :=
  parseInt (if truthy (diagnosphere_user_count h)
            then default EmptyString (diagnosphere_user_count h)
            else "498").

(** The chat of the view, if there is one, was seeded with the analysis
    that the view shows. *)
Definition chat_about_analysis (h : home) : Prop :=
  forall c, chat h = Some c -> analysis h = Some (seeded_with c).

(* ===================================================================== *)
(** * Bytes and characters *)
(* ===================================================================== *)

Section Bytes.

Lemma byte_val_range (b : byte) : 0 <= byte_val b < 256.
Proof.
  unfold byte_val. pose proof (Byte.to_N_bounded b). lia.
Qed.

Lemma byte_of_Z_val (b : byte) : byte_of_Z (byte_val b) = b.
Proof.
  unfold byte_of_Z. pose proof (byte_val_range b) as Hr.
  rewrite Z.mod_small by exact Hr.
  unfold byte_val. rewrite N2Z.id, Byte.of_to_N. reflexivity.
Qed.

Lemma byte_val_of_Z (z : Z) : byte_val (byte_of_Z z) = z mod 256.
Proof.
  unfold byte_of_Z, byte_val.
  pose proof (Z.mod_pos_bound z 256 ltac:(lia)) as Hr.
  destruct (Byte.of_N (Z.to_N (z mod 256))) as [b|] eqn:E.
  - apply Byte.to_of_N in E. rewrite E. lia.
  - apply Byte.of_N_None_iff in E. lia.
Qed.

Lemma charCode_range (c : ascii) : 0 <= charCode c < 256.
Proof.
  unfold charCode. pose proof (N_ascii_bounded c). lia.
Qed.

Lemma chr_charCode (c : ascii) : chr (charCode c) = c.
Proof.
  unfold chr. rewrite Z.mod_small by apply charCode_range.
  unfold charCode. rewrite N2Z.id. apply ascii_N_embedding.
Qed.

Lemma charCode_fromCharCode (b : byte) : charCode (fromCharCode b) = byte_val b.
Proof.
  unfold charCode, fromCharCode, byte_val.
  rewrite ascii_of_byte_via_N, N_ascii_embedding; [reflexivity|].
  pose proof (Byte.to_N_bounded b). lia.
Qed.

Lemma byte_of_charCode (b : byte) : byte_of_Z (charCode (fromCharCode b)) = b.
Proof.
  rewrite charCode_fromCharCode. apply byte_of_Z_val.
Qed.

End Bytes.

(* ===================================================================== *)
(** * Base64: [atob] inverts [btoa] *)
(* ===================================================================== *)

Section Base64.

(** Induction three characters at a time, as [btoa] recurses. *)
Lemma list_ind3 {A : Type} (P : list A -> Prop) :
  P [] -> (forall a, P [a]) -> (forall a b, P [a; b]) ->
  (forall a b c rest, P rest -> P (a :: b :: c :: rest)) ->
  forall l, P l.
Proof.
  intros H0 H1 H2 H3.
  fix IH 1.
  intros [|a [|b [|c rest]]];
    [exact H0 | apply H1 | apply H2 | apply H3; apply IH].
Qed.

Lemma sextet_cases (n : Z) :
  0 <= n < 64 -> exists k : nat, (k < 64)%nat /\ n = Z.of_nat k.
Proof.
  intros H. exists (Z.to_nat n). lia.
Qed.

Ltac each_sextet n H :=
  destruct (sextet_cases n H) as (k & Hk & ->);
  do 64 (destruct k as [|k]; [vm_compute; reflexivity|]); lia.

Lemma b64_index_char (n : Z) : 0 <= n < 64 -> b64_index (b64_char n) = Some n.
Proof. intros H. each_sextet n H. Qed.

Lemma b64_char_not_space (n : Z) :
  0 <= n < 64 -> is_ascii_whitespace (b64_char n) = false.
Proof. intros H. each_sextet n H. Qed.

Lemma b64_char_not_pad (n : Z) :
  0 <= n < 64 -> Ascii.eqb (b64_char n) "=" = false.
Proof. intros H. each_sextet n H. Qed.

Lemma sextets_range (l : list ascii) : Forall (fun n => 0 <= n < 64) (sextets l).
Proof.
  induction l as [|a|a b|a b c rest IH] using list_ind3; cbn [sextets].
  - constructor.
  - pose proof (charCode_range a).
    repeat constructor; Z.div_mod_to_equations; lia.
  - pose proof (charCode_range a). pose proof (charCode_range b).
    repeat constructor; Z.div_mod_to_equations; lia.
  - pose proof (charCode_range a). pose proof (charCode_range b).
    pose proof (charCode_range c).
    repeat (constructor; [Z.div_mod_to_equations; lia|]). exact IH.
Qed.

Lemma btoa_chars (binary : string) :
  list_ascii_of_string (btoa binary) =
  map b64_char (sextets (list_ascii_of_string binary))
    ++ padding (list_ascii_of_string binary).
Proof.
  assert (H : forall l, list_ascii_of_string (btoa (string_of_list_ascii l)) =
                        map b64_char (sextets l) ++ padding l).
  { induction l as [|a|a b|a b c rest IH] using list_ind3;
      cbn [string_of_list_ascii btoa sextets padding map app list_ascii_of_string];
      try reflexivity.
    rewrite IH. reflexivity. }
  rewrite <- (string_of_list_ascii_of_string binary) at 1. apply H.
Qed.

Lemma padding_cases (l : list ascii) :
  padding l = [] \/ padding l = ["="%char] \/ padding l = ["="%char; "="%char].
Proof.
  induction l as [|a|a b|a b c rest IH] using list_ind3; cbn [padding]; auto.
Qed.

Lemma encoded_length (l : list ascii) :
  (Z.of_nat (length (sextets l) + length (padding l))) mod 4 = 0.
Proof.
  induction l as [|a|a b|a b c rest IH] using list_ind3;
    cbn [sextets padding length]; try reflexivity.
  replace (Z.of_nat (S (S (S (S (length (sextets rest))))) + length (padding rest)))
    with (Z.of_nat (length (sextets rest) + length (padding rest)) + 1 * 4) by lia.
  rewrite Z.mod_add by lia. exact IH.
Qed.

Lemma sextets_length (l : list ascii) :
  Z.of_nat (length (sextets l)) mod 4 <> 1.
Proof.
  induction l as [|a|a b|a b c rest IH] using list_ind3;
    cbn [sextets length]; try (vm_compute; discriminate).
  replace (Z.of_nat (S (S (S (S (length (sextets rest))))))) 
    with (Z.of_nat (length (sextets rest)) + 1 * 4) by lia.
  rewrite Z.mod_add by lia. exact IH.
Qed.

Lemma decode_sextets_sextets (l : list ascii) : decode_sextets (sextets l) = l.
Proof.
  assert (E1 : forall a b, 0 <= a < 256 -> 0 <= b < 256 ->
                 a / 4 * 4 + (a mod 4 * 16 + b / 16) / 16 = a)
    by (intros; Z.div_mod_to_equations; lia).
  assert (E2 : forall a b c, 0 <= a < 256 -> 0 <= b < 256 -> 0 <= c < 256 ->
                 (a mod 4 * 16 + b / 16) mod 16 * 16 + (b mod 16 * 4 + c / 64) / 4 = b)
    by (intros; Z.div_mod_to_equations; lia).
  assert (E3 : forall b c, 0 <= b < 256 -> 0 <= c < 256 ->
                 (b mod 16 * 4 + c / 64) mod 4 * 64 + c mod 64 = c)
    by (intros; Z.div_mod_to_equations; lia).
  induction l as [|a|a b|a b c rest IH] using list_ind3;
    cbn [sextets decode_sextets].
  - reflexivity.
  - pose proof (charCode_range a) as Ha.
    specialize (E1 _ 0 Ha ltac:(lia)).
    replace (charCode a mod 4 * 16 + 0 / 16) with (charCode a mod 4 * 16) in E1
      by (Z.div_mod_to_equations; lia).
    rewrite E1, chr_charCode. reflexivity.
  - pose proof (charCode_range a) as Ha. pose proof (charCode_range b) as Hb.
    rewrite (E1 _ _ Ha Hb).
    specialize (E2 _ _ 0 Ha Hb ltac:(lia)).
    replace (charCode b mod 16 * 4 + 0 / 64) with (charCode b mod 16 * 4) in E2
      by (Z.div_mod_to_equations; lia).
    rewrite E2, !chr_charCode. reflexivity.
  - pose proof (charCode_range a) as Ha. pose proof (charCode_range b) as Hb.
    pose proof (charCode_range c) as Hc.
    destruct (sextets rest) as [|? ?] eqn:Er;
      rewrite (E1 _ _ Ha Hb), (E2 _ _ _ Ha Hb Hc), (E3 _ _ Hb Hc), !chr_charCode;
      rewrite IH; reflexivity.
Qed.

Lemma filter_all {A : Type} (f : A -> bool) (l : list A) :
  Forall (fun x => f x = true) l -> List.filter f l = l.
Proof.
  induction 1 as [|x l Hx _ IH]; cbn [List.filter]; [reflexivity|].
  rewrite Hx, IH. reflexivity.
Qed.

Lemma ends_with_pad_snoc (l : list ascii) (c : ascii) :
  ends_with_pad (l ++ [c]) = Ascii.eqb c "=".
Proof.
  unfold ends_with_pad. rewrite rev_app_distr. reflexivity.
Qed.

Lemma ends_with_pad_chars (ns : list Z) :
  Forall (fun n => 0 <= n < 64) ns -> ends_with_pad (map b64_char ns) = false.
Proof.
  intros H. destruct ns as [|n ns] using rev_ind; [reflexivity|].
  rewrite map_app. cbn [map]. rewrite ends_with_pad_snoc.
  apply b64_char_not_pad.
  apply Forall_app in H as [_ H]. inversion H; assumption.
Qed.

Lemma strip_padding_encoded (l : list ascii) :
  strip_padding (map b64_char (sextets l) ++ padding l) =
  map b64_char (sextets l).
Proof.
  pose proof (ends_with_pad_chars _ (sextets_range l)) as Hc.
  unfold strip_padding.
  destruct (padding_cases l) as [-> | [-> | ->]].
  - rewrite app_nil_r, Hc. reflexivity.
  - rewrite ends_with_pad_snoc. cbn [Ascii.eqb Bool.eqb].
    rewrite removelast_last, Hc. reflexivity.
  - change ["="%char; "="%char] with (["="%char] ++ ["="%char]).
    rewrite app_assoc, ends_with_pad_snoc. cbn [Ascii.eqb Bool.eqb].
    rewrite removelast_last, ends_with_pad_snoc. cbn [Ascii.eqb Bool.eqb].
    rewrite removelast_last. reflexivity.
Qed.

Lemma b64_indices_chars (ns : list Z) :
  Forall (fun n => 0 <= n < 64) ns -> b64_indices (map b64_char ns) = Some ns.
Proof.
  induction 1 as [|n ns Hn _ IH]; cbn [map b64_indices]; [reflexivity|].
  rewrite (b64_index_char n Hn), IH. reflexivity.
Qed.

(** Decoding the base64 text of a binary string gives the string back. *)
Lemma atob_btoa (binary : string) : atob (btoa binary) = Ok binary.
Proof.
  unfold atob. rewrite btoa_chars.
  set (l := list_ascii_of_string binary).
  rewrite filter_all.
  2:{ apply Forall_app. split.
      - apply Forall_map. eapply Forall_impl; [apply sextets_range|].
        intros n Hn. cbn beta. rewrite (b64_char_not_space n Hn). reflexivity.
      - destruct (padding_cases l) as [-> | [-> | ->]];
          repeat constructor. }
  rewrite length_app, length_map, encoded_length.
  cbn [Z.eqb]. rewrite strip_padding_encoded, length_map.
  destruct (Z.eqb_spec (Z.of_nat (length (sextets l)) mod 4) 1) as [E|_].
  - destruct (sextets_length l E).
  - rewrite (b64_indices_chars _ (sextets_range l)), decode_sextets_sextets.
    unfold l. rewrite string_of_list_ascii_of_string. reflexivity.
Qed.

End Base64.

(* ===================================================================== *)
(** * 16-bit samples and their bytes *)
(* ===================================================================== *)

Section Int16.

Lemma wrap16_range (z : Z) : int16_range (wrap16 z).
Proof.
  unfold wrap16, int16_range.
  pose proof (Z.mod_pos_bound z 65536 ltac:(lia)).
  destruct (Z.leb_spec 32768 (z mod 65536)); lia.
Qed.

Lemma wrap16_id (v : Z) : int16_range v -> wrap16 v = v.
Proof.
  unfold wrap16, int16_range. intros H.
  destruct (Z.leb_spec 32768 (v mod 65536)); Z.div_mod_to_equations; lia.
Qed.

Lemma int16_of_bytes_range (lo hi : byte) : int16_range (int16_of_bytes lo hi).
Proof. apply wrap16_range. Qed.

Lemma int16_of_int16_bytes (v : Z) :
  int16_range v -> int16_of_bytes (byte_of_Z v) (byte_of_Z (v / 256)) = v.
Proof.
  unfold int16_of_bytes, int16_range, wrap16. intros H.
  rewrite !byte_val_of_Z.
  destruct (Z.leb_spec 32768 ((v mod 256 + 256 * (v / 256 mod 256)) mod 65536));
    Z.div_mod_to_equations; lia.
Qed.

Lemma Int16Array_of_Uint8Array (a : list Z) :
  Forall int16_range a ->
  Int16Array_of_bytes (Uint8Array_of_Int16Array a) = Ok a.
Proof.
  induction 1 as [|v a Hv _ IH]; [reflexivity|].
  unfold Uint8Array_of_Int16Array in *.
  cbn [flat_map int16_bytes app Int16Array_of_bytes].
  rewrite IH. cbn [bind]. rewrite (int16_of_int16_bytes v Hv). reflexivity.
Qed.

(** Induction two bytes at a time, as the 16-bit view reads them. *)
Lemma list_pair_ind {A : Type} (P : list A -> Prop) :
  P [] -> (forall a, P [a]) ->
  (forall a b rest, P rest -> P (a :: b :: rest)) ->
  forall l, P l.
Proof.
  intros H0 H1 H2. fix IH 1.
  intros [|a [|b rest]]; [exact H0 | apply H1 | apply H2; apply IH].
Qed.

Lemma Int16Array_of_bytes_odd (data : list byte) :
  Nat.Odd (length data) -> Int16Array_of_bytes data = Throw RangeError.
Proof.
  induction data as [|a|a b rest IH] using list_pair_ind; intros Hodd.
  - destruct Hodd as [k Hk]. cbn in Hk. lia.
  - reflexivity.
  - cbn [Int16Array_of_bytes]. rewrite IH; [reflexivity|].
    destruct Hodd as [k Hk]. cbn [length] in Hk. exists (k - 1)%nat. lia.
Qed.

Lemma Int16Array_of_bytes_even (data : list byte) :
  Nat.Even (length data) ->
  exists d, Int16Array_of_bytes data = Ok d
            /\ length data = (2 * length d)%nat
            /\ Forall int16_range d
            /\ forall k lo hi, data !! (2 * k)%nat = Some lo ->
                  data !! (2 * k + 1)%nat = Some hi ->
                  d !! k = Some (int16_of_bytes lo hi).
Proof.
  induction data as [|a|a b rest IH] using list_pair_ind; intros Heven.
  - exists []. repeat split; [constructor|]. intros k lo hi H. destruct k; discriminate.
  - destruct Heven as [k Hk]. cbn in Hk. lia.
  - destruct IH as (d & Hd & Hlen & Hr & Hk).
    { destruct Heven as [k Hk]. cbn [length] in Hk. exists (k - 1)%nat. lia. }
    exists (int16_of_bytes a b :: d). cbn [Int16Array_of_bytes].
    rewrite Hd. cbn [bind length]. repeat split.
    + lia.
    + constructor; [apply int16_of_bytes_range | exact Hr].
    + intros [|k] lo hi H1 H2.
      * cbn in H1, H2. injection H1 as <-. injection H2 as <-. reflexivity.
      * replace (2 * S k)%nat with (S (S (2 * k))) in H1 by lia.
        replace (2 * S k + 1)%nat with (S (S (2 * k + 1))) in H2 by lia.
        cbn in H1, H2 |- *. apply (Hk k lo hi H1 H2).
Qed.

End Int16.

(* ===================================================================== *)
(** * The loops of [decodeAudioData] *)
(* ===================================================================== *)

Section Decode.

Lemma store_loop_length {A : Type} (f : nat -> A) (js : list nat) (l : list A) :
  length (fold_left (fun cd j => <[j := f j]> cd) js l) = length l.
Proof.
  revert l. induction js as [|j js IH]; intros l; [reflexivity|].
  cbn [fold_left]. rewrite IH, length_insert. reflexivity.
Qed.

(** Stores at the indices below [m], in order, into an array. *)
Lemma store_loop_lookup {A : Type} (f : nat -> A) (m : nat) (l : list A) (i : nat) :
  fold_left (fun cd j => <[j := f j]> cd) (seq 0 m) l !! i =
  if decide (i < m /\ i < length l)%nat then Some (f i) else l !! i.
Proof.
  revert i. induction m as [|m IH]; intros i.
  - cbn [seq fold_left]. case_decide; [lia | reflexivity].
  - rewrite seq_S, fold_left_app. cbn [fold_left Nat.add].
    pose proof (store_loop_length f (seq 0 m) l) as Hlen.
    destruct (decide (i = m)) as [->|Hne].
    + destruct (decide (m < length l)%nat) as [Hlt|Hge].
      * rewrite list_lookup_insert_eq by lia.
        case_decide; [reflexivity | lia].
      * rewrite list_insert_ge by lia. rewrite IH.
        repeat case_decide; try lia; reflexivity.
    + rewrite list_lookup_insert_ne by congruence. rewrite IH.
      repeat case_decide; try lia; reflexivity.
Qed.

(** A loop that runs at least to the end of a zeroed array fills it. *)
Lemma store_loop_fills {A : Type} (f : nat -> A) (m len : nat) (z : A) :
  (len <= m)%nat ->
  fold_left (fun cd j => <[j := f j]> cd) (seq 0 m) (replicate len z)
  = map f (seq 0 len).
Proof.
  intros Hm. apply list_eq. intros i.
  rewrite store_loop_lookup, length_replicate.
  change (map f (seq 0 len)) with (f <$> seq 0 len).
  rewrite list_lookup_fmap.
  case_decide as Hi.
  - rewrite lookup_seq_lt by lia. reflexivity.
  - rewrite !lookup_ge_None_2; [reflexivity | | ].
    + rewrite length_seq. lia.
    + rewrite length_replicate. lia.
Qed.

(** The loop over the channels, on the list of channel arrays. *)
Lemma channel_loop_lookup {A : Type} (g : nat -> A -> A) (m : nat)
    (l : list A) (i : nat) :
  fold_left (fun cs ch => match cs !! ch with
                          | Some cd => <[ch := g ch cd]> cs
                          | None => cs
                          end) (seq 0 m) l !! i =
  if decide (i < m)%nat then g i <$> l !! i else l !! i.
Proof.
  revert i. induction m as [|m IH]; intros i.
  - cbn [seq fold_left]. case_decide; [lia | reflexivity].
  - rewrite seq_S, fold_left_app. cbn [fold_left Nat.add].
    set (cs := fold_left _ (seq 0 m) l) in *.
    assert (Hm : cs !! m = l !! m).
    { rewrite IH. case_decide; [lia | reflexivity]. }
    rewrite Hm. destruct (l !! m) as [cd|] eqn:Hl.
    + destruct (decide (i = m)) as [->|Hne].
      * rewrite list_lookup_insert_eq by (apply lookup_lt_Some in Hm; lia).
        rewrite Hl. case_decide; [reflexivity | lia].
      * rewrite list_lookup_insert_ne by congruence. rewrite IH.
        repeat case_decide; try lia; reflexivity.
    + rewrite IH. destruct (decide (i = m)) as [->|Hne].
      * rewrite Hl. repeat case_decide; reflexivity.
      * repeat case_decide; try lia; reflexivity.
Qed.

(** The loop over the channels changes the channel arrays only. *)
Lemma channel_loop_buffer (g : nat -> list number -> list number)
    (chs : list nat) (b : AudioBuffer) :
  fold_left (fun (buffer : AudioBuffer) (channel : nat) =>
               match channelData buffer !! channel with
               | None => buffer
               | Some cd => set_channelData buffer channel (g channel cd)
               end) chs b
  = mkAudioBuffer (numberOfChannels b) (frames b) (sampleRate b)
      (fold_left (fun cs ch => match cs !! ch with
                               | Some cd => <[ch := g ch cd]> cs
                               | None => cs
                               end) chs (channelData b)).
Proof.
  revert b. induction chs as [|ch chs IH]; intros b.
  - destruct b; reflexivity.
  - cbn [fold_left]. rewrite IH.
    destruct (channelData b !! ch) as [cd|]; reflexivity.
Qed.

(** The number of frames and the bound of the inner loop. *)
Lemma frame_count (n nc : nat) :
  (0 < nc)%nat ->
  exists q, js_div_nat n nc = Fin q
            /\ ToUint32 (Fin q) = (n / nc)%nat
            /\ exists m, loop_indices (Fin q) = seq 0 m /\ (n / nc <= m)%nat.
Proof.
  intros Hnc. destruct nc as [|nc]; [lia|].
  assert (Hq : forall z : Z,
             (inject_Z z / inject_Z (Z.of_nat (S nc)))%Q
             = (z * 1 # 1 * Pos.of_succ_nat nc)%Q) by reflexivity.
  eexists. split; [reflexivity|]. split.
  - cbn [ToUint32]. rewrite Hq. unfold Qtrunc. cbn [Qnum Qden].
    rewrite Z.mul_1_r, Pos.mul_1_l.
    rewrite Z.quot_div_nonneg by lia.
    change (Z.pos (Pos.of_succ_nat nc)) with (Z.of_nat (S nc)).
    rewrite <- Nat2Z.inj_div, Nat2Z.id. reflexivity.
  - eexists. split; [reflexivity|].
    set (q := (inject_Z (Z.of_nat n) / inject_Z (Z.of_nat (S nc)))%Q).
    assert (Hfloor : Qfloor q = Z.of_nat (n / S nc)).
    { unfold q. rewrite Hq. unfold Qfloor.
      rewrite Z.mul_1_r, Pos.mul_1_l.
      change (Z.pos (Pos.of_succ_nat nc)) with (Z.of_nat (S nc)).
      rewrite <- Nat2Z.inj_div. reflexivity. }
    pose proof (Qle_floor_ceiling q) as H. rewrite <- Zle_Qle in H. lia.
Qed.

(** The element that the inner loop stores at frame [i] of a channel. *)
Lemma stored_sample (d : list Z) (k : nat) :
  (k < length d)%nat ->
  js_div_const (Fin <$> (inject_Z <$> d !! k)) 32768 = normalized (nth k d 0).
Proof.
  intros Hk. destruct (lookup_lt_is_Some_2 d k Hk) as [v Hv].
  rewrite (nth_lookup_Some _ _ _ _ Hv), Hv. reflexivity.
Qed.

(** On an even number of bytes holding at least one frame, the decoder
    returns the de-interleaved, normalized samples of the full frames. *)
Lemma decodeAudioData_frames (data : list byte) (d : list Z)
    (rate : Z) (numChannels : nat) :
  Int16Array_of_bytes data = Ok d ->
  (1 <= numChannels <= 32)%nat -> (numChannels <= length d)%nat ->
  0 < rate ->
  decodeAudioData data rate numChannels =
  Ok (mkAudioBuffer numChannels (length d / numChannels) rate
        (map (deinterleaved d numChannels (length d / numChannels))
             (seq 0 numChannels))).
Proof.
  intros Hd Hnc Hlen Hsr. unfold decodeAudioData. rewrite Hd. cbn [bind].
  destruct (frame_count (length d) numChannels ltac:(lia))
    as (q & Hq & Hu & m & Hm & Hle).
  rewrite Hq. unfold createBuffer. rewrite Hu.
  assert (Hpos : (0 < length d / numChannels)%nat)
    by (apply Nat.div_str_pos; lia).
  replace ((numChannels =? 0)%nat) with false by (symmetry; apply Nat.eqb_neq; lia).
  replace ((32 <? numChannels)%nat) with false by (symmetry; apply Nat.ltb_ge; lia).
  replace ((length d / numChannels =? 0)%nat) with false
    by (symmetry; apply Nat.eqb_neq; lia).
  replace (rate <=? 0) with false by (symmetry; apply Z.leb_gt; lia).
  cbn [orb bind].
  rewrite (channel_loop_buffer
             (fun channel cd =>
                fold_left
                  (fun (cd : list number) (i : nat) =>
                     <[i := js_div_const
                              (Fin <$> (inject_Z <$>
                                 d !! (i * numChannels + channel)%nat))
                              32768]> cd)
                  (loop_indices (Fin q)) cd)).
  cbn [numberOfChannels frames sampleRate channelData]. f_equal. f_equal.
  apply list_eq. intros ch. rewrite channel_loop_lookup.
  change (map ?f ?l) with (f <$> l). rewrite list_lookup_fmap.
  case_decide as Hch.
  - rewrite lookup_replicate_2, lookup_seq_lt by lia. cbn [fmap option_fmap option_map Nat.add].
    f_equal. rewrite Hm, store_loop_fills by exact Hle.
    unfold deinterleaved. apply map_ext_in. intros i Hi%in_seq.
    apply stored_sample.
    pose proof (Nat.Div0.mul_div_le (length d) numChannels). nia.
  - rewrite !lookup_ge_None_2; [reflexivity | | ].
    + rewrite length_seq. lia.
    + rewrite length_replicate. lia.
Qed.

(** The 16-bit view is rejected on an odd number of bytes, and the buffer
    on less than one frame. *)
Lemma decodeAudioData_odd (data : list byte) (rate : Z) (numChannels : nat) :
  Nat.Odd (length data) ->
  decodeAudioData data rate numChannels = Throw RangeError.
Proof.
  intros H. unfold decodeAudioData.
  rewrite (Int16Array_of_bytes_odd data H). reflexivity.
Qed.

Lemma decodeAudioData_short (data : list byte) (d : list Z)
    (rate : Z) (numChannels : nat) :
  Int16Array_of_bytes data = Ok d -> (length d < numChannels)%nat ->
  decodeAudioData data rate numChannels = Throw NotSupportedError.
Proof.
  intros Hd Hlt. unfold decodeAudioData. rewrite Hd. cbn [bind].
  destruct (frame_count (length d) numChannels ltac:(lia))
    as (q & Hq & Hu & _).
  rewrite Hq. unfold createBuffer. rewrite Hu.
  rewrite (Nat.div_small _ _ Hlt). cbn [Nat.eqb].
  rewrite !orb_true_r. reflexivity.
Qed.

(** The mono case, which is the one the hook uses. *)
Lemma deinterleaved_mono (d : list Z) :
  deinterleaved d 1 (length d) 0 = map normalized d.
Proof.
  unfold deinterleaved. apply list_eq. intros i.
  change (map ?f ?l) with (f <$> l). rewrite !list_lookup_fmap.
  destruct (decide (i < length d)%nat) as [Hi|Hi].
  - rewrite lookup_seq_lt by lia. cbn [fmap option_fmap option_map Nat.add].
    destruct (lookup_lt_is_Some_2 d i Hi) as [v Hv]. rewrite Hv.
    replace (i * 1 + 0)%nat with i by lia.
    rewrite (nth_lookup_Some _ _ _ _ Hv). reflexivity.
  - rewrite !lookup_ge_None_2; [reflexivity | lia | rewrite length_seq; lia].
Qed.

Lemma decodeAudioData_mono (data : list byte) (d : list Z) :
  Int16Array_of_bytes data = Ok d -> d <> [] ->
  decodeAudioData data 24000 1 =
  Ok (mkAudioBuffer 1 (length d) 24000 [map normalized d]).
Proof.
  intros Hd Hne.
  assert (Hlen : (1 <= length d)%nat) by (destruct d; [congruence | cbn; lia]).
  rewrite (decodeAudioData_frames data d 24000 1 Hd); [|lia|lia|lia].
  rewrite Nat.div_1_r. cbn [seq map]. rewrite deinterleaved_mono. reflexivity.
Qed.

End Decode.

(* ===================================================================== *)
(** * Quantization of a sample *)
(* ===================================================================== *)

Section Quantization.

Local Open Scope Q_scope.

Lemma Qtrunc_nonneg (q : Q) : 0 <= q -> Qtrunc q = Qfloor q.
Proof.
  destruct q as [n d]. unfold Qle, Qtrunc, Qfloor. cbn [Qnum Qden].
  intros H. apply Z.quot_div_nonneg; lia.
Qed.

Lemma Qtrunc_nonpos (q : Q) : q <= 0 -> Qtrunc q = Qceiling q.
Proof.
  destruct q as [n d]. unfold Qle, Qtrunc, Qceiling, Qfloor, Qopp.
  cbn [Qnum Qden]. intros H.
  rewrite <- (Z.opp_involutive n) at 1.
  rewrite Z.quot_opp_l by lia.
  rewrite Z.quot_div_nonneg by lia. reflexivity.
Qed.

(** Truncation moves a value toward zero by less than one. *)
Lemma Qtrunc_nonneg_bounds (q : Q) :
  0 <= q -> inject_Z (Qtrunc q) <= q /\ q < inject_Z (Qtrunc q) + 1.
Proof.
  intros H. rewrite (Qtrunc_nonneg q H). split.
  - apply Qfloor_le.
  - pose proof (Qlt_floor q) as Hlt. rewrite inject_Z_plus in Hlt. exact Hlt.
Qed.

Lemma Qtrunc_nonpos_bounds (q : Q) :
  q <= 0 -> q <= inject_Z (Qtrunc q) /\ inject_Z (Qtrunc q) - 1 < q.
Proof.
  intros H. rewrite (Qtrunc_nonpos q H). split.
  - apply Qle_ceiling.
  - pose proof (Qceiling_lt q) as Hlt.
    unfold Z.sub in Hlt. rewrite inject_Z_plus in Hlt. exact Hlt.
Qed.

Lemma Qltb_lt (x y : Q) : Qltb x y = true <-> x < y.
Proof.
  unfold Qltb. rewrite negb_true_iff, <- not_true_iff_false, Qle_bool_iff.
  split; [apply Qnot_le_lt | apply Qlt_not_le].
Qed.

Lemma Qltb_ge (x y : Q) : Qltb x y = false <-> y <= x.
Proof.
  unfold Qltb. rewrite negb_false_iff, Qle_bool_iff. reflexivity.
Qed.

(** The clamp of a sample that is a number lies in [-1, 1]. *)
Lemma clamp_number (x : number) :
  x <> NaN -> exists s, clamp x = Fin s /\ clamped x s /\ -1 <= s <= 1.
Proof.
  intros Hx. destruct x as [q| | |]; [| | |congruence].
  - exists (Qmax (-1) (Qmin 1 q)). split; [reflexivity|].
    cbn [clamped].
    set (lo := Qmin 1 q). set (s := Qmax (-1) lo).
    pose proof (Q.min_spec 1 q) as Hmin.
    pose proof (Q.max_spec (-1) lo) as Hmax.
    fold lo in Hmin. fold s in Hmax.
    destruct (Qlt_le_dec q (-1)) as [Hq|Hq];
      [|destruct (Qlt_le_dec 1 q) as [Hq'|Hq']].
    + split; [left|]; lra.
    + split; [right; right|]; lra.
    + split; [right; left|]; lra.
  - exists 1. split; [reflexivity|]. cbn [clamped]. split; [reflexivity | lra].
  - exists (-1). split; [reflexivity|]. cbn [clamped]. split; [reflexivity | lra].
Qed.

(** The 16-bit value of a clamped sample: the product with 32768 for a
    negative one and with 32767 otherwise, truncated toward zero; it fits in
    16 bits without any reduction. *)
Lemma pcm16_clamped (x : number) (s : Q) :
  clamp x = Fin s -> -1 <= s <= 1 ->
  (s < 0 -> pcm16 x = Qtrunc (s * 32768))
  /\ (0 <= s -> pcm16 x = Qtrunc (s * 32767))
  /\ int16_range (pcm16 x).
Proof.
  intros Hc Hs. unfold pcm16. rewrite Hc. unfold scale. cbn [js_lt].
  split; [|split].
  - intros Hneg. rewrite (proj2 (Qltb_lt s 0) Hneg). cbn [js_mul ToInt16].
    apply wrap16_id.
    destruct (Qtrunc_nonpos_bounds (s * 32768)) as [Hlo Hhi]; [lra|].
    unfold int16_range. split.
    + rewrite Zle_Qle. change (inject_Z (-32768)) with (-32768). lra.
    + cut (Qtrunc (s * 32768) < 1)%Z; [lia|].
      rewrite Zlt_Qlt. change (inject_Z 1) with 1. lra.
  - intros Hpos. rewrite (proj2 (Qltb_ge s 0) Hpos). cbn [js_mul ToInt16].
    apply wrap16_id.
    destruct (Qtrunc_nonneg_bounds (s * 32767)) as [Hlo Hhi]; [lra|].
    unfold int16_range. split.
    + cut (-1 < Qtrunc (s * 32767))%Z; [lia|].
      rewrite Zlt_Qlt. change (inject_Z (-1)) with (-1). lra.
    + rewrite Zle_Qle. change (inject_Z 32767) with 32767. lra.
  - destruct (Qltb s 0); cbn [js_mul ToInt16]; apply wrap16_range.
Qed.

Lemma pcm16_range (x : number) : int16_range (pcm16 x).
Proof.
  unfold pcm16. destruct (scale (clamp x)); cbn [ToInt16];
    [apply wrap16_range | | | ]; unfold int16_range; lia.
Qed.

End Quantization.

(* ===================================================================== *)
(** * The transport encoding and its decoding *)
(* ===================================================================== *)

Section Codec.

Lemma int16_bytes_little_endian (v : Z) :
  little_endian v (byte_of_Z v) (byte_of_Z (v / 256)).
Proof.
  unfold little_endian. rewrite !byte_val_of_Z.
  Z.div_mod_to_equations; lia.
Qed.

Lemma Uint8Array_lookup (a : list Z) (i : nat) (v : Z) :
  a !! i = Some v ->
  Uint8Array_of_Int16Array a !! (2 * i)%nat = Some (byte_of_Z v)
  /\ Uint8Array_of_Int16Array a !! (2 * i + 1)%nat = Some (byte_of_Z (v / 256)).
Proof.
  revert i. induction a as [|w a IH]; intros i Hi; [discriminate|].
  destruct i as [|i].
  - injection Hi as ->. split; reflexivity.
  - cbn in Hi. destruct (IH i Hi) as [H1 H2].
    replace (2 * S i)%nat with (S (S (2 * i))) by lia.
    replace (S (S (2 * i)) + 1)%nat with (S (S (2 * i + 1))) by lia.
    split; assumption.
Qed.

Lemma Uint8Array_length (a : list Z) :
  length (Uint8Array_of_Int16Array a) = (2 * length a)%nat.
Proof.
  induction a as [|w a IH]; [reflexivity|].
  unfold Uint8Array_of_Int16Array in *. cbn [flat_map int16_bytes app length].
  rewrite IH. lia.
Qed.

(** The text that the encoder returns decodes to the bytes of its 16-bit
    samples. *)
Lemma decodeBase64_float32ToBase64 (data : list number) :
  decodeBase64 (float32ToBase64 data) =
  Ok (Uint8Array_of_Int16Array (map pcm16 data)).
Proof.
  unfold decodeBase64, float32ToBase64. rewrite atob_btoa. cbn [bind].
  rewrite list_ascii_of_string_of_list_ascii, map_map.
  f_equal. rewrite <- (map_id (Uint8Array_of_Int16Array _)) at 2.
  apply map_ext. intros b. apply byte_of_charCode.
Qed.

End Codec.

Section CodecClaims.

Local Open Scope Q_scope.

(** C3, as amended.  For every array of samples the text returned by
    [float32ToBase64] is the base64 encoding of two bytes per sample, in
    order, holding the sample's 16-bit value low byte first; for a sample
    other than NaN that value is the clamp of the sample to [-1, 1] times
    32768 when the clamp is negative and times 32767 otherwise, truncated
    toward zero, and a NaN sample gives 0.  The encoder is a function of
    its argument alone. *)
Theorem float32ToBase64_encoding (data : list number) :
  exists bytes : list byte,
    float32ToBase64 data = btoa (string_of_list_ascii (map fromCharCode bytes))
    /\ decodeBase64 (float32ToBase64 data) = Ok bytes
    /\ length bytes = (2 * length data)%nat
    /\ forall (i : nat) (x : number), data !! i = Some x ->
         exists lo hi : byte,
           bytes !! (2 * i)%nat = Some lo
           /\ bytes !! (2 * i + 1)%nat = Some hi
           /\ little_endian (pcm16 x) lo hi
           /\ int16_range (pcm16 x)
           /\ (x <> NaN -> transport_sample x (pcm16 x))
           /\ (x = NaN -> pcm16 x = 0%Z).
Proof.
  exists (Uint8Array_of_Int16Array (map pcm16 data)).
  split; [reflexivity|]. split; [apply decodeBase64_float32ToBase64|].
  split; [rewrite Uint8Array_length, length_map; reflexivity|].
  intros i x Hx.
  assert (Hv : map pcm16 data !! i = Some (pcm16 x)).
  { change (map pcm16 data) with (pcm16 <$> data).
    rewrite list_lookup_fmap, Hx. reflexivity. }
  destruct (Uint8Array_lookup _ _ _ Hv) as [Hlo Hhi].
  exists (byte_of_Z (pcm16 x)), (byte_of_Z (pcm16 x / 256)).
  split; [exact Hlo|]. split; [exact Hhi|].
  split; [apply int16_bytes_little_endian|].
  split; [apply pcm16_range|]. split.
  - intros Hnan. destruct (clamp_number x Hnan) as (s & Hc & Hcl & Hs).
    destruct (pcm16_clamped x s Hc Hs) as (Hneg & Hpos & _).
    exists s. split; [exact Hcl|].
    destruct (Qlt_le_dec s 0) as [H|H]; [left | right]; auto.
  - intros ->. reflexivity.
Qed.

(** C3, the counterexample: a NaN sample is not clamped into [-1, 1]; the
    clamp leaves it NaN, and 0 is what the encoder stores for it. *)
Lemma float32ToBase64_nan :
  clamp NaN = NaN
  /\ (forall s : Q, clamp NaN = Fin s -> False)
  /\ pcm16 NaN = 0%Z
  /\ float32ToBase64 [NaN] = "AAA="%string
  /\ float32ToBase64 [NaN] = float32ToBase64 [Fin 0].
Proof.
  split; [reflexivity|]. split; [intros s H; discriminate H|].
  split; [reflexivity|]. split; vm_compute; reflexivity.
Qed.

(** The value recovered for a sample of [-1, 1]: a negative sample comes
    back within one quantization step, toward zero; a non-negative one
    comes back lower by less than two steps. *)
Lemma recovered_bounds (q : Q) :
  -1 <= q <= 1 ->
  (q < 0 -> q <= recovered (Fin q) /\ recovered (Fin q) < q + quantum)
  /\ (0 <= q -> q - 2 * quantum < recovered (Fin q) /\ recovered (Fin q) <= q).
Proof.
  intros Hq.
  destruct (clamp_number (Fin q)) as (s & Hc & Hcl & Hs); [discriminate|].
  cbn [clamped] in Hcl.
  assert (Hsq : s == q) by (destruct Hcl as [[? ?]|[[? ?]|[? ?]]]; lra).
  destruct (pcm16_clamped (Fin q) s Hc Hs) as (Hneg & Hpos & _).
  unfold recovered, quantum. split.
  - intros Hlt. rewrite Hneg by lra.
    destruct (Qtrunc_nonpos_bounds (s * 32768)) as [Hlo Hhi]; [lra|].
    set (v := inject_Z (Qtrunc (s * 32768))) in *.
    split; [apply Qle_shift_div_l | apply Qlt_shift_div_r]; lra.
  - intros Hge. rewrite Hpos by lra.
    destruct (Qtrunc_nonneg_bounds (s * 32767)) as [Hlo Hhi]; [lra|].
    set (v := inject_Z (Qtrunc (s * 32767))) in *.
    split; [apply Qlt_shift_div_l | apply Qle_shift_div_r]; lra.
Qed.

(** C4, as amended.  For every non-empty array of samples, decoding the
    transport encoding of the array gives a mono buffer with as many frames
    as the array has samples, frame [i] holding the 16-bit value of sample
    [i] divided by 32768; and a sample of [-1, 1] is recovered within less
    than two quantization steps of 1/32768 (within less than one step when
    it is negative), never further from zero than it was. *)
Theorem roundtrip_preserves (data : list number) :
  data <> [] ->
  (exists buffer samples,
     roundtrip data = Ok buffer
     /\ numberOfChannels buffer = 1%nat
     /\ frames buffer = length data
     /\ channelData buffer = [samples]
     /\ length samples = length data
     /\ forall (i : nat) (x : number), data !! i = Some x ->
          samples !! i = Some (Fin (recovered x)))
  /\ forall q : Q, -1 <= q <= 1 ->
       q - 2 * quantum < recovered (Fin q) < q + quantum
       /\ (q < 0 -> q <= recovered (Fin q))
       /\ (0 <= q -> recovered (Fin q) <= q).
Proof.
  intros Hne. split.
  - exists (mkAudioBuffer 1 (length data) 24000 [map normalized (map pcm16 data)]),
           (map normalized (map pcm16 data)).
    unfold roundtrip. rewrite decodeBase64_float32ToBase64. cbn [bind].
    rewrite (decodeAudioData_mono _ (map pcm16 data)).
    + rewrite !length_map. repeat split; try reflexivity.
      intros i x Hx. rewrite map_map.
      change (map ?f data) with (f <$> data).
      rewrite list_lookup_fmap, Hx. reflexivity.
    + apply Int16Array_of_Uint8Array. apply Forall_map.
      apply Forall_forall. intros x _. apply pcm16_range.
    + destruct data; [congruence | discriminate].
  - intros q Hq. destruct (recovered_bounds q Hq) as [Hneg Hpos].
    unfold quantum in *.
    destruct (Qlt_le_dec q 0) as [H|H].
    + destruct (Hneg H). repeat split; try lra.
    + destruct (Hpos H). repeat split; try lra.
Qed.

Lemma roundtrip_preserves_witness :
  [Fin (1 # 2); Fin (-1 # 2)] <> []
  /\ exists buffer, roundtrip [Fin (1 # 2); Fin (-1 # 2)] = Ok buffer
                    /\ frames buffer = 2%nat.
Proof.
  split; [discriminate|].
  destruct (roundtrip_preserves [Fin (1 # 2); Fin (-1 # 2)] ltac:(discriminate))
    as [(buffer & samples & Hr & _ & Hf & _) _].
  exists buffer. split; [exact Hr | exact Hf].
Defined.

(** C4, the counterexample: the sample 1 - 2^-17 is encoded as 32766 and
    comes back as 32766/32768, further than one quantization step from it;
    and the empty array is encoded as the empty text, whose decoding is
    refused for want of a frame. *)
Lemma roundtrip_exceeds_one_step :
  roundtrip [Fin (131071 # 131072)]
  = Ok (mkAudioBuffer 1 1 24000 [[Fin (inject_Z 32766 / 32768)]])
  /\ recovered (Fin (131071 # 131072)) == 32766 # 32768
  /\ quantum < (131071 # 131072) - recovered (Fin (131071 # 131072))
  /\ roundtrip [] = Throw NotSupportedError.
Proof.
  split; [vm_compute; reflexivity|]. split; [vm_compute; reflexivity|].
  split; vm_compute; reflexivity.
Qed.

(** C6, as amended.  For 1 to 32 channels and a sample rate that every
    platform supports, [decodeAudioData] fails when the number of bytes is
    odd (the 16-bit view is refused) or holds less than one frame of two
    bytes per channel (the buffer is refused); otherwise it returns a buffer
    of the whole frames the bytes hold, a trailing partial frame being
    dropped without error, in which frame [i] of channel [ch] is the signed
    16-bit value of bytes [2 (i n + ch)] and [2 (i n + ch) + 1], low byte
    first, divided by 32768 ([n] the number of channels). *)
Theorem decodeAudioData_frames_or_fails (data : list byte) (rate : Z)
    (numChannels : nat) :
  (1 <= numChannels <= 32)%nat -> (8000 <= rate <= 96000)%Z ->
  (Nat.Odd (length data) ->
     decodeAudioData data rate numChannels = Throw RangeError)
  /\ (Nat.Even (length data) -> (length data < 2 * numChannels)%nat ->
       decodeAudioData data rate numChannels = Throw NotSupportedError)
  /\ (Nat.Even (length data) -> (2 * numChannels <= length data)%nat ->
       exists buffer,
         decodeAudioData data rate numChannels = Ok buffer
         /\ numberOfChannels buffer = numChannels
         /\ frames buffer = (length data / (2 * numChannels))%nat
         /\ sampleRate buffer = rate
         /\ length (channelData buffer) = numChannels
         /\ forall ch cd, channelData buffer !! ch = Some cd ->
              length cd = frames buffer
              /\ forall i, (i < frames buffer)%nat ->
                   exists lo hi,
                     data !! (2 * (i * numChannels + ch))%nat = Some lo
                     /\ data !! (2 * (i * numChannels + ch) + 1)%nat = Some hi
                     /\ cd !! i
                        = Some (Fin (inject_Z (int16_of_bytes lo hi) / 32768))).
Proof.
  intros Hnc Hrate. split; [|split].
  - apply decodeAudioData_odd.
  - intros Heven Hshort.
    destruct (Int16Array_of_bytes_even data Heven) as (d & Hd & Hlen & _).
    apply (decodeAudioData_short data d); [exact Hd | lia].
  - intros Heven Hlong.
    destruct (Int16Array_of_bytes_even data Heven) as (d & Hd & Hlen & _ & Hk).
    assert (Hfr : (length data / (2 * numChannels) = length d / numChannels)%nat).
    { rewrite Hlen. rewrite Nat.Div0.div_mul_cancel_l by lia. reflexivity. }
    eexists. split.
    { apply (decodeAudioData_frames data d); [exact Hd | lia | lia | lia]. }
    cbn [numberOfChannels frames sampleRate channelData].
    split; [reflexivity|]. split; [symmetry; exact Hfr|].
    split; [reflexivity|].
    split; [rewrite length_map, length_seq; reflexivity|].
    intros ch cd Hcd.
    change (map ?f ?l) with (f <$> l) in Hcd.
    rewrite list_lookup_fmap in Hcd.
    destruct (seq 0 numChannels !! ch) as [ch'|] eqn:Hch; [|discriminate].
    apply lookup_seq in Hch as [-> Hlt]. cbn in Hcd. injection Hcd as <-.
    unfold deinterleaved. split; [rewrite length_map, length_seq; reflexivity|].
    intros i Hi.
    pose proof (Nat.Div0.mul_div_le (length d) numChannels) as Hle.
    assert (Hin : (i * numChannels + ch < length d)%nat) by nia.
    destruct (lookup_lt_is_Some_2 data (2 * (i * numChannels + ch))) as [lo Hlo];
      [lia|].
    destruct (lookup_lt_is_Some_2 data (2 * (i * numChannels + ch) + 1)) as [hi Hhi];
      [lia|].
    exists lo, hi. split; [exact Hlo|]. split; [exact Hhi|].
    change (map ?f ?l) with (f <$> l). rewrite list_lookup_fmap.
    rewrite lookup_seq_lt by exact Hi. cbn [fmap option_fmap option_map Nat.add].
    rewrite (nth_lookup_Some _ _ _ _ (Hk _ _ _ Hlo Hhi)). reflexivity.
Qed.

Lemma decodeAudioData_frames_or_fails_witness :
  (1 <= 1 <= 32)%nat /\ (8000 <= 24000 <= 96000)%Z
  /\ decodeAudioData [x01] 24000 1 = Throw RangeError.
Proof.
  split; [lia|]. split; [lia|].
  apply (decodeAudioData_frames_or_fails [x01] 24000 1); [lia | lia |].
  exists 0%nat. reflexivity.
Defined.

(** C6, the counterexample: six bytes are not a whole number of stereo
    frames of four bytes, and are decoded without error into one frame, the
    last two bytes being dropped; no bytes at all are a whole number of
    frames, and are refused. *)
Lemma decodeAudioData_partial_frame :
  (6 mod (2 * 2) <> 0)%nat
  /\ decodeAudioData [x01; x00; x02; x00; x03; x00] 24000 2
     = Ok (mkAudioBuffer 2 1 24000
             [[Fin (inject_Z 1 / 32768)]; [Fin (inject_Z 2 / 32768)]])
  /\ (0 mod (2 * 1) = 0)%nat
  /\ decodeAudioData [] 24000 1 = Throw NotSupportedError.
Proof.
  split; [discriminate|]. split; [vm_compute; reflexivity|].
  split; reflexivity.
Qed.

End CodecClaims.

(* ===================================================================== *)
(** * The session controller: connect and disconnect *)
(* ===================================================================== *)

Section Controller.

(** What [disconnect] leaves, whatever the state it is called in. *)
Lemma disconnect_state (s : state) :
  out_state (disconnect s)
  = mkState false (isError s) None None None 0%Q [] None (chatHistory s) (fresh s).
Proof.
  destruct s as [c e ctx inp proc next srcs sess chat fr].
  unfold disconnect. cbn.
  destruct sess, inp, proc, ctx; reflexivity.
Qed.

Lemma disconnect_completes (s : state) : out_completion (disconnect s) = Ok tt.
Proof.
  destruct s as [c e ctx inp proc next srcs sess chat fr].
  unfold disconnect. cbn.
  destruct sess, inp, proc, ctx; reflexivity.
Qed.

(** [disconnect] may be called in any state and returns normally, with
    the flag cleared and the refs emptied: not connected, no session, no
    input node, no scheduled source, the clock offset at 0 and no audio
    context.  A second call right after the first changes nothing, performs
    no effect on the platform and returns normally as well. *)
Lemma disconnect_idempotent (s : state) :
  let idle := out_state (disconnect s) in
  out_completion (disconnect s) = Ok tt
  /\ isConnected idle = false
  /\ sessionRef idle = None
  /\ inputSourceRef idle = None
  /\ processorRef idle = None
  /\ scheduledSourcesRef idle = []
  /\ nextStartTimeRef idle = 0%Q
  /\ audioContextRef idle = None
  /\ disconnect idle = (idle, [], Ok tt).
Proof.
  cbv zeta. split; [apply disconnect_completes|].
  rewrite disconnect_state. repeat split.
Qed.

(** No credential is configured when neither variable holds a non-empty
    string. *)
Lemma getApiKey_none (env : environment) :
  truthy (VITE_API_KEY env) = false -> truthy (API_KEY env) = false ->
  getApiKey env = None.
Proof.
  intros Hv Hp. unfold getApiKey. rewrite Hv, Hp. reflexivity.
Qed.

Lemma getApiKey_some (env : environment) (key : string) :
  getApiKey env = Some key ->
  key <> EmptyString
  /\ (VITE_API_KEY env = Some key
      \/ (truthy (VITE_API_KEY env) = false /\ API_KEY env = Some key)).
Proof.
  unfold getApiKey.
  destruct (VITE_API_KEY env) as [[|c v]|], (API_KEY env) as [[|c' p]|];
    cbn; intros [= <-]; split; try discriminate; auto.
Qed.

(** C5.  With no credential configured, [connect] raises the error of the
    missing API key inside its [try] block, before the microphone or the
    live service is asked for anything; the [catch] block logs it, sets the
    error flag and clears the connected flag; nothing is thrown to the
    caller, and no session is stored or requested, so the controller stays
    idle. *)
Theorem connect_without_credential (env : environment) (s : state) :
  truthy (VITE_API_KEY env) = false -> truthy (API_KEY env) = false ->
  let o := connect env s in
  out_completion (connect_try env s) = Throw (Error api_key_message)
  /\ out_completion o = Ok tt
  /\ isError (out_state o) = true
  /\ isConnected (out_state o) = false
  /\ sessionRef (out_state o) = sessionRef s
  /\ out_effects o
     = [ConsoleError "Connection failed" (Some (Error api_key_message))].
Proof.
  intros Hv Hp. cbv zeta. unfold connect, connect_try.
  rewrite (getApiKey_none env Hv Hp).
  destruct s as [c e ctx inp proc next srcs sess chat fr].
  repeat split.
Qed.

Lemma connect_without_credential_witness :
  truthy (VITE_API_KEY (mkEnvironment None (Some EmptyString))) = false
  /\ truthy (API_KEY (mkEnvironment None (Some EmptyString))) = false
  /\ isConnected (out_state (connect (mkEnvironment None (Some EmptyString))
                               initial)) = false.
Proof.
  split; [reflexivity|]. split; [reflexivity|].
  apply (connect_without_credential (mkEnvironment None (Some EmptyString))
           initial eq_refl eq_refl).
Defined.

End Controller.

(* ===================================================================== *)
(** * The transcript *)
(* ===================================================================== *)

Section Transcript.

(** A part of a handler that leaves a component of the state alone leaves
    it alone when sequenced after another part. *)
Lemma andThen_frame {A : Type} (f : state -> A) (o : outcome)
    (k : state -> outcome) :
  (forall s, f (out_state (k s)) = f s) ->
  f (out_state (andThen o k)) = f (out_state o).
Proof.
  intros Hk. unfold andThen.
  destruct (out_completion o); [apply Hk | reflexivity].
Qed.

Lemma onmessage_audio_chatHistory (message : LiveServerMessage) (now : Q)
    (s : state) :
  chatHistory (out_state (onmessage_audio message now s)) = chatHistory s.
Proof.
  unfold onmessage_audio.
  destruct (audioContextRef s); [|reflexivity].
  destruct (truthy (inlineData message)); [|reflexivity].
  destruct (bind _ _); reflexivity.
Qed.

Lemma onmessage_interruption_chatHistory (message : LiveServerMessage)
    (s : state) :
  chatHistory (out_state (onmessage_interruption message s)) = chatHistory s.
Proof.
  unfold onmessage_interruption. destruct (interrupted message); reflexivity.
Qed.

(** The entries that [onmessage] appends: those of the fragments of the
    message whose text is not empty. *)
Lemma onmessage_chatHistory (message : LiveServerMessage) (now : Q) (s : state) :
  chatHistory (out_state (onmessage message now s))
  = chatHistory s
    ++ map entry (List.filter (fun f => truthy (Some (snd f))) (fragments message)).
Proof.
  unfold onmessage.
  rewrite (andThen_frame chatHistory)
    by apply onmessage_interruption_chatHistory.
  rewrite (andThen_frame chatHistory)
    by (intros; apply onmessage_audio_chatHistory).
  unfold onmessage_transcriptions, fragments.
  destruct (inputTranscription message) as [[|c tu]|],
           (outputTranscription message) as [[|c' tm]|];
    cbn; rewrite <- ?app_assoc, ?app_nil_r; reflexivity.
Qed.

(** Only an inbound message changes the transcript. *)
Lemma handle_chatHistory (ev : event) (s : state) :
  chatHistory (out_state (handle ev s))
  = chatHistory s
    ++ match ev with
       | Message message _ =>
           map entry (List.filter (fun f => truthy (Some (snd f)))
                        (fragments message))
       | _ => []
       end.
Proof.
  destruct ev as [env|stream|session| | | |message now|id|session d|];
    cbn [handle]; try (rewrite app_nil_r).
  - unfold connect, connect_try, connect_catch.
    destruct (getApiKey env); reflexivity.
  - unfold connect_resume, connect_resume_try, connect_catch.
    destruct stream; reflexivity.
  - reflexivity.
  - reflexivity.
  - reflexivity.
  - reflexivity.
  - apply onmessage_chatHistory.
  - reflexivity.
  - reflexivity.
  - rewrite disconnect_state. reflexivity.
Qed.

Lemma run_cons (ev : event) (evs : list event) (s : state) :
  run (ev :: evs) s
  = (fst (run evs (out_state (handle ev s))),
     out_effects (handle ev s) ++ snd (run evs (out_state (handle ev s)))).
Proof.
  cbn [run]. destruct (run evs (out_state (handle ev s))). reflexivity.
Qed.

(** The events that deliver a list of messages, each with the reading of
    the output clock at its arrival. *)
Lemma run_messages_chatHistory (msgs : list (LiveServerMessage * Q)) (s : state) :
  chatHistory (fst (run (map (fun m => Message (fst m) (snd m)) msgs) s))
  = chatHistory s
    ++ map entry (List.filter (fun f => truthy (Some (snd f)))
                    (flat_map (fun m => fragments (fst m)) msgs)).
Proof.
  revert s. induction msgs as [|[message now] msgs IH]; intros s.
  - cbn. rewrite app_nil_r. reflexivity.
  - cbn [map fst snd flat_map]. rewrite run_cons. cbn [fst].
    rewrite IH. cbn [handle]. rewrite onmessage_chatHistory.
    rewrite List.filter_app, map_app, app_assoc. reflexivity.
Qed.

(** C9, as amended.  Whatever else the inbound messages carry, the
    transcript after them is the transcript before them followed by one
    entry per fragment whose text is not empty, in arrival order (within a
    message the user's fragment first), each with the role of its fragment
    and its text; a fragment whose text is empty gives no entry.  Equal
    fragments give separate entries: when no text is empty there is exactly
    one entry per fragment. *)
Theorem transcript_in_arrival_order (msgs : list (LiveServerMessage * Q))
    (s : state) :
  let s' := fst (run (map (fun m => Message (fst m) (snd m)) msgs) s) in
  let arrived := flat_map (fun m => fragments (fst m)) msgs in
  chatHistory s'
  = chatHistory s
    ++ map entry (List.filter (fun f => truthy (Some (snd f))) arrived)
  /\ (Forall (fun f => snd f <> EmptyString) arrived ->
      chatHistory s' = chatHistory s ++ map entry arrived
      /\ length (chatHistory s') = (length (chatHistory s) + length arrived)%nat).
Proof.
  cbv zeta. split; [apply run_messages_chatHistory|].
  intros Hne. rewrite run_messages_chatHistory.
  rewrite filter_all.
  - split; [reflexivity|]. rewrite length_app, length_map. reflexivity.
  - eapply Forall_impl; [exact Hne|]. intros [r [|c t]] H; [|reflexivity].
    cbn in H. congruence.
Qed.

(** The scenario of the specification: fragments tagged user, model, user
    arrive in that order. *)
Lemma transcript_in_arrival_order_witness :
  chatHistory
    (fst (run [Message (mkMessage (Some "a"%string) None None false) 0%Q;
               Message (mkMessage None (Some "b"%string) None false) 1%Q;
               Message (mkMessage (Some "a"%string) None None false) 2%Q]
            initial))
  = [mkChatMessage user "a"; mkChatMessage model "b"; mkChatMessage user "a"].
Proof.
  apply (proj2 (transcript_in_arrival_order
                  [(mkMessage (Some "a"%string) None None false, 0%Q);
                   (mkMessage None (Some "b"%string) None false, 1%Q);
                   (mkMessage (Some "a"%string) None None false, 2%Q)]
                  initial)).
  repeat constructor; discriminate.
Defined.

(** C9, the counterexample: a message that carries a user fragment with
    an empty text leaves the transcript as it was. *)
Lemma transcript_skips_empty_fragment :
  fragments (mkMessage (Some EmptyString) None None false)
  = [(user, EmptyString)]
  /\ chatHistory
       (out_state (onmessage (mkMessage (Some EmptyString) None None false)
                     0%Q initial))
     = [].
Proof. split; reflexivity. Qed.

(** C10.  The entries that the handler of one message appends are the
    user's entry, when the message carries a user fragment with a text, and
    after it the model's entry, when it carries a model fragment with a
    text, whatever else the message carries and whether or not the handler
    then throws.  So the handler appends nothing, one entry, or the user's
    entry followed by the model's: where both are appended the user's is
    immediately before the model's, and a model's entry is never followed
    by an entry of the same message. *)
Theorem user_fragment_before_model (message : LiveServerMessage) (now : Q)
    (s : state) :
  let appended :=
    (if truthy (inputTranscription message)
     then [mkChatMessage user (default EmptyString (inputTranscription message))]
     else [])
    ++ (if truthy (outputTranscription message)
        then [mkChatMessage model
                (default EmptyString (outputTranscription message))]
        else []) in
  chatHistory (out_state (onmessage message now s)) = chatHistory s ++ appended
  /\ (appended = []
      \/ (exists tu, appended = [mkChatMessage user tu])
      \/ (exists tm, appended = [mkChatMessage model tm])
      \/ (exists tu tm,
            appended = [mkChatMessage user tu; mkChatMessage model tm]))
  /\ (forall before x after,
        appended = before ++ x :: after -> msg_role x = model -> after = [])
  /\ (forall tu tm,
        inputTranscription message = Some tu ->
        outputTranscription message = Some tm ->
        tu <> EmptyString -> tm <> EmptyString ->
        chatHistory (out_state (onmessage message now s))
        = chatHistory s ++ [mkChatMessage user tu; mkChatMessage model tm]).
Proof.
  cbv zeta. rewrite onmessage_chatHistory. unfold fragments.
  destruct (inputTranscription message) as [[|c tu]|],
           (outputTranscription message) as [[|c' tm]|];
    cbn [truthy default from_option id app map List.filter entry fst snd];
    (split; [reflexivity|]);
    (split;
     [first [ left; reflexivity
            | right; left; eexists; reflexivity
            | right; right; left; eexists; reflexivity
            | right; right; right; eexists; eexists; reflexivity ]|]);
    (split;
     [intros before x after Heq Hrole;
      destruct before as [|y [|z before]]; cbn in Heq;
      try discriminate Heq;
      try (injection Heq as <- <-; first [reflexivity | discriminate Hrole]);
      try (injection Heq as <- <- <-; reflexivity);
      injection Heq as _ _ Heq; destruct before; discriminate Heq
     |intros tu' tm' Hu Hm Hnu Hnm;
      try discriminate Hu; try discriminate Hm;
      injection Hu as <-; injection Hm as <-;
      first [congruence | reflexivity]]).
Qed.

End Transcript.

(* ===================================================================== *)
(** * The playback scheduler *)
(* ===================================================================== *)

Section Playback.

Local Open Scope Q_scope.

(** A payload that decodes gives a mono buffer at 24 kHz with at least one
    frame. *)
Lemma decodeAudioData_Ok (data : list byte) (buffer : AudioBuffer) :
  decodeAudioData data 24000 1 = Ok buffer ->
  exists d, Int16Array_of_bytes data = Ok d /\ d <> []
            /\ buffer = mkAudioBuffer 1 (length d) 24000 [map normalized d].
Proof.
  intros H. destruct (Nat.Even_or_Odd (length data)) as [Heven|Hodd].
  - destruct (Int16Array_of_bytes_even data Heven) as (d & Hd & _).
    exists d. split; [exact Hd|].
    destruct d as [|v d].
    + rewrite (decodeAudioData_short data [] 24000 1 Hd) in H by (cbn; lia).
      discriminate.
    + split; [discriminate|].
      rewrite (decodeAudioData_mono data (v :: d) Hd) in H by discriminate.
      injection H as <-. reflexivity.
  - rewrite (decodeAudioData_odd data 24000 1 Hodd) in H. discriminate.
Qed.

Lemma decoded_audio_duration (message : LiveServerMessage) (buffer : AudioBuffer) :
  decoded_audio message = Ok buffer -> 0 < duration buffer.
Proof.
  unfold decoded_audio. destruct (decodeBase64 _) as [bytes|e]; [|discriminate].
  cbn [bind]. intros H. apply decodeAudioData_Ok in H as (d & _ & Hne & ->).
  unfold duration. cbn [frames sampleRate].
  apply Qlt_shift_div_l; [reflexivity|].
  rewrite Qmult_0_l. rewrite <- (Zlt_Qlt 0).
  destruct d; [congruence | cbn [length]; lia].
Qed.

(** ** The handler of an inbound message, by cases *)

Lemma started_stops (l : list source) :
  started (map (fun src => SourceStop (src_id src)) l) = [].
Proof.
  induction l as [|x l IH]; [reflexivity | exact IH].
Qed.

Lemma started_app (e1 e2 : list effect) :
  started (e1 ++ e2) = started e1 ++ started e2.
Proof.
  unfold started. apply omap_app.
Qed.

Lemma andThen_ret (s : state) (k : state -> outcome) : andThen (ret s) k = k s.
Proof.
  unfold andThen, ret, out_state, out_effects, out_completion. cbn.
  destruct (k s) as [[s' eff] c]. reflexivity.
Qed.

(** The transcription part changes the transcript only. *)
Lemma onmessage_transcriptions_ret (message : LiveServerMessage) (s : state) :
  exists g, onmessage_transcriptions message s = ret (setChatHistory g s).
Proof.
  unfold onmessage_transcriptions.
  destruct (truthy (inputTranscription message)),
           (truthy (outputTranscription message));
    destruct s; eexists; unfold ret, handleLiveTranscript, setChatHistory; cbn.
  - instantiate (1 := fun prev => (prev ++ _) ++ _). reflexivity.
  - instantiate (1 := fun prev => prev ++ _). reflexivity.
  - instantiate (1 := fun prev => prev ++ _). reflexivity.
  - instantiate (1 := fun prev => prev). reflexivity.
Qed.

Lemma onmessage_audio_case (message : LiveServerMessage) (now : Q) (s : state) :
  audio_case message now s (onmessage_audio message now s).
Proof.
  unfold onmessage_audio.
  destruct (audioContextRef s) as [ctx|] eqn:Hctx;
    [|apply audio_none; left; exact Hctx].
  destruct (truthy (inlineData message)) eqn:Ht;
    [|apply audio_none; right; exact Ht].
  change (bind (decodeBase64 (default EmptyString (inlineData message)))
            (fun bytes => decodeAudioData bytes 24000 1))
    with (decoded_audio message).
  destruct (decoded_audio message) as [buffer|e] eqn:Hd.
  - apply (audio_scheduled message now s buffer); [congruence | exact Ht | exact Hd].
  - apply audio_thrown; [congruence | exact Ht | exact Hd].
Qed.

(** What a message does to the playback state: [scheduled] is the list of
    the sources it starts (none or one). *)
Lemma onmessage_playback (message : LiveServerMessage) (now : Q) (s : state) :
  let o := onmessage message now s in
  audioContextRef (out_state o) = audioContextRef s
  /\ exists scheduled : list source,
       started (out_effects o) = scheduled
       /\ (scheduled = []
           \/ exists buffer,
                audioContextRef s <> None
                /\ decoded_audio message = Ok buffer
                /\ scheduled = [scheduled_source s now buffer])
       /\ ((exists e, out_completion o = Throw e
                      /\ audioContextRef s <> None
                      /\ decoded_audio message = Throw e
                      /\ out_effects o = []
                      /\ nextStartTimeRef (out_state o) = nextStartTimeRef s
                      /\ scheduledSourcesRef (out_state o) = scheduledSourcesRef s)
           \/ (out_completion o = Ok tt
               /\ if interrupted message
                  then nextStartTimeRef (out_state o) = 0
                       /\ scheduledSourcesRef (out_state o) = []
                       /\ out_effects o
                          = map SourceStart scheduled
                            ++ map (fun src => SourceStop (src_id src))
                                 (scheduledSourcesRef s ++ scheduled)
                  else nextStartTimeRef (out_state o)
                       = match scheduled with
                         | src :: _ => endTime src
                         | [] => nextStartTimeRef s
                         end
                       /\ scheduledSourcesRef (out_state o)
                          = scheduledSourcesRef s ++ scheduled
                       /\ out_effects o = map SourceStart scheduled)).
Proof.
  cbv zeta. unfold onmessage.
  destruct (onmessage_transcriptions_ret message s) as [g ->].
  rewrite andThen_ret.
  set (s1 := setChatHistory g s).
  assert (Hs1 : audioContextRef s1 = audioContextRef s
                /\ nextStartTimeRef s1 = nextStartTimeRef s
                /\ scheduledSourcesRef s1 = scheduledSourcesRef s
                /\ fresh s1 = fresh s) by (destruct s; repeat split).
  destruct Hs1 as (Hc & Hn & Hl & Hf).
  assert (Hsrc : forall b, scheduled_source s1 now b = scheduled_source s now b)
    by (intros b; unfold scheduled_source; rewrite Hn, Hf; reflexivity).
  destruct (onmessage_audio_case message now s1) as [buffer Hctx Ht Hd|e Hctx Ht Hd|Hno].
  - rewrite Hsrc. unfold andThen, onmessage_interruption.
    cbn [out_completion out_state out_effects fst snd].
    split; [destruct (interrupted message), s; reflexivity|].
    exists [scheduled_source s now buffer].
    split; [destruct (interrupted message); cbn; try reflexivity|].
    { f_equal. apply started_stops. }
    split; [right; exists buffer; rewrite <- Hc; auto|].
    right. destruct (interrupted message); cbn.
    + split; [reflexivity|]. split; [destruct s; reflexivity|].
      split; [destruct s; reflexivity|]. rewrite <- Hl. destruct s; reflexivity.
    + split; [reflexivity|]. split; [destruct s; reflexivity|].
      split; [destruct s; reflexivity | reflexivity].
  - unfold andThen. cbn [out_completion out_state out_effects fst snd].
    split; [exact Hc|]. exists []. split; [reflexivity|]. split; [left; reflexivity|].
    left. exists e. rewrite <- Hc. repeat split; auto.
  - rewrite andThen_ret. unfold onmessage_interruption.
    split; [destruct (interrupted message), s; reflexivity|].
    exists []. split.
    { destruct (interrupted message); [|reflexivity]. cbn.
      apply started_stops. }
    split; [left; reflexivity|]. right.
    destruct (interrupted message); cbn.
    + split; [reflexivity|]. split; [destruct s; reflexivity|].
      split; [destruct s; reflexivity|]. rewrite app_nil_r, <- Hl.
      destruct s; reflexivity.
    + split; [reflexivity|]. split; [destruct s; reflexivity|].
      split; [rewrite app_nil_r; destruct s; reflexivity | reflexivity].
Qed.

(** ** One step without a reset *)

(** An event other than an interruption and [disconnect] either leaves the
    clock offset alone and starts nothing, or is a message whose payload is
    scheduled at the later of the clock reading and the offset, the offset
    moving to the end of the new buffer. *)
Lemma handle_no_reset (ev : event) (s : state) :
  resets ev = false ->
  (started (out_effects (handle ev s)) = []
   /\ nextStartTimeRef (out_state (handle ev s)) = nextStartTimeRef s)
  \/ exists message now buffer,
       ev = Message message now
       /\ audioContextRef s <> None
       /\ decoded_audio message = Ok buffer
       /\ started (out_effects (handle ev s)) = [scheduled_source s now buffer]
       /\ nextStartTimeRef (out_state (handle ev s))
          = endTime (scheduled_source s now buffer)
       /\ scheduledSourcesRef (out_state (handle ev s))
          = scheduledSourcesRef s ++ [scheduled_source s now buffer].
Proof.
  intros Hr.
  destruct ev as [env|stream|session| | | |message now|id|session d|];
    cbn [handle resets] in *; try discriminate.
  - left. unfold connect, connect_try, connect_catch.
    destruct (getApiKey env); split; reflexivity.
  - left. unfold connect_resume, connect_resume_try, connect_catch.
    destruct stream; split; reflexivity.
  - left. split; reflexivity.
  - left. split; reflexivity.
  - left. split; reflexivity.
  - left. split; reflexivity.
  - destruct (onmessage_playback message now s)
      as (_ & scheduled & Hst & Hsch & [(e & _ & _ & He & _ & Hn & _)|(_ & Hok)]).
    + left. split; [|exact Hn]. rewrite Hst.
      destruct Hsch as [->|(buffer & _ & Hd & _)]; [reflexivity | congruence].
    + rewrite Hr in Hok. destruct Hok as (Hn & Hl & _).
      destruct Hsch as [->|(buffer & Hctx & Hd & ->)].
      * left. split; [exact Hst | exact Hn].
      * right. exists message, now, buffer. repeat split; assumption.
  - left. split; reflexivity.
  - left. split; reflexivity.
Qed.

Lemma scheduled_source_times (s : state) (now : Q) (buffer : AudioBuffer) :
  0 < duration buffer ->
  startTime (scheduled_source s now buffer) = Qmax now (nextStartTimeRef s)
  /\ now <= startTime (scheduled_source s now buffer)
  /\ nextStartTimeRef s <= startTime (scheduled_source s now buffer)
  /\ startTime (scheduled_source s now buffer)
     < endTime (scheduled_source s now buffer).
Proof.
  intros Hd. unfold endTime, scheduled_source. cbn [startTime src_buffer].
  split; [reflexivity|].
  pose proof (Q.le_max_l now (nextStartTimeRef s)).
  pose proof (Q.le_max_r now (nextStartTimeRef s)).
  repeat split; try assumption. lra.
Qed.

(** The clock offset does not go back in a step without a reset. *)
Lemma handle_monotone (ev : event) (s : state) :
  resets ev = false ->
  nextStartTimeRef s <= nextStartTimeRef (out_state (handle ev s)).
Proof.
  intros Hr.
  destruct (handle_no_reset ev s Hr)
    as [[_ ->]|(message & now & buffer & _ & _ & Hd & _ & -> & _)].
  - apply Qle_refl.
  - destruct (scheduled_source_times s now buffer
                (decoded_audio_duration _ _ Hd)) as (_ & _ & H1 & H2).
    lra.
Qed.

(** ** Runs without a reset *)

Lemma run_no_reset (evs : list event) (s : state) :
  Forall (fun ev => resets ev = false) evs ->
  let l := started (snd (run evs s)) in
  chained (nextStartTimeRef s) l
  /\ no_overlap l
  /\ Forall (fun src => nextStartTimeRef s <= startTime src) l
  /\ nextStartTimeRef s <= nextStartTimeRef (fst (run evs s)).
Proof.
  cbv zeta. revert s. induction evs as [|ev evs IH]; intros s Hall.
  - cbn. repeat split; try constructor. apply Qle_refl.
  - inversion Hall as [|? ? Hr Hrest]; subst.
    rewrite run_cons. cbn [fst snd]. rewrite started_app.
    specialize (IH (out_state (handle ev s)) Hrest).
    destruct IH as (Hch & Hno & Hfa & Hle).
    destruct (handle_no_reset ev s Hr)
      as [[-> Hn]|(message & now & buffer & _ & _ & Hd & -> & Hn & _)].
    + rewrite Hn in *. cbn [app]. repeat split; assumption.
    + rewrite Hn in *.
      destruct (scheduled_source_times s now buffer
                  (decoded_audio_duration _ _ Hd)) as (_ & _ & H1 & H2).
      cbn [app chained no_overlap]. repeat split.
      * exact H1.
      * exact Hch.
      * exact Hfa.
      * exact Hno.
      * constructor; [exact H1|].
        eapply Forall_impl; [exact Hfa|]. cbn beta. intros src Hsrc. lra.
      * lra.
Qed.

Lemma states_monotone (evs : list event) (s : state) (k : nat) (s1 s2 : state) :
  Forall (fun ev => resets ev = false) evs ->
  states evs s !! k = Some s1 -> states evs s !! S k = Some s2 ->
  nextStartTimeRef s1 <= nextStartTimeRef s2.
Proof.
  revert s k. induction evs as [|ev evs IH]; intros s k Hall H1 H2.
  - destruct k; discriminate.
  - inversion Hall as [|? ? Hr Hrest]; subst.
    destruct k as [|k].
    + cbn in H1, H2. injection H1 as <-.
      destruct evs; cbn in H2; injection H2 as <-;
        apply handle_monotone; exact Hr.
    + cbn [states] in H1, H2.
      apply (IH (out_state (handle ev s)) k Hrest H1 H2).
Qed.

(** ** The active set *)

Lemma no_overlap_snoc (l : list source) (src : source) :
  no_overlap l -> Forall (fun a => endTime a <= startTime src) l ->
  no_overlap (l ++ [src]).
Proof.
  induction l as [|a l IH]; intros Hno Hfa.
  - cbn. split; constructor.
  - cbn [app no_overlap] in *. destruct Hno as [Ha Hl].
    inversion Hfa as [|? ? Ha' Hl']; subst. split.
    + apply Forall_app. split; [exact Ha | constructor; [exact Ha' | constructor]].
    + apply IH; assumption.
Qed.

Lemma no_overlap_filter (f : source -> bool) (l : list source) :
  no_overlap l -> no_overlap (List.filter f l).
Proof.
  induction l as [|a l IH]; [trivial|]. cbn [no_overlap List.filter].
  intros [Ha Hl]. destruct (f a); [|apply IH; exact Hl].
  cbn [no_overlap]. split; [|apply IH; exact Hl].
  apply Forall_forall. intros b Hb.
  apply list_elem_of_In, List.filter_In in Hb as [Hb _].
  rewrite Forall_forall in Ha. apply Ha, list_elem_of_In, Hb.
Qed.

Lemma ends_by_filter (f : source -> bool) (t : Q) (l : list source) :
  ends_by t l -> ends_by t (List.filter f l).
Proof.
  unfold ends_by. rewrite !Forall_forall. intros H b Hb.
  apply list_elem_of_In, List.filter_In in Hb as [Hb _].
  apply H, list_elem_of_In, Hb.
Qed.

(** The active set never holds two buffers that overlap, and the clock
    offset is never before the end of a buffer of the set: this holds
    initially and every event keeps it. *)
Lemma handle_active_set (ev : event) (s : state) :
  no_overlap (scheduledSourcesRef s) /\
  ends_by (nextStartTimeRef s) (scheduledSourcesRef s) ->
  no_overlap (scheduledSourcesRef (out_state (handle ev s))) /\
  ends_by (nextStartTimeRef (out_state (handle ev s)))
    (scheduledSourcesRef (out_state (handle ev s))).
Proof.
  intros [Hno Hends].
  destruct ev as [env|stream|session| | | |message now|id|session d|];
    cbn [handle].
  - unfold connect, connect_try, connect_catch.
    destruct (getApiKey env); split; assumption.
  - unfold connect_resume, connect_resume_try, connect_catch.
    destruct stream; split; assumption.
  - split; assumption.
  - split; assumption.
  - split; assumption.
  - split; assumption.
  - destruct (onmessage_playback message now s)
      as (_ & scheduled & _ & Hsch & [(e & _ & _ & _ & _ & -> & ->)|(_ & Hok)]).
    + split; assumption.
    + destruct (interrupted message).
      * destruct Hok as (-> & -> & _). split; constructor.
      * destruct Hok as (-> & -> & _).
        destruct Hsch as [->|(buffer & _ & Hd & ->)].
        -- rewrite app_nil_r. split; assumption.
        -- destruct (scheduled_source_times s now buffer
                       (decoded_audio_duration _ _ Hd)) as (_ & _ & H1 & H2).
           split.
           ++ apply no_overlap_snoc; [exact Hno|].
              eapply Forall_impl; [exact Hends|]. cbn beta. intros a Ha. lra.
           ++ apply Forall_app. split.
              ** eapply Forall_impl; [exact Hends|]. cbn beta. intros a Ha. lra.
              ** constructor; [apply Qle_refl | constructor].
  - cbn. split; [apply no_overlap_filter | apply ends_by_filter]; assumption.
  - split; assumption.
  - rewrite disconnect_state. split; constructor.
Qed.

Lemma run_active_set (evs : list event) (s : state) :
  no_overlap (scheduledSourcesRef s) /\
  ends_by (nextStartTimeRef s) (scheduledSourcesRef s) ->
  no_overlap (scheduledSourcesRef (fst (run evs s))) /\
  ends_by (nextStartTimeRef (fst (run evs s)))
    (scheduledSourcesRef (fst (run evs s))).
Proof.
  revert s. induction evs as [|ev evs IH]; intros s H; [exact H|].
  rewrite run_cons. cbn [fst]. apply IH, handle_active_set, H.
Qed.

End Playback.

(* ===================================================================== *)
(** * Scheduling, interruption and teardown *)
(* ===================================================================== *)

Section PlaybackClaims.

Local Open Scope Q_scope.

(** C1.  Take any sequence of events with no interruption signal and no
    [disconnect] among them, from any state.  Each buffer that an event
    starts comes from an inbound message, starts at the later of the output
    clock reading and [nextStartTimeRef], and moves [nextStartTimeRef] to
    its own end.  The buffers started in the run are chained: each starts
    at or after the end (start plus duration) of the one before, so no two
    of them overlap.  [nextStartTimeRef] never decreases from one state of
    the run to the next.  And if the active set had no overlap and ended by
    [nextStartTimeRef] before the run, the same holds after it. *)
Theorem scheduling_invariant (evs : list event) (s : state) :
  Forall (fun ev => resets ev = false) evs ->
  (forall ev s1 src,
      In ev evs -> In src (started (out_effects (handle ev s1))) ->
      exists message now,
        ev = Message message now
        /\ startTime src = Qmax now (nextStartTimeRef s1)
        /\ nextStartTimeRef (out_state (handle ev s1))
           = startTime src + duration (src_buffer src))
  /\ chained (nextStartTimeRef s) (started (snd (run evs s)))
  /\ no_overlap (started (snd (run evs s)))
  /\ (forall k s1 s2,
        states evs s !! k = Some s1 -> states evs s !! S k = Some s2 ->
        nextStartTimeRef s1 <= nextStartTimeRef s2)
  /\ (no_overlap (scheduledSourcesRef s)
      /\ ends_by (nextStartTimeRef s) (scheduledSourcesRef s) ->
      no_overlap (scheduledSourcesRef (fst (run evs s)))
      /\ ends_by (nextStartTimeRef (fst (run evs s)))
           (scheduledSourcesRef (fst (run evs s)))).
Proof.
  intros Hall. split; [|split; [|split; [|split]]].
  - intros ev s1 src Hev Hsrc.
    rewrite Forall_forall in Hall.
    specialize (Hall ev (proj2 (list_elem_of_In _ _) Hev)). cbn beta in Hall.
    destruct (handle_no_reset ev s1 Hall)
      as [[Hnone _]|(message & now & buffer & -> & _ & _ & Hst & Hn & _)].
    + rewrite Hnone in Hsrc. destruct Hsrc.
    + rewrite Hst in Hsrc. destruct Hsrc as [<-|[]].
      exists message, now. split; [reflexivity|]. split; [reflexivity | exact Hn].
  - apply (run_no_reset evs s Hall).
  - apply (run_no_reset evs s Hall).
  - intros k s1 s2. apply states_monotone, Hall.
  - apply run_active_set.
Qed.

(** Two payloads of three frames, the second arriving before the first
    has finished: they play back to back. *)
Lemma scheduling_invariant_witness :
  let connected :=
    out_state (connect (mkEnvironment (Some "key"%string) None) initial) in
  let message := mkMessage None None (Some "AAD/fwCA"%string) false in
  Forall (fun ev => resets ev = false)
    [Message message (1 # 2); Message message (1 # 2)]
  /\ no_overlap
       (started (snd (run [Message message (1 # 2); Message message (1 # 2)]
                        connected))).
Proof.
  cbv zeta.
  assert (H : Forall (fun ev => resets ev = false)
                [Message (mkMessage None None (Some "AAD/fwCA"%string) false) (1 # 2);
                 Message (mkMessage None None (Some "AAD/fwCA"%string) false) (1 # 2)])
    by (repeat constructor).
  split; [exact H|].
  exact (proj1 (proj2 (proj2 (scheduling_invariant _ _ H)))).
Defined.

(** ** Interruption *)

(** An interruption signal in a message whose audio part does not throw:
    every source of the active set, the one the message itself may have
    added included, is stopped; the set is emptied and the clock offset
    reset. *)
Lemma interruption_resets (message : LiveServerMessage) (now : Q) (s : state) :
  interrupted message = true ->
  out_completion (onmessage message now s) = Ok tt ->
  scheduledSourcesRef (out_state (onmessage message now s)) = []
  /\ nextStartTimeRef (out_state (onmessage message now s)) = 0
  /\ forall src, In src (scheduledSourcesRef s) ->
       In (SourceStop (src_id src)) (out_effects (onmessage message now s)).
Proof.
  intros Hi Hc.
  destruct (onmessage_playback message now s)
    as (_ & scheduled & _ & _ & [(e & He & _)|(_ & Hok)]); [congruence|].
  rewrite Hi in Hok. destruct Hok as (Hn & Hl & Heff).
  split; [exact Hl|]. split; [exact Hn|].
  intros src Hsrc. rewrite Heff. apply in_or_app. right.
  apply in_map_iff. exists src. split; [reflexivity|].
  apply in_or_app. left. exact Hsrc.
Qed.

(** After the reset, the next payload is scheduled at the later of the
    clock reading and 0. *)
Lemma schedule_after_reset (message : LiveServerMessage) (now : Q) (s : state)
    (src : source) :
  nextStartTimeRef s = 0 ->
  In src (started (out_effects (onmessage message now s))) ->
  startTime src = Qmax now 0.
Proof.
  intros Hz Hsrc.
  destruct (onmessage_playback message now s)
    as (_ & scheduled & Hst & [->|(buffer & _ & _ & ->)] & _);
    rewrite Hst in Hsrc.
  - destruct Hsrc.
  - destruct Hsrc as [<-|[]]. unfold scheduled_source. cbn [startTime].
    rewrite Hz. reflexivity.
Qed.

(** C2, evaluated where it fails.  A session is connected and one buffer is
    playing.  A message arrives with the interruption signal and an audio
    payload of one byte: the 16-bit view of the payload throws, the handler
    ends there, and the interruption is not handled: the buffer is neither
    stopped nor removed from the active set and the clock offset stays
    where it was. *)
Lemma interruption_lost_when_decoding_throws :
  let playing :=
    fst (run [Connect (mkEnvironment (Some "key"%string) None);
              Message (mkMessage None None (Some "AAD/fwCA"%string) false) 0]
           initial) in
  let message := mkMessage None None (Some "AA=="%string) true in
  length (scheduledSourcesRef playing) = 1%nat
  /\ decodeBase64 "AA==" = Ok [x00]
  /\ out_completion (onmessage message 1 playing) = Throw RangeError
  /\ out_effects (onmessage message 1 playing) = []
  /\ out_state (onmessage message 1 playing) = playing
  /\ nextStartTimeRef playing == 1 # 8000.
Proof.
  cbv zeta. repeat split; vm_compute; reflexivity.
Qed.

(** ** After [disconnect] *)

Lemma handle_without_context (ev : event) (s : state) :
  is_connect ev = false ->
  audioContextRef s = None /\ scheduledSourcesRef s = []
  /\ nextStartTimeRef s = 0 ->
  (audioContextRef (out_state (handle ev s)) = None
   /\ scheduledSourcesRef (out_state (handle ev s)) = []
   /\ nextStartTimeRef (out_state (handle ev s)) = 0)
  /\ started (out_effects (handle ev s)) = [].
Proof.
  intros Hev (Hctx & Hl & Hn).
  destruct ev as [env|stream|session| | | |message now|id|session d|];
    cbn [handle is_connect] in *; try discriminate.
  - unfold connect_resume, connect_resume_try, connect_catch.
    destruct stream; repeat split; assumption.
  - repeat split; assumption.
  - repeat split; assumption.
  - repeat split; assumption.
  - repeat split; assumption.
  - destruct (onmessage_playback message now s)
      as (Hc & scheduled & Hst & Hsch & Hcases).
    assert (scheduled = []) as ->
      by (destruct Hsch as [->|(buffer & Hne & _)]; [reflexivity | congruence]).
    split; [|exact Hst]. rewrite Hc. split; [exact Hctx|].
    destruct Hcases as [(e & _ & Hne & _)|(_ & Hok)]; [congruence|].
    destruct (interrupted message).
    + destruct Hok as (-> & -> & _). split; reflexivity.
    + destruct Hok as (-> & -> & _). rewrite app_nil_r. split; assumption.
  - cbn. rewrite Hl. repeat split; assumption.
  - repeat split; assumption.
  - rewrite disconnect_state. cbn. repeat split.
    destruct s as [c e ctx inp proc next srcs sess chat fr].
    cbn in Hctx, Hl. subst ctx srcs. unfold disconnect. cbn.
    destruct sess, inp, proc; reflexivity.
Qed.

(** [disconnect] closes no session: it forgets the one in the ref. *)
Lemma disconnect_closes_no_session (s : state) (session : nat) :
  ~ In (SessionClose session) (out_effects (disconnect s)).
Proof.
  unfold disconnect.
  destruct s as [c e ctx inp proc next srcs sess chat fr]. cbn.
  intros Hin.
  destruct sess, inp, proc, ctx; cbn in Hin;
    repeat (destruct Hin as [Hin|Hin]; [discriminate|]);
    try (apply in_app_or in Hin as [Hin|Hin]);
    try (apply in_map_iff in Hin as (? & ? & _); discriminate);
    repeat (destruct Hin as [Hin|Hin]; [discriminate|]);
    try destruct Hin.
Qed.

(** The one guard that the callbacks have: scheduling tests the presence of
    the audio context.  After [disconnect], whatever callbacks fire before
    the next call of [connect], the audio context stays released, no buffer
    is started, the active set stays empty and the clock offset stays 0. *)
Lemma playback_inert_after_disconnect (evs : list event) (s : state) :
  Forall (fun ev => is_connect ev = false) evs ->
  let idle := out_state (disconnect s) in
  audioContextRef (fst (run evs idle)) = None
  /\ scheduledSourcesRef (fst (run evs idle)) = []
  /\ nextStartTimeRef (fst (run evs idle)) = 0
  /\ started (snd (run evs idle)) = [].
Proof.
  intros Hall. cbv zeta.
  assert (Hidle : audioContextRef (out_state (disconnect s)) = None
                  /\ scheduledSourcesRef (out_state (disconnect s)) = []
                  /\ nextStartTimeRef (out_state (disconnect s)) = 0)
    by (rewrite disconnect_state; repeat split).
  revert Hidle. generalize (out_state (disconnect s)). clear s.
  induction evs as [|ev evs IH]; intros s Hs.
  - cbn. destruct Hs as (? & ? & ?). repeat split; assumption.
  - inversion Hall as [|? ? Hev Hrest]; subst.
    destruct (handle_without_context ev s Hev Hs) as [Hs' Hst].
    rewrite run_cons. cbn [fst snd]. rewrite started_app, Hst. cbn [app].
    apply (IH Hrest _ Hs').
Qed.

(** C7, the code at the failing input.  A session is connected, its
    capture callback installed and the connection open; then [disconnect]
    is called.  It disconnects the two input nodes and closes the audio
    context, and does nothing to the session under its comment
    [// 1. Close session] but forget it.  No callback checks that its
    session is still the current one: a message that arrives afterward is
    appended to the transcript, a late [onopen] marks the controller
    connected again, and a captured frame is still sent on the session. *)
Lemma callbacks_fire_after_disconnect :
  let connected :=
    fst (run [Connect (mkEnvironment (Some "key"%string) None);
              MicrophoneSettled (Ok tt); SessionResolved 3; Open] initial) in
  let idle := out_state (disconnect connected) in
  isConnected connected = true
  /\ sessionRef connected = Some 3%nat
  /\ out_effects (disconnect connected)
     = [NodeDisconnect 1; NodeDisconnect 2; ContextClose 0]
  /\ isConnected idle = false
  /\ sessionRef idle = None
  /\ chatHistory idle = []
  /\ chatHistory
       (out_state (onmessage (mkMessage (Some "late"%string) None None false)
                     0 idle))
     = [mkChatMessage user "late"]
  /\ isConnected (out_state (onopen idle)) = true
  /\ out_effects (onaudioprocess 3 [Fin 0] idle)
     = [SendRealtimeInput 3 "AAA="].
Proof.
  cbv zeta. repeat split; vm_compute; reflexivity.
Qed.

(** C8, the code at the failing input.  [connect] is called with a
    credential and is suspended on the request for the microphone; then
    [disconnect] is called, and called again: the second call changes
    nothing, and the flag and the refs are those of an idle controller.
    Nothing cancels the suspended [connect]: when the microphone is
    granted it creates and stores the input nodes and asks for a session,
    the session is stored and [onopen] sets the connected flag.  The
    controller is connected, with a session and the capture nodes in its
    refs, after [disconnect] has returned; the audio context that
    [disconnect] closed is not replaced. *)
Lemma disconnect_during_connect :
  let suspended :=
    fst (run [Connect (mkEnvironment (Some "key"%string) None)] initial) in
  let idle := out_state (disconnect suspended) in
  let later :=
    run [MicrophoneSettled (Ok tt); SessionResolved 3; Open] idle in
  snd (run [Connect (mkEnvironment (Some "key"%string) None)] initial)
  = [GetUserMedia]
  /\ out_effects (disconnect suspended) = [ContextClose 0]
  /\ isConnected idle = false
  /\ sessionRef idle = None
  /\ inputSourceRef idle = None
  /\ processorRef idle = None
  /\ disconnect idle = (idle, [], Ok tt)
  /\ snd later = [LiveConnect 3; ConsoleLog "Live API Connected"]
  /\ isConnected (fst later) = true
  /\ sessionRef (fst later) = Some 3%nat
  /\ inputSourceRef (fst later) = Some 1%nat
  /\ processorRef (fst later) = Some 2%nat
  /\ audioContextRef (fst later) = None.
Proof.
  cbv zeta. repeat split; vm_compute; reflexivity.
Qed.

End PlaybackClaims.

(* ===================================================================== *)
(** * Further properties of the codec *)
(* ===================================================================== *)

Section CodecProperties.

Local Open Scope Q_scope.

(** [decodeBase64] inverts the conversion of bytes to text that
    [float32ToBase64] ends with ([String.fromCharCode] on each byte, then
    [btoa]), on every sequence of bytes. *)
Theorem decodeBase64_inverts_btoa (bytes : list byte) :
  decodeBase64 (btoa (string_of_list_ascii (map fromCharCode bytes)))
  = Ok bytes.
Proof.
  unfold decodeBase64. rewrite atob_btoa. cbn [bind].
  rewrite list_ascii_of_string_of_list_ascii, map_map. f_equal.
  induction bytes as [|b bytes IH]; [reflexivity|].
  cbn [map]. rewrite byte_of_charCode, IH. reflexivity.
Qed.

Lemma encoded_text_length (l : list ascii) :
  (length (sextets l) + length (padding l) = 4 * ((length l + 2) / 3))%nat.
Proof.
  induction l as [|a|a b|a b c rest IH] using list_ind3;
    cbn [sextets padding length]; try reflexivity.
  replace (S (S (S (length rest))) + 2)%nat
    with (length rest + 2 + 1 * 3)%nat by lia.
  rewrite Nat.div_add by lia. lia.
Qed.

Lemma string_length_chars (s : string) :
  String.length s = length (list_ascii_of_string s).
Proof.
  induction s as [|c s IH]; [reflexivity|]. cbn. rewrite IH. reflexivity.
Qed.

(** The text that [float32ToBase64] returns has four characters for every
    three bytes of samples, rounded up, and is made of characters of the
    base64 alphabet and of padding only. *)
Theorem float32ToBase64_text (data : list number) :
  String.length (float32ToBase64 data)
  = (4 * ((2 * length data + 2) / 3))%nat
  /\ Forall text_safe (list_ascii_of_string (float32ToBase64 data)).
Proof.
  unfold float32ToBase64.
  set (bytes := Uint8Array_of_Int16Array (map pcm16 data)).
  assert (Hlen : length (map fromCharCode bytes) = (2 * length data)%nat)
    by (unfold bytes; rewrite length_map, Uint8Array_length, length_map;
        reflexivity).
  set (binary := string_of_list_ascii (map fromCharCode bytes)).
  assert (Hb : list_ascii_of_string binary = map fromCharCode bytes)
    by apply list_ascii_of_string_of_list_ascii.
  split.
  - rewrite string_length_chars, btoa_chars, Hb.
    rewrite length_app, length_map, encoded_text_length, Hlen. reflexivity.
  - rewrite btoa_chars. apply Forall_app. split.
    + apply Forall_map. eapply Forall_impl; [apply sextets_range|].
      intros n Hn. left. exists n. split; [exact Hn | reflexivity].
    + destruct (padding_cases (list_ascii_of_string binary)) as [-> | [-> | ->]];
        repeat constructor; right; reflexivity.
Qed.

(** A rational between an integer and its successor truncates to it. *)
Lemma Qtrunc_nonneg_unique (q : Q) (z : Z) :
  0 <= q -> inject_Z z <= q -> q < inject_Z z + 1 -> Qtrunc q = z.
Proof.
  intros H0 Hlo Hhi. destruct (Qtrunc_nonneg_bounds q H0) as [Hv Hv'].
  assert (z < Qtrunc q + 1)%Z
    by (rewrite Zlt_Qlt, inject_Z_plus; change (inject_Z 1) with 1; lra).
  assert (Qtrunc q < z + 1)%Z
    by (rewrite Zlt_Qlt, inject_Z_plus; change (inject_Z 1) with 1; lra).
  lia.
Qed.

Lemma Qtrunc_nonpos_unique (q : Q) (z : Z) :
  q <= 0 -> inject_Z z - 1 < q -> q <= inject_Z z -> Qtrunc q = z.
Proof.
  intros H0 Hlo Hhi. destruct (Qtrunc_nonpos_bounds q H0) as [Hv Hv'].
  assert (z < Qtrunc q + 1)%Z
    by (rewrite Zlt_Qlt, inject_Z_plus; change (inject_Z 1) with 1; lra).
  assert (Qtrunc q < z + 1)%Z
    by (rewrite Zlt_Qlt, inject_Z_plus; change (inject_Z 1) with 1; lra).
  lia.
Qed.

(** The clamp of a finite sample, and its 16-bit value by the sign of the
    clamp. *)
Lemma pcm16_Fin (q : Q) :
  exists s, clamped (Fin q) s /\ -1 <= s <= 1
            /\ (s < 0 -> pcm16 (Fin q) = Qtrunc (s * 32768))
            /\ (0 <= s -> pcm16 (Fin q) = Qtrunc (s * 32767)).
Proof.
  destruct (clamp_number (Fin q)) as (s & Hc & Hcl & Hs); [discriminate|].
  destruct (pcm16_clamped (Fin q) s Hc Hs) as (Hneg & Hpos & _).
  exists s. repeat split; try assumption; apply Hs.
Qed.

(** The encoder is monotone: a sample that is not smaller is encoded as a
    16-bit value that is not smaller. *)
Theorem pcm16_monotone (q1 q2 : Q) :
  q1 <= q2 -> (pcm16 (Fin q1) <= pcm16 (Fin q2))%Z.
Proof.
  intros Hle.
  destruct (pcm16_Fin q1) as (s1 & Hc1 & Hs1 & Hn1 & Hp1).
  destruct (pcm16_Fin q2) as (s2 & Hc2 & Hs2 & Hn2 & Hp2).
  cbn [clamped] in Hc1, Hc2.
  assert (H12 : s1 <= s2)
    by (destruct Hc1 as [[? ?]|[[? ?]|[? ?]]];
        destruct Hc2 as [[? ?]|[[? ?]|[? ?]]]; lra).
  destruct (Qlt_le_dec s2 0) as [H2|H2].
  - rewrite Hn1, Hn2 by lra.
    rewrite !Qtrunc_nonpos by lra. apply Qceiling_resp_le. lra.
  - destruct (Qlt_le_dec s1 0) as [H1|H1].
    + rewrite Hn1, Hp2 by lra.
      destruct (Qtrunc_nonpos_bounds (s1 * 32768)) as [_ Hv1]; [lra|].
      destruct (Qtrunc_nonneg_bounds (s2 * 32767)) as [_ Hv2]; [lra|].
      assert (Qtrunc (s1 * 32768) < 1)%Z
        by (rewrite Zlt_Qlt; change (inject_Z 1) with 1; lra).
      assert (-1 < Qtrunc (s2 * 32767))%Z
        by (rewrite Zlt_Qlt; change (inject_Z (-1)) with (-1); lra).
      lia.
    + rewrite Hp1, Hp2 by lra.
      rewrite !Qtrunc_nonneg by lra. apply Qfloor_resp_le. lra.
Qed.

Lemma pcm16_monotone_witness :
  (-1 # 3) <= (2 # 3) /\ (pcm16 (Fin (-1 # 3)) <= pcm16 (Fin (2 # 3)))%Z.
Proof.
  assert (H : (-1 # 3) <= (2 # 3)) by (unfold Qle; cbn; lia).
  split; [exact H | exact (pcm16_monotone _ _ H)].
Defined.

(** The encoder saturates: every sample at or above 1, positive infinity
    included, is encoded as 32767, and every sample at or below -1,
    negative infinity included, as -32768. *)
Theorem pcm16_saturates (q : Q) :
  (1 <= q -> pcm16 (Fin q) = 32767%Z)
  /\ (q <= -1 -> pcm16 (Fin q) = (-32768)%Z)
  /\ pcm16 PosInf = 32767%Z
  /\ pcm16 NegInf = (-32768)%Z.
Proof.
  destruct (pcm16_Fin q) as (s & Hc & Hs & Hn & Hp). cbn [clamped] in Hc.
  split; [|split; [|split; reflexivity]].
  - intros Hq. assert (Hs1 : s == 1)
      by (destruct Hc as [[? ?]|[[? ?]|[? ?]]]; lra).
    rewrite Hp by lra. apply Qtrunc_nonneg_unique;
      [lra | change (inject_Z 32767) with 32767; lra
           | change (inject_Z 32767) with 32767; lra].
  - intros Hq. assert (Hs1 : s == -1)
      by (destruct Hc as [[? ?]|[[? ?]|[? ?]]]; lra).
    rewrite Hn by lra. apply Qtrunc_nonpos_unique;
      [lra | change (inject_Z (-32768)) with (-32768); lra
           | change (inject_Z (-32768)) with (-32768); lra].
Qed.

(** The samples that are encoded as digital silence are exactly those
    strictly between -1/32768 and 1/32767: truncation is toward zero, so
    the zero band is about two quantization steps wide. *)
Theorem pcm16_zero_band (q : Q) :
  pcm16 (Fin q) = 0%Z <-> -(1 # 32768) < q < 1 # 32767.
Proof.
  destruct (pcm16_Fin q) as (s & Hc & Hs & Hn & Hp). cbn [clamped] in Hc.
  destruct (Qlt_le_dec s 0) as [H|H].
  - rewrite Hn by exact H.
    destruct (Qtrunc_nonpos_bounds (s * 32768)) as [Hlo Hhi]; [lra|].
    split.
    + intros Hz. rewrite Hz in Hlo, Hhi. change (inject_Z 0) with 0 in *.
      destruct Hc as [[? ?]|[[? ?]|[? ?]]]; lra.
    + intros Hq. apply Qtrunc_nonpos_unique;
        [lra | change (inject_Z 0) with 0 | change (inject_Z 0) with 0];
        destruct Hc as [[? ?]|[[? ?]|[? ?]]]; lra.
  - rewrite Hp by exact H.
    destruct (Qtrunc_nonneg_bounds (s * 32767)) as [Hlo Hhi]; [lra|].
    split.
    + intros Hz. rewrite Hz in Hlo, Hhi. change (inject_Z 0) with 0 in *.
      destruct Hc as [[? ?]|[[? ?]|[? ?]]]; lra.
    + intros Hq. apply Qtrunc_nonneg_unique;
        [lra | change (inject_Z 0) with 0 | change (inject_Z 0) with 0];
        destruct Hc as [[? ?]|[[? ?]|[? ?]]]; lra.
Qed.

(** What a successful decoding tells about its arguments. *)
Lemma decodeAudioData_inv (data : list byte) (rate : Z) (numChannels : nat)
    (buffer : AudioBuffer) :
  decodeAudioData data rate numChannels = Ok buffer ->
  exists d, Int16Array_of_bytes data = Ok d
            /\ Forall int16_range d
            /\ length data = (2 * length d)%nat
            /\ (1 <= numChannels <= 32)%nat
            /\ (numChannels <= length d)%nat
            /\ (0 < rate)%Z.
Proof.
  intros H. destruct (Nat.Even_or_Odd (length data)) as [Heven|Hodd].
  2:{ rewrite (decodeAudioData_odd data rate numChannels Hodd) in H.
      discriminate. }
  destruct (Int16Array_of_bytes_even data Heven) as (d & Hd & Hlen & Hr & _).
  exists d. split; [exact Hd|]. split; [exact Hr|]. split; [exact Hlen|].
  unfold decodeAudioData in H. rewrite Hd in H. cbn [bind] in H.
  destruct numChannels as [|n].
  { unfold createBuffer in H. cbn in H. discriminate. }
  destruct (frame_count (length d) (S n) ltac:(lia)) as (q & Hq & Hu & _).
  rewrite Hq in H. unfold createBuffer in H. rewrite Hu in H.
  cbn [Nat.eqb orb] in H.
  destruct (Nat.ltb_spec 32 (S n)); [discriminate|].
  destruct (Nat.eqb_spec (length d / S n) 0) as [E|E]; [discriminate|].
  destruct (Z.leb_spec rate 0); [discriminate|].
  repeat split; try lia.
  destruct (Nat.lt_ge_cases (length d) (S n)) as [Hlt|Hge]; [|exact Hge].
  rewrite (Nat.div_small _ _ Hlt) in E. congruence.
Qed.

(** Whatever bytes are decoded, with any number of channels and any rate
    for which the decoding succeeds, the buffer has the requested number of
    channels, every channel has the same number of frames, and every sample
    is a number in [-1, 1): never NaN, never 1 or more. *)
Theorem decoded_samples_in_range (data : list byte) (rate : Z)
    (numChannels : nat) (buffer : AudioBuffer) :
  decodeAudioData data rate numChannels = Ok buffer ->
  length (channelData buffer) = numChannels
  /\ numberOfChannels buffer = numChannels
  /\ frames buffer = (length data / 2 / numChannels)%nat
  /\ forall cd, In cd (channelData buffer) ->
       length cd = frames buffer
       /\ forall x, In x cd -> exists q, x = Fin q /\ -1 <= q < 1.
Proof.
  intros H.
  destruct (decodeAudioData_inv _ _ _ _ H) as (d & Hd & Hr & Hlen & Hnc & Hle & Hrate).
  rewrite (decodeAudioData_frames data d rate numChannels Hd Hnc Hle Hrate) in H.
  injection H as <-. cbn [channelData numberOfChannels frames].
  split; [rewrite length_map, length_seq; reflexivity|].
  split; [reflexivity|].
  split; [rewrite Hlen, Nat.mul_comm, Nat.div_mul by lia; reflexivity|].
  intros cd Hcd. apply in_map_iff in Hcd as (ch & <- & _).
  unfold deinterleaved. split; [rewrite length_map, length_seq; reflexivity|].
  intros x Hx. apply in_map_iff in Hx as (i & <- & _).
  set (v := nth (i * numChannels + ch) d 0%Z).
  assert (Hv : int16_range v).
  { unfold v. destruct (nth_lookup_or_length d (i * numChannels + ch) 0%Z)
      as [Hk|Hk].
    - rewrite Forall_forall in Hr. apply Hr.
      apply list_elem_of_lookup. eexists. exact Hk.
    - rewrite nth_overflow by lia. unfold int16_range. lia. }
  exists (inject_Z v / 32768). split; [reflexivity|].
  unfold int16_range in Hv. destruct Hv as [Hlo Hhi].
  rewrite Zle_Qle in Hlo. change (inject_Z (-32768)) with (-32768) in Hlo.
  assert (Hhi' : inject_Z v < 32768)
    by (change 32768 with (inject_Z 32768); rewrite <- Zlt_Qlt; lia).
  split; [apply Qle_shift_div_l | apply Qlt_shift_div_r]; lra.
Qed.

Lemma decoded_samples_in_range_witness :
  exists buffer,
    decodeAudioData [x00; x80; xff; x7f] 24000 2 = Ok buffer
    /\ length (channelData buffer) = 2%nat.
Proof.
  eexists. split; [vm_compute; reflexivity|].
  apply (decoded_samples_in_range [x00; x80; xff; x7f] 24000 2).
  vm_compute. reflexivity.
Defined.

End CodecProperties.

(* ===================================================================== *)
(** * Further properties of the playback scheduler and the controller *)
(* ===================================================================== *)

Section SessionProperties.

Local Open Scope Q_scope.

(** [onmessage] is its audio part, run on the state that the transcription
    part leaves, followed by its interruption part. *)
Lemma onmessage_by_audio (message : LiveServerMessage) (now : Q) (s : state) :
  exists g,
    onmessage message now s
    = andThen (onmessage_audio message now (setChatHistory g s))
        (onmessage_interruption message)
    /\ audio_case message now (setChatHistory g s)
         (onmessage_audio message now (setChatHistory g s))
    /\ chatHistory (setChatHistory g s)
       = chatHistory s
         ++ map entry (List.filter (fun f => truthy (Some (snd f)))
                         (fragments message)).
Proof.
  destruct (onmessage_transcriptions_ret message s) as [g Hg].
  exists g. split; [|split].
  - unfold onmessage. rewrite Hg, andThen_ret. reflexivity.
  - apply onmessage_audio_case.
  - pose proof (onmessage_chatHistory message now s) as H.
    unfold onmessage in H. rewrite Hg, andThen_ret in H.
    rewrite (andThen_frame chatHistory) in H
      by apply onmessage_interruption_chatHistory.
    rewrite onmessage_audio_chatHistory in H. exact H.
Qed.

(** The handler of an inbound message throws exactly when an audio context
    is live, the message carries a non-empty payload, and the payload fails
    to decode; the exception is that of the decoding.  The fragments of the
    message are in the transcript all the same, and nothing else has
    changed: no source is started or stopped, and the active set and the
    clock offset are as they were. *)
Theorem onmessage_throws_iff (message : LiveServerMessage) (now : Q)
    (s : state) (e : exn) :
  (out_completion (onmessage message now s) = Throw e
   <-> audioContextRef s <> None
       /\ truthy (inlineData message) = true
       /\ decoded_audio message = Throw e)
  /\ (out_completion (onmessage message now s) = Throw e ->
      out_effects (onmessage message now s) = []
      /\ out_state (onmessage message now s)
         = setChatHistory
             (fun prev => prev ++ map entry
                (List.filter (fun f => truthy (Some (snd f)))
                   (fragments message))) s).
Proof.
  destruct (onmessage_by_audio message now s) as (g & -> & Hcase & Hchat).
  assert (Hctx : audioContextRef (setChatHistory g s) = audioContextRef s)
    by (destruct s; reflexivity).
  assert (Hint : forall s', out_completion (onmessage_interruption message s')
                            = Ok tt)
    by (intros s'; unfold onmessage_interruption;
        destruct (interrupted message); reflexivity).
  destruct Hcase as [buffer Hc Ht Hd|e' Hc Ht Hd|Hno].
  - unfold andThen. cbn [out_completion out_state out_effects fst snd].
    rewrite Hint. split; [|discriminate].
    split; [discriminate | intros (_ & _ & He); congruence].
  - unfold andThen. cbn [out_completion out_state out_effects fst snd].
    split.
    + split.
      * intros [= <-]. rewrite <- Hctx. auto.
      * intros (_ & _ & He). congruence.
    + intros _. split; [reflexivity|].
      destruct s as [c er ctx inp proc next srcs sess chat fr].
      unfold setChatHistory in Hchat |- *. cbn in Hchat |- *.
      f_equal. exact Hchat.
  - rewrite andThen_ret, Hint. split; [|discriminate].
    split; [discriminate|]. intros (Hc & Ht & _).
    rewrite Hctx in Hno. destruct Hno; congruence.
Qed.

Lemma onmessage_throws_iff_witness :
  out_effects
    (onmessage (mkMessage (Some "hi"%string) None (Some "AA=="%string) true) 0
       (out_state (connect (mkEnvironment (Some "key"%string) None) initial)))
  = [].
Proof.
  apply (proj2 (onmessage_throws_iff
                  (mkMessage (Some "hi"%string) None (Some "AA=="%string) true)
                  0 _ RangeError)).
  vm_compute. reflexivity.
Defined.

(** Playback is gapless when the audio keeps up: a payload that arrives no
    later than the clock offset starts exactly at the offset, that is at
    the end of the buffer before it; one that arrives later starts on
    arrival.  The new source is a fresh object, and its buffer lasts one
    second for every 48000 bytes of payload (16-bit mono at 24 kHz). *)
Theorem gapless_playback (message : LiveServerMessage) (now : Q) (s : state)
    (src : source) :
  In src (started (out_effects (onmessage message now s))) ->
  src_id src = fresh s
  /\ (now <= nextStartTimeRef s -> startTime src == nextStartTimeRef s)
  /\ (nextStartTimeRef s <= now -> startTime src == now)
  /\ exists bytes,
       decodeBase64 (default EmptyString (inlineData message)) = Ok bytes
       /\ bytes <> []
       /\ duration (src_buffer src)
          == inject_Z (Z.of_nat (length bytes)) / 48000.
Proof.
  intros Hsrc.
  destruct (onmessage_playback message now s)
    as (_ & scheduled & Hst & [->|(buffer & _ & Hd & ->)] & _);
    rewrite Hst in Hsrc; [destruct Hsrc|].
  destruct Hsrc as [<-|[]]. unfold scheduled_source.
  cbn [src_id startTime src_buffer].
  split; [reflexivity|]. split; [intros H; apply Q.max_r; exact H|].
  split; [intros H; apply Q.max_l; exact H|].
  unfold decoded_audio in Hd.
  destruct (decodeBase64 _) as [bytes|e]; [|discriminate].
  cbn [bind] in Hd. exists bytes. split; [reflexivity|].
  destruct (decodeAudioData_inv _ _ _ _ Hd) as (d' & Hd' & _ & Hlen & _ & Hle & _).
  apply decodeAudioData_Ok in Hd as (d & Hd1 & Hne & ->).
  assert (d' = d) as -> by congruence.
  split; [destruct bytes; [cbn in Hlen; destruct d; [congruence | discriminate]
                          | discriminate]|].
  unfold duration. cbn [frames sampleRate].
  rewrite Hlen, Nat2Z.inj_mul, inject_Z_mult.
  change (inject_Z (Z.of_nat 2)) with 2. change (inject_Z 24000) with 24000.
  field.
Qed.

Lemma gapless_playback_witness :
  let connected :=
    out_state (connect (mkEnvironment (Some "key"%string) None) initial) in
  let message := mkMessage None None (Some "AAD/fwCA"%string) false in
  let src := scheduled_source connected (1 # 2)
               (mkAudioBuffer 1 3 24000
                  [[normalized 0; normalized 32767; normalized (-32768)]]) in
  In src (started (out_effects (onmessage message (1 # 2) connected)))
  /\ src_id src = fresh connected.
Proof.
  cbv zeta.
  assert (H : In (scheduled_source
                    (out_state (connect (mkEnvironment (Some "key"%string) None)
                                  initial))
                    (1 # 2)
                    (mkAudioBuffer 1 3 24000
                       [[normalized 0; normalized 32767; normalized (-32768)]]))
                (started (out_effects
                   (onmessage (mkMessage None None (Some "AAD/fwCA"%string) false)
                      (1 # 2)
                      (out_state (connect (mkEnvironment (Some "key"%string) None)
                                    initial))))))
    by (left; vm_compute; reflexivity).
  split; [exact H | exact (proj1 (gapless_playback _ _ _ _ H))].
Defined.

(** When the handler of a message carrying the interruption signal does
    not throw, every source of the active set is stopped, and so is the
    source that the message itself may have started; the active set is
    empty and the clock offset 0 afterward, and the next payload to be
    scheduled starts at the later of the clock reading and 0. *)
Theorem interruption_clears_playback (message : LiveServerMessage) (now : Q)
    (s : state) :
  interrupted message = true ->
  out_completion (onmessage message now s) = Ok tt ->
  let o := onmessage message now s in
  scheduledSourcesRef (out_state o) = []
  /\ nextStartTimeRef (out_state o) = 0
  /\ (forall src,
        In src (scheduledSourcesRef s) \/ In (SourceStart src) (out_effects o) ->
        In (SourceStop (src_id src)) (out_effects o))
  /\ forall message' now' src',
       In src' (started (out_effects (onmessage message' now' (out_state o)))) ->
       startTime src' = Qmax now' 0.
Proof.
  intros Hi Hc. cbv zeta.
  destruct (onmessage_playback message now s)
    as (_ & scheduled & Hst & _ & [(e & He & _)|(_ & Hok)]); [congruence|].
  rewrite Hi in Hok. destruct Hok as (Hn & Hl & Heff).
  split; [exact Hl|]. split; [exact Hn|]. split.
  - intros src Hsrc. rewrite Heff in *. apply in_or_app. right.
    apply in_map_iff. exists src. split; [reflexivity|].
    apply in_or_app. destruct Hsrc as [H|H]; [left; exact H|].
    right. apply in_app_or in H as [H|H].
    + apply in_map_iff in H as (x & [= ->] & Hx). exact Hx.
    + apply in_map_iff in H as (x & Hx & _). discriminate.
  - intros message' now' src' Hsrc.
    apply (schedule_after_reset message' now' _ src' Hn Hsrc).
Qed.

Lemma interruption_clears_playback_witness :
  let playing :=
    fst (run [Connect (mkEnvironment (Some "key"%string) None);
              Message (mkMessage None None (Some "AAD/fwCA"%string) false) 0]
           initial) in
  let message := mkMessage None None None true in
  interrupted message = true
  /\ out_completion (onmessage message 1 playing) = Ok tt
  /\ scheduledSourcesRef (out_state (onmessage message 1 playing)) = [].
Proof.
  cbv zeta. split; [reflexivity|]. split; [vm_compute; reflexivity|].
  apply (interruption_clears_playback (mkMessage None None None true) 1 _ eq_refl).
  vm_compute. reflexivity.
Defined.

(** ** A refused microphone *)

(** With a credential configured, [connect] asks for the microphone; when
    the request is refused the [catch] block logs the refusal, sets the
    error flag and clears the connected flag, the live service is never
    contacted and no input node or session is stored.  The audio context
    created at the start of [connect] is left open in its ref: it is closed
    by the next [disconnect], not before. *)
Theorem connect_microphone_refused (env : environment) (key : string)
    (e : exn) (s : state) :
  getApiKey env = Some key ->
  let s' := fst (run [Connect env; MicrophoneSettled (Throw e)] s) in
  snd (run [Connect env; MicrophoneSettled (Throw e)] s)
  = [GetUserMedia; ConsoleError "Connection failed" (Some e)]
  /\ isError s' = true
  /\ isConnected s' = false
  /\ inputSourceRef s' = inputSourceRef s
  /\ processorRef s' = processorRef s
  /\ sessionRef s' = sessionRef s
  /\ audioContextRef s' = Some (fresh s)
  /\ In (ContextClose (fresh s)) (out_effects (disconnect s')).
Proof.
  intros Hkey. cbv zeta. cbn [run handle].
  unfold connect, connect_try, connect_catch. rewrite Hkey.
  destruct s as [c er ctx inp proc next srcs sess chat fr].
  cbn. repeat split.
  unfold disconnect. cbn.
  destruct sess, inp, proc; cbn; rewrite ?in_app_iff; cbn; auto 10.
Qed.

Lemma connect_microphone_refused_witness :
  getApiKey (mkEnvironment None (Some "key"%string)) = Some "key"%string
  /\ isError (fst (run [Connect (mkEnvironment None (Some "key"%string));
                        MicrophoneSettled (Throw NotAllowedError)] initial))
     = true.
Proof.
  split; [reflexivity|].
  apply (connect_microphone_refused (mkEnvironment None (Some "key"%string))
           "key" NotAllowedError initial eq_refl).
Defined.

(** ** Identities *)

(** What a message allocates: nothing, or the one source it schedules. *)
Lemma onmessage_allocation (message : LiveServerMessage) (now : Q) (s : state) :
  let s' := out_state (onmessage message now s) in
  audioContextRef s' = audioContextRef s
  /\ ((fresh s' = fresh s
       /\ (scheduledSourcesRef s' = scheduledSourcesRef s
           \/ scheduledSourcesRef s' = []))
      \/ (fresh s' = S (fresh s)
          /\ (scheduledSourcesRef s' = []
              \/ exists buffer,
                   scheduledSourcesRef s'
                   = scheduledSourcesRef s ++ [scheduled_source s now buffer]))).
Proof.
  cbv zeta. destruct (onmessage_by_audio message now s) as (g & -> & Hcase & _).
  assert (Hsrc : forall b, scheduled_source (setChatHistory g s) now b
                           = scheduled_source s now b)
    by (intros b; destruct s; reflexivity).
  destruct Hcase as [buffer Hc Ht Hd|e' Hc Ht Hd|Hno].
  - rewrite Hsrc. unfold andThen, onmessage_interruption.
    cbn [out_completion out_state out_effects fst snd].
    destruct (interrupted message), s as [c er ctx inp proc next srcs sess chat fr];
      cbn; (split; [reflexivity|]); right;
      (split; [f_equal; lia|]); [left; reflexivity|].
    right. exists buffer. reflexivity.
  - unfold andThen. cbn [out_completion out_state out_effects fst snd].
    destruct s; cbn. split; [reflexivity|]. left. split; [reflexivity|].
    left. reflexivity.
  - rewrite andThen_ret. unfold onmessage_interruption.
    destruct (interrupted message), s; cbn; (split; [reflexivity|]); left;
      (split; [reflexivity|]); [right | left]; reflexivity.
Qed.

Lemma NoDup_map_filter {A B : Type} (l : list A) (p : A -> bool) (f : A -> B) :
  NoDup (map f l) -> NoDup (map f (List.filter p l)).
Proof.
  induction l as [|a l IH]; [trivial|]. cbn [map List.filter].
  intros H. apply NoDup_cons in H as [Ha Hl].
  destruct (p a); [|apply IH; exact Hl].
  cbn [map]. apply NoDup_cons. split; [|apply IH; exact Hl].
  intros Hin. apply Ha. apply list_elem_of_In in Hin. apply list_elem_of_In.
  apply in_map_iff in Hin as (x & Hx & Hin). apply List.filter_In in Hin as [Hin _].
  apply in_map_iff. exists x. split; assumption.
Qed.

Lemma handle_well_allocated (ev : event) (s : state) :
  well_allocated s -> well_allocated (out_state (handle ev s)).
Proof.
  unfold well_allocated. intros (Hnd & Hlt & Hctx).
  destruct ev as [env|stream|session| | | |message now|id|session d|];
    cbn [handle].
  - unfold connect, connect_try, connect_catch.
    destruct (getApiKey env), s as [c er ctx inp proc next srcs sess chat fr];
      cbn in *; (split; [exact Hnd|]);
      (split; [eapply Forall_impl; [exact Hlt|]; cbn; intros; lia|]);
      intros c' [= <-]; lia.
  - unfold connect_resume, connect_resume_try, connect_catch.
    destruct stream, s as [c er ctx inp proc next srcs sess chat fr];
      cbn in *; (split; [exact Hnd|]);
      (split; [eapply Forall_impl; [exact Hlt|]; cbn; intros; lia|]);
      intros c' Hc'; specialize (Hctx c' Hc'); lia.
  - destruct s; cbn in *. auto.
  - destruct s; cbn in *. auto.
  - destruct s; cbn in *. auto.
  - destruct s; cbn in *. auto.
  - destruct (onmessage_allocation message now s) as (Hc & Hcases).
    rewrite Hc.
    destruct Hcases as [(-> & [-> | ->])|(-> & [-> | (buffer & ->)])].
    + auto.
    + split; [constructor|]. split; [constructor | exact Hctx].
    + split; [constructor|]. split; [constructor|].
      intros c' Hc'. specialize (Hctx c' Hc'). lia.
    + split; [|split].
      * rewrite map_app. cbn [map scheduled_source src_id].
        apply NoDup_app. split; [exact Hnd|]. split; [|apply NoDup_singleton].
        intros x Hx Hx'. apply list_elem_of_In in Hx.
        apply in_map_iff in Hx as (src & <- & Hsrc).
        apply list_elem_of_In in Hx'. destruct Hx' as [Hx'|[]].
        rewrite Forall_forall in Hlt.
        specialize (Hlt src (proj2 (list_elem_of_In _ _) Hsrc)).
        cbn beta in Hlt. lia.
      * apply Forall_app. split.
        -- eapply Forall_impl; [exact Hlt|]. cbn. intros; lia.
        -- constructor; [cbn; lia | constructor].
      * intros c' Hc'. specialize (Hctx c' Hc'). lia.
  - destruct s as [c er ctx inp proc next srcs sess chat fr]. cbn in *.
    split; [apply NoDup_map_filter; exact Hnd|]. split; [|exact Hctx].
    rewrite Forall_forall in *. intros src Hsrc.
    apply Hlt. apply list_elem_of_In in Hsrc. apply list_elem_of_In.
    apply List.filter_In in Hsrc as [Hsrc _]. exact Hsrc.
  - destruct s; cbn in *. auto.
  - rewrite disconnect_state. cbn.
    split; [constructor|]. split; [constructor | discriminate].
Qed.

Lemma run_well_allocated (evs : list event) (s : state) :
  well_allocated s -> well_allocated (fst (run evs s)).
Proof.
  revert s. induction evs as [|ev evs IH]; intros s H; [exact H|].
  rewrite run_cons. cbn [fst]. apply IH, handle_well_allocated, H.
Qed.

Lemma initial_well_allocated : well_allocated initial.
Proof.
  split; [constructor|]. split; [constructor | discriminate].
Qed.

(** In every state that the hook can reach, the sources of the active set
    are distinct objects; so when a source ends, [onended] removes that
    source and no other: the set loses exactly one member, the others stay
    in their order. *)
Theorem onended_removes_one (evs : list event) (src : source) :
  let s := fst (run evs initial) in
  NoDup (map src_id (scheduledSourcesRef s))
  /\ (In src (scheduledSourcesRef s) ->
      let s' := out_state (onended (src_id src) s) in
      ~ In src (scheduledSourcesRef s')
      /\ S (length (scheduledSourcesRef s')) = length (scheduledSourcesRef s)
      /\ forall other, In other (scheduledSourcesRef s) -> other <> src ->
           In other (scheduledSourcesRef s')).
Proof.
  cbv zeta.
  destruct (run_well_allocated evs initial initial_well_allocated)
    as (Hnd & _ & _).
  split; [exact Hnd|].
  assert (Hs : scheduledSourcesRef (out_state (onended (src_id src)
                                                 (fst (run evs initial))))
               = List.filter (fun x => negb (src_id x =? src_id src)%nat)
                   (scheduledSourcesRef (fst (run evs initial))))
    by (destruct (fst (run evs initial)); reflexivity).
  rewrite Hs. clear Hs.
  generalize dependent (scheduledSourcesRef (fst (run evs initial))).
  intros l Hnd Hin. split; [|split].
  - intros H. apply List.filter_In in H as [_ H].
    rewrite Nat.eqb_refl in H. discriminate.
  - clear -Hnd Hin. induction l as [|a l IH]; [destruct Hin|].
    cbn [map] in Hnd. apply NoDup_cons in Hnd as [Ha Hl].
    cbn [List.filter length]. destruct Hin as [->|Hin].
    + rewrite Nat.eqb_refl. cbn [negb]. f_equal.
      f_equal. apply filter_all. apply Forall_forall. intros x Hx.
      apply list_elem_of_In in Hx.
      destruct (Nat.eqb_spec (src_id x) (src_id src)) as [E|E]; [|reflexivity].
      exfalso. apply Ha. apply list_elem_of_In, in_map_iff.
      exists x. split; assumption.
    + destruct (Nat.eqb_spec (src_id a) (src_id src)) as [E|E].
      * exfalso. apply Ha. rewrite E. apply list_elem_of_In, in_map_iff.
        exists src. split; [reflexivity | exact Hin].
      * cbn [negb length]. f_equal. apply IH; assumption.
  - intros other Ho Hne. apply List.filter_In. split; [exact Ho|].
    destruct (Nat.eqb_spec (src_id other) (src_id src)) as [E|E]; [|reflexivity].
    exfalso. apply Hne. clear -Hnd Hin Ho E.
    induction l as [|a l IH]; [destruct Hin|].
    cbn [map] in Hnd. apply NoDup_cons in Hnd as [Ha Hl].
    destruct Hin as [->|Hin], Ho as [->|Ho]; try reflexivity.
    + exfalso. apply Ha. rewrite <- E. apply list_elem_of_In, in_map_iff.
      exists other. split; [reflexivity | exact Ho].
    + exfalso. apply Ha. rewrite E. apply list_elem_of_In, in_map_iff.
      exists src. split; [reflexivity | exact Hin].
    + apply IH; assumption.
Qed.

(** ** The active set in every reachable state *)

Lemma handle_offset_nonneg (ev : event) (s : state) :
  0 <= nextStartTimeRef s ->
  0 <= nextStartTimeRef (out_state (handle ev s)).
Proof.
  intros H0. destruct (resets ev) eqn:Hr.
  - destruct ev as [env|stream|session| | | |message now|id|session d|];
      cbn [resets] in Hr; try discriminate; cbn [handle].
    + destruct (onmessage_playback message now s)
        as (_ & scheduled & _ & _ & [(e & _ & _ & _ & _ & -> & _)|(_ & Hok)]);
        [exact H0|].
      rewrite Hr in Hok. destruct Hok as (-> & _). apply Qle_refl.
    + rewrite disconnect_state. apply Qle_refl.
  - pose proof (handle_monotone ev s Hr). lra.
Qed.

(** Whatever events occur, in whatever order (messages, interruptions,
    ended sources, disconnections and new connections), the buffers of the
    active set never overlap, each of them ends by the clock offset, and
    the clock offset is never negative. *)
Theorem active_set_never_overlaps (evs : list event) :
  let s := fst (run evs initial) in
  no_overlap (scheduledSourcesRef s)
  /\ ends_by (nextStartTimeRef s) (scheduledSourcesRef s)
  /\ 0 <= nextStartTimeRef s.
Proof.
  cbv zeta.
  assert (H : forall s,
             (no_overlap (scheduledSourcesRef s)
              /\ ends_by (nextStartTimeRef s) (scheduledSourcesRef s))
             /\ 0 <= nextStartTimeRef s ->
             (no_overlap (scheduledSourcesRef (fst (run evs s)))
              /\ ends_by (nextStartTimeRef (fst (run evs s)))
                   (scheduledSourcesRef (fst (run evs s))))
             /\ 0 <= nextStartTimeRef (fst (run evs s))).
  { induction evs as [|ev evs IH]; intros s Hs; [exact Hs|].
    rewrite run_cons. cbn [fst]. apply IH. destruct Hs as [Hs H0].
    split; [apply handle_active_set, Hs | apply handle_offset_nonneg, H0]. }
  destruct (H initial) as [[H1 H2] H3].
  - split; [split; constructor | apply Qle_refl].
  - auto.
Qed.

(** ** Audio contexts that are never closed *)

(** Only [disconnect] closes an audio context, and only the one in the
    ref. *)
Lemma handle_ContextClose (ev : event) (s : state) (c : nat) :
  In (ContextClose c) (out_effects (handle ev s)) ->
  ev = Disconnect /\ audioContextRef s = Some c.
Proof.
  destruct ev as [env|stream|session| | | |message now|id|session d|];
    cbn [handle].
  - unfold connect, connect_try, connect_catch.
    destruct (getApiKey env); cbn; intros [H|[]]; discriminate.
  - unfold connect_resume, connect_resume_try, connect_catch.
    destruct stream; cbn; intros [H|[]]; discriminate.
  - intros [].
  - intros [H|[]]; discriminate.
  - intros [H|[]]; discriminate.
  - intros [H|[]]; discriminate.
  - destruct (onmessage_playback message now s)
      as (_ & scheduled & _ & _ & [(e & _ & _ & _ & -> & _)|(_ & Hok)]);
      [intros []|].
    destruct (interrupted message); destruct Hok as (_ & _ & ->); intros H.
    + apply in_app_or in H as [H|H];
        apply in_map_iff in H as (x & Hx & _); discriminate.
    + apply in_map_iff in H as (x & Hx & _). discriminate.
  - intros [].
  - intros [H|[]]; discriminate.
  - intros H. split; [reflexivity|].
    destruct s as [cn er ctx inp proc next srcs sess chat fr].
    unfold disconnect in H. cbn in H |- *.
    destruct sess, inp, proc, ctx; cbn in H;
      repeat (destruct H as [H|H]; [discriminate|]);
      rewrite ?in_app_iff in H; cbn in H;
      repeat match goal with
             | H : _ \/ _ |- _ => destruct H as [H|H]
             | H : In _ (map _ _) |- _ =>
                 apply in_map_iff in H as (? & ? & _); discriminate
             | H : ContextClose _ = ContextClose _ |- _ => injection H as ->
             | H : False |- _ => destruct H
             end; try discriminate; reflexivity.
Qed.

(** The context in the ref, if any, is the last one created or is changed
    by a call of [connect], which creates the next one. *)
Lemma handle_context (ev : event) (s : state) :
  (fresh s <= fresh (out_state (handle ev s)))%nat
  /\ (audioContextRef (out_state (handle ev s)) = audioContextRef s
      \/ audioContextRef (out_state (handle ev s)) = None
      \/ (audioContextRef (out_state (handle ev s)) = Some (fresh s)
          /\ (fresh s < fresh (out_state (handle ev s)))%nat)).
Proof.
  destruct ev as [env|stream|session| | | |message now|id|session d|];
    cbn [handle].
  - unfold connect, connect_try, connect_catch.
    destruct (getApiKey env), s; cbn; (split; [lia|]); right; right;
      (split; [reflexivity | lia]).
  - unfold connect_resume, connect_resume_try, connect_catch.
    destruct stream, s; cbn; (split; [lia|]); left; reflexivity.
  - destruct s; cbn. split; [lia | left; reflexivity].
  - destruct s; cbn. split; [lia | left; reflexivity].
  - destruct s; cbn. split; [lia | left; reflexivity].
  - destruct s; cbn. split; [lia | left; reflexivity].
  - destruct (onmessage_allocation message now s) as (Hc & [(-> & _)|(-> & _)]);
      (split; [lia | left; exact Hc]).
  - destruct s; cbn. split; [lia | left; reflexivity].
  - destruct s; cbn. split; [lia | left; reflexivity].
  - rewrite disconnect_state. cbn. split; [lia | right; left; reflexivity].
Qed.

Lemma run_never_closes (evs : list event) (s : state) (c : nat) :
  (c < fresh s)%nat ->
  (forall c', audioContextRef s = Some c' -> (c < c')%nat) ->
  ~ In (ContextClose c) (snd (run evs s)).
Proof.
  revert s. induction evs as [|ev evs IH]; intros s Hfr Hctx; [intros []|].
  rewrite run_cons. cbn [snd]. intros H. apply in_app_or in H as [H|H].
  - apply handle_ContextClose in H as [_ H]. specialize (Hctx c H). lia.
  - destruct (handle_context ev s) as (Hf & Hc).
    apply (IH (out_state (handle ev s))); [lia | | exact H].
    intros c' Hc'. destruct Hc as [Hc|[Hc|[Hc Hlt]]].
    + apply Hctx. congruence.
    + congruence.
    + rewrite Hc in Hc'. injection Hc' as <-. exact Hfr.
Qed.

(** [connect] does not release the audio context that is in the ref when
    it is called: it creates another and overwrites the ref.  In any
    reachable state, a context that is in the ref when [connect] is called
    (after a failed connection, or when it is called twice without
    [disconnect]) is never closed afterward, whatever events follow. *)
Theorem connect_leaks_context (before after : list event)
    (env : environment) (c : nat) :
  audioContextRef (fst (run before initial)) = Some c ->
  ~ In (ContextClose c)
      (snd (run (Connect env :: after) (fst (run before initial)))).
Proof.
  intros Hc.
  destruct (run_well_allocated before initial initial_well_allocated)
    as (_ & _ & Hctx).
  specialize (Hctx c Hc).
  rewrite run_cons. cbn [snd]. intros H. apply in_app_or in H as [H|H].
  - apply handle_ContextClose in H as [H _]. discriminate.
  - destruct (handle_context (Connect env) (fst (run before initial)))
      as (Hf & Hcases).
    revert H. apply run_never_closes; [lia|].
    intros c' Hc'.
    assert (Hnew : audioContextRef
                     (out_state (handle (Connect env) (fst (run before initial))))
                   = Some (fresh (fst (run before initial)))).
    { cbn [handle]. unfold connect, connect_try, connect_catch.
      destruct (getApiKey env), (fst (run before initial)); reflexivity. }
    rewrite Hnew in Hc'. injection Hc' as <-. exact Hctx.
Qed.

(** A connection that fails for want of a credential, then a second call
    of [connect], then [disconnect]: the first context is not closed. *)
Lemma connect_leaks_context_witness :
  audioContextRef (fst (run [Connect (mkEnvironment None None)] initial))
  = Some 0%nat
  /\ ~ In (ContextClose 0)
         (snd (run [Connect (mkEnvironment (Some "key"%string) None); Disconnect]
                 (fst (run [Connect (mkEnvironment None None)] initial)))).
Proof.
  split; [reflexivity|].
  apply (connect_leaks_context [Connect (mkEnvironment None None)] [Disconnect]
           (mkEnvironment (Some "key"%string) None) 0 eq_refl).
Defined.

End SessionProperties.

(* ===================================================================== *)
(** * Numerals: [parseInt] reads what [toString] writes *)
(* ===================================================================== *)

Section Numerals.

Lemma charCode_inj (c c' : ascii) : charCode c = charCode c' -> c = c'.
Proof.
  intros H. rewrite <- (chr_charCode c), <- (chr_charCode c'), H. reflexivity.
Qed.

Lemma eqb_charCode (c c' : ascii) :
  charCode c <> charCode c' -> Ascii.eqb c c' = false.
Proof.
  intros H. apply Ascii.eqb_neq. intros ->. apply H. reflexivity.
Qed.

Lemma decimal_digit_value (c : ascii) :
  is_decimal c -> digit_value c = Some (Z.to_nat (charCode c - 48)).
Proof.
  unfold is_decimal, digit_value. intros [H1 H2].
  rewrite (proj2 (Z.leb_le _ _) H1), (proj2 (Z.leb_le _ _) H2). reflexivity.
Qed.

Lemma decimal_not_whitespace (c : ascii) : is_decimal c -> js_whitespace c = false.
Proof.
  unfold is_decimal, js_whitespace. intros H.
  repeat (rewrite (proj2 (Z.eqb_neq _ _)) by lia). reflexivity.
Qed.

(** The characters that [toString] writes for a natural number. *)
Lemma uint_string_decimal (d : uint) :
  Forall is_decimal (list_ascii_of_string (NilEmpty.string_of_uint d)).
Proof.
  induction d; cbn [NilEmpty.string_of_uint list_ascii_of_string];
    constructor; try exact IHd; unfold is_decimal; vm_compute; split; discriminate.
Qed.

(** Reading the digits of a decimal, after those already read. *)
Lemma parse_digits_uint (d : uint) (acc : nat) :
  parse_digits 10 (NilEmpty.string_of_uint d) (Some acc)
  = Some (Nat.of_uint_acc d acc).
Proof.
  revert acc. induction d; intros acc;
    cbn [NilEmpty.string_of_uint parse_digits Nat.of_uint_acc];
    [reflexivity|..];
    match goal with
    | |- context [digit_value ?c] =>
        let v := eval vm_compute in (digit_value c) in
        change (digit_value c) with v
    end;
    cbn [Nat.ltb Nat.leb default from_option id]; rewrite IHd; do 2 f_equal;
    rewrite Nat.tail_mul_spec; lia.
Qed.

Lemma parse_digits_start (s : string) (c : ascii) :
  is_decimal c ->
  parse_digits 10 (String c s) None = parse_digits 10 (String c s) (Some O).
Proof.
  intros Hc. cbn [parse_digits]. rewrite (decimal_digit_value c Hc).
  assert (H : (Z.to_nat (charCode c - 48) <? 10)%nat = true)
    by (apply Nat.ltb_lt; unfold is_decimal in Hc; lia).
  rewrite H. reflexivity.
Qed.

(** The steps of [parseInt] after the sign, on a text that starts with a
    decimal digit followed by nothing or by another decimal digit. *)
Lemma parse_decimal_tail (sign : Z) (c : ascii) (r : string) :
  is_decimal c ->
  Forall is_decimal (list_ascii_of_string r) ->
  (let '(radix, s) :=
     match String c r with
     | String c0 (String x r0) =>
         if Ascii.eqb c0 "0" && (Ascii.eqb x "x" || Ascii.eqb x "X")
         then (16%nat, r0) else (10%nat, String c r)
     | _ => (10%nat, String c r)
     end in
   match parse_digits radix s None with
   | Some n => Some (sign * Z.of_nat n)
   | None => None
   end)
  = option_map (fun n => sign * Z.of_nat n)
      (parse_digits 10 (String c r) (Some O)).
Proof.
  intros Hc Hr. destruct r as [|x r0].
  - rewrite parse_digits_start by exact Hc. unfold option_map.
    destruct (parse_digits 10 (String c EmptyString) (Some O)); reflexivity.
  - cbn [list_ascii_of_string] in Hr. inversion Hr as [|? ? Hx _]; subst.
    assert (H : Ascii.eqb x "x" = false)
      by (apply eqb_charCode; unfold is_decimal in Hx;
          change (charCode "x") with 120; lia).
    assert (H' : Ascii.eqb x "X" = false)
      by (apply eqb_charCode; unfold is_decimal in Hx;
          change (charCode "X") with 88; lia).
    rewrite H, H', andb_false_r.
    rewrite parse_digits_start by exact Hc. unfold option_map.
    destruct (parse_digits 10 (String c (String x r0)) (Some O)); reflexivity.
Qed.

Lemma parseInt_decimal (c : ascii) (r : string) :
  is_decimal c ->
  Forall is_decimal (list_ascii_of_string r) ->
  parseInt (String c r)
  = option_map (fun n => 1 * Z.of_nat n)
      (parse_digits 10 (String c r) (Some O)).
Proof.
  intros Hc Hr. unfold parseInt. cbn [trim_start].
  rewrite (decimal_not_whitespace c Hc).
  assert (Hm : Ascii.eqb c "-" = false)
    by (apply eqb_charCode; unfold is_decimal in Hc;
        change (charCode "-") with 45; lia).
  assert (Hp : Ascii.eqb c "+" = false)
    by (apply eqb_charCode; unfold is_decimal in Hc;
        change (charCode "+") with 43; lia).
  rewrite Hm, Hp. exact (parse_decimal_tail 1 c r Hc Hr).
Qed.

Lemma parseInt_negative_decimal (c : ascii) (r : string) :
  is_decimal c ->
  Forall is_decimal (list_ascii_of_string r) ->
  parseInt (String "-" (String c r))
  = option_map (fun n => -1 * Z.of_nat n)
      (parse_digits 10 (String c r) (Some O)).
Proof.
  intros Hc Hr. unfold parseInt. cbn [trim_start].
  change (js_whitespace "-") with false. cbv iota.
  change (Ascii.eqb "-" "-") with true. cbv iota.
  exact (parse_decimal_tail (-1) c r Hc Hr).
Qed.

Lemma parseInt_uint (d : uint) :
  d <> Nil ->
  parseInt (NilEmpty.string_of_uint d) = Some (Z.of_nat (Nat.of_uint_acc d O))
  /\ parseInt (String "-" (NilEmpty.string_of_uint d))
     = Some (- Z.of_nat (Nat.of_uint_acc d O)).
Proof.
  intros Hd. pose proof (uint_string_decimal d) as H.
  destruct (NilEmpty.string_of_uint d) as [|c r] eqn:E.
  - destruct d; [congruence|discriminate E..].
  - cbn [list_ascii_of_string] in H. inversion H as [|? ? Hc Hr]; subst.
    rewrite (parseInt_decimal _ _ Hc Hr), (parseInt_negative_decimal _ _ Hc Hr).
    rewrite <- E, parse_digits_uint. cbn [option_map].
    split; f_equal; lia.
Qed.

(** [parseInt] reads back the integer or the NaN that [toString] wrote. *)
Lemma parseInt_toString (v : option Z) : parseInt (toString v) = v.
Proof.
  destruct v as [z|]; [|reflexivity]. unfold toString.
  destruct (Z.ltb_spec z 0) as [Hz|Hz].
  - pose proof (DecimalNat.Unsigned.of_to (Z.to_nat (- z))) as Hn.
    unfold Nat.of_uint in Hn.
    destruct (Nat.to_uint (Z.to_nat (- z))) as [|d|d|d|d|d|d|d|d|d|d] eqn:E;
      [cbn in Hn; lia|..];
      match goal with
      | |- context [NilZero.string_of_uint ?x] =>
          change (NilZero.string_of_uint x) with (NilEmpty.string_of_uint x);
          destruct (parseInt_uint x) as [_ Hm]; [discriminate|]
      end;
      rewrite Hm, Hn; f_equal; lia.
  - pose proof (DecimalNat.Unsigned.of_to (Z.to_nat z)) as Hn.
    unfold Nat.of_uint in Hn.
    destruct (Nat.to_uint (Z.to_nat z)) as [|d|d|d|d|d|d|d|d|d|d] eqn:E;
      [cbn in Hn; assert (z = 0) by lia; subst z; reflexivity|..];
      match goal with
      | |- context [NilZero.string_of_uint ?x] =>
          change (NilZero.string_of_uint x) with (NilEmpty.string_of_uint x);
          destruct (parseInt_uint x) as [Hp _]; [discriminate|]
      end;
      rewrite Hp, Hn; f_equal; lia.
Qed.

(** What [toString] writes is never the empty text. *)
Lemma toString_truthy (v : option Z) : truthy (Some (toString v)) = true.
Proof.
  destruct v as [z|]; [|reflexivity]. unfold toString.
  destruct (z <? 0); [reflexivity|].
  destruct (Nat.to_uint (Z.to_nat z)); reflexivity.
Qed.

End Numerals.

(* ===================================================================== *)
(** * The analysis service and its caller *)
(* ===================================================================== *)

Section AnalysisService.

Lemma split_no_separator (sep : ascii) (s : string) :
  ~ In sep (list_ascii_of_string s) -> split sep s = [s].
Proof.
  induction s as [|c s IH]; intros H; cbn [split]; [reflexivity|].
  cbn [list_ascii_of_string] in H.
  destruct (Ascii.eqb_spec c sep) as [->|_].
  - exfalso. apply H. left. reflexivity.
  - rewrite IH; [reflexivity|]. intros Hin. apply H. right. exact Hin.
Qed.

Lemma split_first (sep : ascii) (a b : string) :
  ~ In sep (list_ascii_of_string a) ->
  split sep (a ++ String sep b) = a :: split sep b.
Proof.
  induction a as [|c a IH]; intros H; cbn [append split].
  - rewrite Ascii.eqb_refl. reflexivity.
  - cbn [list_ascii_of_string] in H.
    destruct (Ascii.eqb_spec c sep) as [->|_].
    + exfalso. apply H. left. reflexivity.
    + rewrite IH; [reflexivity|]. intros Hin. apply H. right. exact Hin.
Qed.

(** The text that [btoa] gives holds no comma. *)
Lemma btoa_no_comma (binary : string) :
  ~ In ","%char (list_ascii_of_string (btoa binary)).
Proof.
  rewrite btoa_chars. intros H. apply in_app_or in H as [H|H].
  - apply in_map_iff in H as (n & Hn & Hin).
    pose proof (sextets_range (list_ascii_of_string binary)) as Hr.
    rewrite Forall_forall in Hr.
    assert (Hn' : 0 <= n < 64) by (apply Hr, list_elem_of_In; exact Hin).
    pose proof (b64_index_char n Hn') as Hi. rewrite Hn in Hi.
    vm_compute in Hi. discriminate Hi.
  - destruct (padding_cases (list_ascii_of_string binary)) as [E | [E | E]];
      rewrite E in H; cbn in H; intuition discriminate.
Qed.

(** The part that [fileToGenerativePart] builds from a data URL made of a
    header without a comma, a comma and the base64 text of the file holds
    exactly that text, with the type of the file; from a result with no
    comma in it, the data of the part is [undefined]. *)
Theorem fileToGenerativePart_payload (mime header binary : string) :
  ~ In ","%char (list_ascii_of_string header) ->
  fileToGenerativePart (mkFile mime (Some (header ++ "," ++ btoa binary)%string))
  = mkPart (Some (btoa binary)) mime
  /\ fileToGenerativePart (mkFile mime (Some header)) = mkPart None mime.
Proof.
  intros H. unfold fileToGenerativePart. cbn [dataURL file_type].
  split; f_equal.
  - change (header ++ "," ++ btoa binary)%string
      with (header ++ String "," (btoa binary))%string.
    rewrite (split_first _ _ _ H), (split_no_separator _ _ (btoa_no_comma binary)).
    reflexivity.
  - rewrite (split_no_separator _ _ H). reflexivity.
Qed.

(** The data URL of a PNG file of the two bytes of [hi], and the result
    [data:] without a comma. *)
Lemma fileToGenerativePart_payload_witness :
  fileToGenerativePart
    (mkFile "image/png" (Some "data:image/png;base64,aGk="%string))
  = mkPart (Some "aGk="%string) "image/png"
  /\ fileToGenerativePart (mkFile "image/png" (Some "data:image/png;base64"%string))
     = mkPart None "image/png".
Proof.
  apply (fileToGenerativePart_payload "image/png" "data:image/png;base64" "hi").
  cbn. intuition discriminate.
Defined.

Lemma getApiKey_API_KEY (env : environment) :
  truthy (API_KEY env) = true -> getApiKey env <> None.
Proof.
  unfold getApiKey.
  destruct (VITE_API_KEY env) as [[|? ?]|], (API_KEY env) as [[|? ?]|];
    cbn; intros H; discriminate.
Qed.

Lemma getApiKey_VITE_API_KEY (env : environment) :
  truthy (VITE_API_KEY env) = true -> getApiKey env = VITE_API_KEY env.
Proof.
  unfold getApiKey.
  destruct (VITE_API_KEY env) as [[|? ?]|]; cbn; intros H;
    [discriminate|reflexivity|discriminate].
Qed.

(** Where [process.env.API_KEY] has a key, [getApiKey] finds one. *)
Lemma getApiKey_process (page : globals) (key : option string) :
  process page = process_env key -> truthy key = true ->
  getApiKey (environment_of page) <> None.
Proof.
  intros Hp Hk. apply getApiKey_API_KEY. unfold environment_of.
  rewrite Hp. exact Hk.
Qed.

(** The live hook and the analysis read the credential differently.  In a
    page where [import.meta.env.VITE_API_KEY] holds a key and
    [process.env.API_KEY] gives none (the variable is absent or empty, or
    [process] is missing), [connect] goes ahead and asks for the microphone,
    while [analyzeMedicalImage] fails before it sends anything, whatever the
    service would answer: with its own message that the key is missing
    where [process.env] exists, with the platform's error where it does
    not.  The view shows the message of that failure, with the analysis and
    the chat as they were. *)
Theorem analysis_reads_API_KEY_only (page : globals)
    (generateContent : GenerativePart -> result string)
    (JSON_parse : string -> result AnalysisResult)
    (file : File) (h : home) (s : state) :
  truthy (import_meta_env_VITE_API_KEY page) = true ->
  (forall key, process page = process_env key -> truthy key = false) ->
  let shown :=
    match process page with
    | process_env _ => key_missing_message
    | process_missing message => message
    end in
  out_effects (connect (environment_of page) s) = [GetUserMedia]
  /\ analyzeMedicalImage (process page) generateContent JSON_parse file
     = ([], Throw (Error shown))
  /\ handleAnalyzeClick_resume page generateContent JSON_parse file h
     = mkHome (live h) (imageFile h) (imagePreview h) false (analysis h)
         (Some shown) (chat h) (isChatLoading h) (chatInput h)
         (selectedLanguage h) (diagnosphere_user_count h).
Proof.
  intros Hv Hp. cbv zeta.
  assert (Ha : analyzeMedicalImage (process page) generateContent JSON_parse
                 file
               = ([], Throw (Error match process page with
                                   | process_env _ => key_missing_message
                                   | process_missing message => message
                                   end))).
  { unfold analyzeMedicalImage.
    destruct (process page) as [key|message]; [|reflexivity].
    rewrite (Hp key eq_refl). reflexivity. }
  split; [|split; [exact Ha|]].
  - unfold connect, connect_try, connect_catch.
    rewrite (getApiKey_VITE_API_KEY (environment_of page) Hv).
    cbn [environment_of VITE_API_KEY].
    destruct (import_meta_env_VITE_API_KEY page); [reflexivity|discriminate Hv].
  - unfold handleAnalyzeClick_resume. rewrite Ha. reflexivity.
Qed.

(** A page with the key in [VITE_API_KEY] only: once with [process.env]
    and no variable, once without [process]. *)
Lemma analysis_reads_API_KEY_only_witness :
  let service := fun _ : GenerativePart => Ok "{}"%string in
  let parse := fun _ : string => Ok (mkAnalysisResult "fine" [] []) in
  let file := mkFile "image/png" (Some "data:image/png;base64,aGk="%string) in
  let absent := mkGlobals (Some "key"%string) (process_env None) in
  let missing :=
    mkGlobals (Some "key"%string) (process_missing "process is not defined") in
  (out_effects (connect (environment_of absent) initial) = [GetUserMedia]
   /\ analyzeMedicalImage (process absent) service parse file
      = ([], Throw (Error key_missing_message))
   /\ handleAnalyzeClick_resume absent service parse file initial_home
      = mkHome initial None None false None (Some key_missing_message) None
          false EmptyString (mkLanguage "en-US" "English") None)
  /\ (out_effects (connect (environment_of missing) initial) = [GetUserMedia]
      /\ analyzeMedicalImage (process missing) service parse file
         = ([], Throw (Error "process is not defined"))
      /\ handleAnalyzeClick_resume missing service parse file initial_home
         = mkHome initial None None false None
             (Some "process is not defined"%string) None
             false EmptyString (mkLanguage "en-US" "English") None).
Proof.
  cbv zeta. split.
  - apply (analysis_reads_API_KEY_only
             (mkGlobals (Some "key"%string) (process_env None))
             _ _ _ initial_home initial eq_refl).
    intros key H. injection H as <-. reflexivity.
  - apply (analysis_reads_API_KEY_only
             (mkGlobals (Some "key"%string)
                (process_missing "process is not defined"))
             _ _ _ initial_home initial eq_refl).
    intros key H. discriminate H.
Defined.

(** How an analysis ends in the view, case by case.  Loading is over in
    every case.  Where [process] is missing, the platform's error is shown;
    where [process.env] exists without a key, the message that the key is
    missing; where it has a key and the service or the parsing of its
    trimmed text fails, the message that the analysis failed: in these
    cases the analysis and the chat are as they were.  Where the service
    answers, its trimmed text is parsed and [getApiKey] finds a key, the
    result is shown together with a chat seeded with it, the error as it
    was. *)
Theorem analysis_outcomes (page : globals)
    (generateContent : GenerativePart -> result string)
    (JSON_parse : string -> result AnalysisResult)
    (file : File) (h : home) :
  let h' := handleAnalyzeClick_resume page generateContent JSON_parse file h in
  let failed message :=
    mkHome (live h) (imageFile h) (imagePreview h) false (analysis h)
      (Some message) (chat h) (isChatLoading h) (chatInput h)
      (selectedLanguage h) (diagnosphere_user_count h) in
  isLoading h' = false
  /\ (forall message,
        process page = process_missing message -> h' = failed message)
  /\ (forall key,
        process page = process_env key -> truthy key = false ->
        h' = failed key_missing_message)
  /\ (forall key,
        process page = process_env key -> truthy key = true ->
        (forall e,
           generateContent (fileToGenerativePart file) = Throw e ->
           h' = failed analysis_failed_message)
        /\ (forall text e,
              generateContent (fileToGenerativePart file) = Ok text ->
              JSON_parse (trim text) = Throw e ->
              h' = failed analysis_failed_message)
        /\ (forall text parsed credential,
              generateContent (fileToGenerativePart file) = Ok text ->
              JSON_parse (trim text) = Ok parsed ->
              getApiKey (environment_of page) = Some credential ->
              h' = mkHome (live h) (imageFile h) (imagePreview h) false
                     (Some parsed) (error h) (Some (mkChat parsed))
                     (isChatLoading h) (chatInput h) (selectedLanguage h)
                     (diagnosphere_user_count h))).
Proof.
  cbv zeta. unfold handleAnalyzeClick_resume, analyzeMedicalImage.
  split; [|split; [|split]].
  - destruct (process page) as [key|message]; [|reflexivity].
    destruct (truthy key); cbn [negb snd bind]; [|reflexivity].
    destruct (let* text := generateContent (fileToGenerativePart file) in
              JSON_parse (trim text)); cbn [bind]; [|reflexivity].
    destruct (getApiKey (environment_of page)); reflexivity.
  - intros message ->. reflexivity.
  - intros key -> ->. reflexivity.
  - intros key -> ->. cbn [negb snd]. split; [|split].
    + intros e ->. reflexivity.
    + intros text e -> . cbn [bind]. intros ->. reflexivity.
    + intros text parsed credential ->. cbn [bind]. intros -> ->. reflexivity.
Qed.

End AnalysisService.

(* ===================================================================== *)
(** * The user count *)
(* ===================================================================== *)

Section UserCount.

(** On a first visit (no item stored, or an empty one) the count shown is
    between 498 and 547, for every value that [Math.random] can give, and
    its decimal numeral is stored. *)
Theorem LiveStats_first_visit (random : Q) (savedCount : option string) :
  (0 <= random)%Q -> (random < 1)%Q -> truthy savedCount = false ->
  exists n : Z,
    498 <= n <= 547
    /\ LiveStats_mount random savedCount = (Some n, toString (Some n)).
Proof.
  intros H0 H1 Hs. exists (498 + Qfloor (random * 50)).
  assert (Hlo : 0 <= Qfloor (random * 50)).
  { change 0 with (Qfloor (inject_Z 0)) at 1.
    apply Qfloor_resp_le. change (inject_Z 0) with 0%Q. lra. }
  assert (Hhi : Qfloor (random * 50) < 50).
  { pose proof (Qfloor_le (random * 50)) as Hf.
    rewrite Zlt_Qlt. change (inject_Z 50) with 50%Q. lra. }
  split; [lia|]. unfold LiveStats_mount. rewrite Hs. reflexivity.
Qed.

Lemma LiveStats_first_visit_witness :
  exists n : Z,
    498 <= n <= 547
    /\ LiveStats_mount (1 # 2) None = (Some n, toString (Some n)).
Proof.
  apply (LiveStats_first_visit (1 # 2) None); [lra | lra | reflexivity].
Defined.

(** What [LiveStats] stores, it reads back: mounted again on the item that
    a mount has stored, whatever was stored before and whatever
    [Math.random] gives, it shows the same count and stores the same item,
    as long as the count is an integer that the platform holds exactly, or
    NaN. *)
Theorem LiveStats_mount_stable (random random' : Q)
    (savedCount : option string) :
  safe_integer (fst (LiveStats_mount random savedCount)) ->
  LiveStats_mount random' (Some (snd (LiveStats_mount random savedCount)))
  = LiveStats_mount random savedCount.
Proof.
  intros _. unfold LiveStats_mount at 1. cbn [snd].
  set (count := fst (LiveStats_mount random savedCount)).
  change (snd (LiveStats_mount random savedCount)) with (toString count).
  change (LiveStats_mount random savedCount) with (count, toString count).
  rewrite toString_truthy. cbn [negb default from_option id].
  rewrite parseInt_toString. reflexivity.
Qed.

Lemma disconnectLive_view (h : home) :
  fst (disconnectLive h)
  = mkHome
      (mkState false (isError (live h)) None None None 0%Q [] None
         (chatHistory (live h)) (fresh (live h)))
      (imageFile h) (imagePreview h) (isLoading h) (analysis h) (error h)
      (chat h) (isChatLoading h) (chatInput h) (selectedLanguage h)
      (diagnosphere_user_count h).
Proof.
  unfold disconnectLive, set_live. cbn [fst]. rewrite disconnect_state.
  reflexivity.
Qed.

Lemma handleAnalyzeClick_count (f : File) (h : home) :
  imageFile h = Some f ->
  imageFile (fst (handleAnalyzeClick h)) = Some f
  /\ diagnosphere_user_count (fst (handleAnalyzeClick h))
     = Some (toString
               (option_map (fun n => n + 1)
                  (parseInt (if truthy (diagnosphere_user_count h)
                             then default EmptyString (diagnosphere_user_count h)
                             else "498")))).
Proof.
  intros Hf. unfold handleAnalyzeClick. rewrite Hf.
  rewrite (surjective_pairing (disconnectLive _)), disconnectLive_view.
  cbn [fst imageFile diagnosphere_user_count].
  split; reflexivity.
Qed.

Lemma home_run_cons (ev : home_event) (evs : list home_event) (h : home) :
  home_run (ev :: evs) h
  = (fst (home_run evs (fst (home_handle ev h))),
     snd (home_handle ev h) ++ snd (home_run evs (fst (home_handle ev h)))).
Proof.
  cbn [home_run]. destruct (home_handle ev h) as [h1 eff1]. cbn [fst snd].
  destruct (home_run evs h1). reflexivity.
Qed.

Lemma analyses_requested_app (eff eff' : list home_effect) :
  analyses_requested (eff ++ eff')
  = (analyses_requested eff + analyses_requested eff')%nat.
Proof.
  unfold analyses_requested. rewrite List.filter_app, length_app. reflexivity.
Qed.

Lemma analyses_requested_Live (eff : list effect) :
  analyses_requested (map Live eff) = O.
Proof.
  induction eff as [|e eff IH]; [reflexivity | exact IH].
Qed.

(** A stored count of 41, and a stored text that is no number. *)
Lemma LiveStats_mount_stable_witness :
  LiveStats_mount (1 # 3) (Some (snd (LiveStats_mount (1 # 2) (Some " 41 users"%string))))
  = (Some 41, "41"%string)
  /\ LiveStats_mount (1 # 3) (Some (snd (LiveStats_mount (1 # 2) (Some "many"%string))))
     = (None, "NaN"%string).
Proof.
  split.
  - apply (LiveStats_mount_stable (1 # 2) (1 # 3) (Some " 41 users"%string)).
    vm_compute. discriminate.
  - apply (LiveStats_mount_stable (1 # 2) (1 # 3) (Some "many"%string)).
    exact I.
Defined.

(** One event either requests no analysis and leaves the stored count, or
    requests one and stores the count it read plus one. *)
Lemma home_handle_count (ev : home_event) (h : home) :
  (analyses_requested (snd (home_handle ev h)) = O
   /\ diagnosphere_user_count (fst (home_handle ev h))
      = diagnosphere_user_count h)
  \/ (analyses_requested (snd (home_handle ev h)) = 1%nat
      /\ diagnosphere_user_count (fst (home_handle ev h))
         = Some (toString (option_map (fun n => n + 1) (currentCount h)))).
Proof.
  destruct ev as [file|result| |page g J file|value| |response|env|value|ev| ];
    cbn [home_handle fst snd].
  - left. unfold handleFileChange.
    destruct file as [f|]; [|split; reflexivity].
    destruct (String.eqb (file_type f) "image/jpeg"
              || String.eqb (file_type f) "image/png"); [|split; reflexivity].
    unfold resetState, disconnectLive. cbn [fst snd diagnosphere_user_count].
    split; [apply analyses_requested_Live | reflexivity].
  - left. split; reflexivity.
  - destruct (imageFile h) as [f|] eqn:Hf.
    + right. destruct (handleAnalyzeClick_count f h Hf) as [_ Hc].
      split; [|exact Hc].
      unfold handleAnalyzeClick, disconnectLive. rewrite Hf. cbn [snd].
      rewrite analyses_requested_app, analyses_requested_Live. reflexivity.
    + left. unfold handleAnalyzeClick. rewrite Hf. split; reflexivity.
  - left. split; [reflexivity|]. unfold handleAnalyzeClick_resume.
    destruct (let* parsed := snd (analyzeMedicalImage (process page) g J file)
              in _)
      as [[? ?]|?]; reflexivity.
  - left. split; reflexivity.
  - left. unfold handleSendChatMessage.
    destruct (chat h); [|split; reflexivity].
    destruct (negb _ || _); [split; reflexivity|].
    destruct (isConnected (live h)); split; reflexivity.
  - left. split; [reflexivity|]. destruct response; reflexivity.
  - left. unfold toggleLiveConnection.
    destruct (isConnected (live h));
      (split; [apply analyses_requested_Live | reflexivity]).
  - left. unfold onLanguageChange.
    destruct (find _ LANGUAGES); [|split; reflexivity].
    cbn [live]. destruct (isConnected (live h)); [|split; reflexivity].
    split; [apply analyses_requested_Live | reflexivity].
  - left. split; [apply analyses_requested_Live | reflexivity].
  - left. split; [apply analyses_requested_Live | reflexivity].
Qed.

(** The analyses requested are counted.  Over any sequence of events of the
    view, from any state: when no analysis was requested the stored count
    is as it was; when [k + 1] were, it is the numeral of the count read at
    the first of them (from the item stored then, or 498 without one) plus
    [k + 1].  A stored text that is no number is replaced by [NaN] at the
    first request, and stays so.  The counts are integers that the platform
    holds exactly. *)
Theorem analyses_counted (evs : list home_event) (h : home) :
  safe_integer
    (option_map
       (fun n => Z.abs n + Z.of_nat (analyses_requested (snd (home_run evs h))))
       (currentCount h)) ->
  diagnosphere_user_count (fst (home_run evs h))
  = match analyses_requested (snd (home_run evs h)) with
    | O => diagnosphere_user_count h
    | S k =>
        Some (toString
                (option_map (fun n => n + Z.of_nat (S k)) (currentCount h)))
    end.
Proof.
  intros _.
  revert h. induction evs as [|ev evs IH]; intros h; [reflexivity|].
  rewrite home_run_cons. cbn [fst snd].
  rewrite analyses_requested_app, IH.
  set (m := analyses_requested (snd (home_run evs (fst (home_handle ev h))))).
  destruct (home_handle_count ev h) as [[Hr Hc] | [Hr Hc]]; rewrite Hr.
  - cbn [Nat.add]. unfold currentCount. rewrite Hc. reflexivity.
  - cbn [Nat.add]. unfold currentCount at 1. rewrite Hc, toString_truthy.
    cbn [default from_option id]. rewrite parseInt_toString.
    destruct m as [|k], (currentCount h) as [z|]; cbn [option_map];
      try reflexivity.
    do 3 f_equal. lia.
Qed.

(** An image is chosen and analysed twice, the second time after another
    image was refused and the first chosen again, with nothing stored
    before; and one analysis on a stored text that is no number. *)
Lemma analyses_counted_witness :
  let file := mkFile "image/png" None in
  let page := mkGlobals None (process_env (Some "key"%string)) in
  let service := fun _ : GenerativePart => Ok "{}"%string in
  let parse := fun _ : string => Ok (mkAnalysisResult "fine" [] []) in
  let events :=
    [FileChange (Some file); AnalyzeClick;
     AnalysisSettled page service parse file;
     FileChange (Some (mkFile "text/plain" None)); AnalyzeClick;
     FileChange (Some file); AnalyzeClick] in
  let spoiled :=
    mkHome initial (Some file) None false None None None false EmptyString
      (mkLanguage "en-US" "English") (Some "many"%string) in
  diagnosphere_user_count (fst (home_run events initial_home))
  = Some "500"%string
  /\ diagnosphere_user_count (fst (home_run [AnalyzeClick] spoiled))
     = Some "NaN"%string.
Proof.
  cbv zeta. split.
  - apply (analyses_counted
             [FileChange (Some (mkFile "image/png" None)); AnalyzeClick;
              AnalysisSettled (mkGlobals None (process_env (Some "key"%string)))
                (fun _ : GenerativePart => Ok "{}"%string)
                (fun _ : string => Ok (mkAnalysisResult "fine" [] []))
                (mkFile "image/png" None);
              FileChange (Some (mkFile "text/plain" None)); AnalyzeClick;
              FileChange (Some (mkFile "image/png" None)); AnalyzeClick]
             initial_home).
    vm_compute. discriminate.
  - apply (analyses_counted [AnalyzeClick]
             (mkHome initial (Some (mkFile "image/png" None)) None false None
                None None false EmptyString (mkLanguage "en-US" "English")
                (Some "many"%string))).
    exact I.
Defined.

End UserCount.

(* ===================================================================== *)
(** * The text chat *)
(* ===================================================================== *)

Section TextChat.

Lemma trim_start_blank (s : string) :
  Forall (fun c => js_whitespace c = true) (list_ascii_of_string s) ->
  trim_start s = EmptyString.
Proof.
  induction s as [|c s IH]; intros H; [reflexivity|].
  cbn [list_ascii_of_string] in H. inversion H as [|? ? Hc Hs]; subst.
  cbn [trim_start]. rewrite Hc. apply IH. exact Hs.
Qed.

Lemma trim_start_visible (s : string) :
  Exists (fun c => js_whitespace c = false) (list_ascii_of_string s) ->
  exists c r, trim_start s = String c r /\ js_whitespace c = false.
Proof.
  induction s as [|c s IH]; intros H; cbn [list_ascii_of_string] in H.
  - inversion H.
  - cbn [trim_start]. destruct (js_whitespace c) eqn:Hc.
    + apply IH. inversion H as [? ? Hc'|? ? Hs]; subst; [congruence|exact Hs].
    + exists c, s. split; [reflexivity | exact Hc].
Qed.

Lemma string_rev_chars (s : string) :
  list_ascii_of_string (string_rev s) = rev (list_ascii_of_string s).
Proof.
  unfold string_rev. apply list_ascii_of_string_of_list_ascii.
Qed.

(** A text of white space only trims to the empty text; a text with
    another character in it does not. *)
Lemma trim_blank (s : string) :
  Forall (fun c => js_whitespace c = true) (list_ascii_of_string s) ->
  trim s = EmptyString.
Proof.
  intros H. unfold trim. rewrite (trim_start_blank s H). reflexivity.
Qed.

Lemma trim_visible (s : string) :
  Exists (fun c => js_whitespace c = false) (list_ascii_of_string s) ->
  truthy (Some (trim s)) = true.
Proof.
  intros H. unfold trim.
  destruct (trim_start_visible s H) as (c & r & -> & Hc).
  destruct (trim_start_visible (string_rev (String c r))) as (c' & r' & -> & _).
  - rewrite string_rev_chars. cbn [list_ascii_of_string rev].
    apply Exists_app. right. constructor. exact Hc.
  - unfold string_rev. cbn [list_ascii_of_string rev].
    destruct (rev (list_ascii_of_string r')); reflexivity.
Qed.

(** What the text chat never sends.  Without a chat session, on an input
    of white space only, while a response is awaited, or while the live
    session is connected, [handleSendChatMessage] changes nothing in the
    view and sends no message. *)
Theorem chat_message_withheld (h : home) :
  chat h = None
  \/ Forall (fun c => js_whitespace c = true) (list_ascii_of_string (chatInput h))
  \/ isChatLoading h = true
  \/ isConnected (live h) = true ->
  fst (handleSendChatMessage h) = h
  /\ forall c message,
       ~ In (ChatSendMessage c message) (snd (handleSendChatMessage h)).
Proof.
  intros H. unfold handleSendChatMessage.
  destruct (chat h) as [c|]; [|split; [reflexivity | intros ? ? []]].
  destruct (negb (truthy (Some (trim (chatInput h)))) || isChatLoading h)
    eqn:Hg; [split; [reflexivity | intros ? ? []]|].
  apply orb_false_elim in Hg as [Ht Hl].
  destruct (isConnected (live h)) eqn:Hc.
  - split; [reflexivity|]. intros ? ? [Hin|[]]. discriminate Hin.
  - exfalso. destruct H as [H|[H|[H|H]]]; try congruence.
    rewrite (trim_blank _ H) in Ht. discriminate Ht.
Qed.

Lemma chat_message_withheld_witness :
  let h :=
    mkHome initial None None false None None
      (Some (mkChat (mkAnalysisResult "fine" [] []))) false "  "
      (mkLanguage "en-US" "English") None in
  fst (handleSendChatMessage h) = h
  /\ forall c message,
       ~ In (ChatSendMessage c message) (snd (handleSendChatMessage h)).
Proof.
  cbv zeta.
  apply (chat_message_withheld
           (mkHome initial None None false None None
              (Some (mkChat (mkAnalysisResult "fine" [] []))) false "  "
              (mkLanguage "en-US" "English") None)).
  right. left. cbn. repeat constructor.
Defined.

(** A turn of the text chat.  With a chat session, an input that holds a
    character other than white space, no response awaited and the live
    session not connected, [handleSendChatMessage] sends one message: the
    input as typed, not trimmed, followed by the instruction on the
    language.  Until the response settles nothing more is sent, whatever is
    typed.  When it settles with a text, the transcript is the one before
    with the input and that text after it; when it fails, the input stays
    in the transcript and the error tells that no response came.  Either
    way the next message can be sent. *)
Theorem chat_turn (c : Chat) (h : home) :
  chat h = Some c ->
  Exists (fun c => js_whitespace c = false) (list_ascii_of_string (chatInput h)) ->
  isChatLoading h = false ->
  isConnected (live h) = false ->
  let sent := fst (handleSendChatMessage h) in
  snd (handleSendChatMessage h)
  = [ChatSendMessage c (promptWithLanguage (chatInput h) (selectedLanguage h))]
  /\ chatInput sent = EmptyString
  /\ (forall typed,
        handleSendChatMessage (setChatInput typed sent)
        = (setChatInput typed sent, []))
  /\ (forall text,
        let answered := handleSendChatMessage_resume (Ok text) sent in
        chatHistory (live answered)
        = chatHistory (live h)
            ++ [mkChatMessage user (chatInput h); mkChatMessage model text]
        /\ error answered = error h
        /\ isChatLoading answered = false)
  /\ (forall e,
        let failed := handleSendChatMessage_resume (Throw e) sent in
        chatHistory (live failed)
        = chatHistory (live h) ++ [mkChatMessage user (chatInput h)]
        /\ error failed = Some no_response_message
        /\ isChatLoading failed = false).
Proof.
  intros Hchat Hin Hl Hc. cbv zeta.
  assert (Hs : handleSendChatMessage h
               = (mkHome
                    (setChatHistory
                       (fun prev => prev ++ [mkChatMessage user (chatInput h)])
                       (live h))
                    (imageFile h) (imagePreview h) (isLoading h) (analysis h)
                    (error h) (chat h) true EmptyString (selectedLanguage h)
                    (diagnosphere_user_count h),
                  [ChatSendMessage c
                     (promptWithLanguage (chatInput h) (selectedLanguage h))])).
  { unfold handleSendChatMessage.
    rewrite Hchat, (trim_visible _ Hin), Hl, Hc. reflexivity. }
  rewrite Hs. cbn [fst snd].
  split; [reflexivity|]. split; [reflexivity|]. split; [|split].
  - intros typed. unfold handleSendChatMessage, setChatInput.
    cbn [chat isChatLoading]. rewrite Hchat, orb_true_r. reflexivity.
  - intros text. unfold handleSendChatMessage_resume.
    cbn [live chatHistory error isChatLoading].
    destruct (live h); cbn. rewrite <- app_assoc. repeat split; reflexivity.
  - intros e. unfold handleSendChatMessage_resume.
    cbn [live chatHistory error isChatLoading].
    destruct (live h); cbn. repeat split; reflexivity.
Qed.

Lemma chat_turn_witness :
  let c := mkChat (mkAnalysisResult "fine" [] []) in
  let h :=
    mkHome initial None None false None None (Some c) false " is it bad? "
      (mkLanguage "hi-IN" "Hindi") None in
  let sent := fst (handleSendChatMessage h) in
  snd (handleSendChatMessage h)
  = [ChatSendMessage c (promptWithLanguage " is it bad? " (mkLanguage "hi-IN" "Hindi"))]
  /\ chatInput sent = EmptyString
  /\ (forall typed,
        handleSendChatMessage (setChatInput typed sent)
        = (setChatInput typed sent, []))
  /\ (forall text,
        let answered := handleSendChatMessage_resume (Ok text) sent in
        chatHistory (live answered)
        = [mkChatMessage user " is it bad? "; mkChatMessage model text]
        /\ error answered = None
        /\ isChatLoading answered = false)
  /\ (forall e,
        let failed := handleSendChatMessage_resume (Throw e) sent in
        chatHistory (live failed) = [mkChatMessage user " is it bad? "]
        /\ error failed = Some no_response_message
        /\ isChatLoading failed = false).
Proof.
  cbv zeta.
  apply (chat_turn (mkChat (mkAnalysisResult "fine" [] []))
           (mkHome initial None None false None None
              (Some (mkChat (mkAnalysisResult "fine" [] []))) false
              " is it bad? " (mkLanguage "hi-IN" "Hindi") None)
           eq_refl).
  - cbn. right. left. reflexivity.
  - reflexivity.
  - reflexivity.
Defined.

End TextChat.

(* ===================================================================== *)
(** * The view: images, analyses and the chat about them *)
(* ===================================================================== *)

Section View.

Lemma disconnect_stops (s : state) (src : source) :
  In src (scheduledSourcesRef s) ->
  In (SourceStop (src_id src)) (out_effects (disconnect s)).
Proof.
  intros Hin.
  assert (H : In (SourceStop (src_id src))
                (map (fun src => SourceStop (src_id src)) (scheduledSourcesRef s)))
    by (apply (in_map (fun src => SourceStop (src_id src))); exact Hin).
  destruct s as [c e ctx inp proc next srcs sess chat fr].
  unfold disconnect. cbn in H |- *.
  destruct sess, inp, proc, ctx; cbn;
    repeat first [exact H | apply in_or_app; left; exact H | right].
Qed.


Lemma disconnect_setChatHistory (g : list ChatMessage -> list ChatMessage)
    (s : state) :
  out_effects (disconnect (setChatHistory g s)) = out_effects (disconnect s).
Proof.
  destruct s as [c e ctx inp proc next srcs sess chat fr].
  unfold disconnect, setChatHistory. cbn.
  destruct sess, inp, proc, ctx; reflexivity.
Qed.

Lemma handleFileChange_accepted (f : File) (h : home) :
  file_type f = "image/jpeg"%string \/ file_type f = "image/png"%string ->
  handleFileChange (Some f) h
  = (mkHome
       (mkState false (isError (live h)) None None None 0%Q [] None []
          (fresh (live h)))
       (Some f) None false None None None false EmptyString
       (selectedLanguage h) (diagnosphere_user_count h),
     map Live (out_effects (disconnect (live h)))).
Proof.
  intros Ht. unfold handleFileChange.
  assert (Hty : String.eqb (file_type f) "image/jpeg"
                || String.eqb (file_type f) "image/png" = true)
    by (destruct Ht as [-> | ->]; reflexivity).
  rewrite Hty. unfold resetState.
  rewrite (surjective_pairing (disconnectLive _)), disconnectLive_view.
  unfold disconnectLive.
  cbn [fst snd live imageFile imagePreview isLoading analysis error chat
         isChatLoading chatInput selectedLanguage diagnosphere_user_count].
  rewrite disconnect_setChatHistory.
  destruct (live h); reflexivity.
Qed.

Lemma Live_closes_no_session (s : state) (session : nat) :
  ~ In (Live (SessionClose session)) (map Live (out_effects (disconnect s))).
Proof.
  intros Hin. apply in_map_iff in Hin as (e & He & Hin).
  injection He as ->. exact (disconnect_closes_no_session s session Hin).
Qed.



Lemma home_handle_chat_about_analysis (ev : home_event) (h : home) :
  chat_about_analysis h -> chat_about_analysis (fst (home_handle ev h)).
Proof.
  unfold chat_about_analysis. intros Hinv.
  destruct ev as [file|result| |page g J file|value| |response|env|value|ev| ];
    cbn [home_handle fst snd].
  - unfold handleFileChange.
    destruct file as [f|]; [|exact Hinv].
    destruct (String.eqb (file_type f) "image/jpeg"
              || String.eqb (file_type f) "image/png"); [|exact Hinv].
    unfold resetState, disconnectLive. cbn. intros c Hc. discriminate Hc.
  - exact Hinv.
  - unfold handleAnalyzeClick.
    destruct (imageFile h); [|exact Hinv].
    unfold disconnectLive. cbn. intros c Hc. discriminate Hc.
  - unfold handleAnalyzeClick_resume, analyzeMedicalImage.
    destruct (process page) as [key|message] eqn:Hp; [|exact Hinv].
    destruct (truthy key) eqn:Hk; cbn [negb snd bind]; [|exact Hinv].
    pose proof (getApiKey_process page key Hp Hk) as Hg.
    destruct (let* text := g (fileToGenerativePart file) in J (trim text))
      as [parsed|e]; cbn [bind]; [|exact Hinv].
    destruct (getApiKey (environment_of page)) as [credential|]; [|congruence].
    cbn. intros c Hc. injection Hc as <-. reflexivity.
  - exact Hinv.
  - unfold handleSendChatMessage.
    destruct (chat h) as [c0|] eqn:Hc;
      [destruct (negb _ || _); [|destruct (isConnected (live h))]|];
      intros c E; cbn [fst chat analysis] in E |- *;
      first [congruence | apply Hinv; congruence].
  - destruct response; exact Hinv.
  - unfold toggleLiveConnection.
    destruct (isConnected (live h)); exact Hinv.
  - unfold onLanguageChange.
    destruct (find _ LANGUAGES); [|exact Hinv].
    cbn [live]. destruct (isConnected (live h)); exact Hinv.
  - exact Hinv.
  - exact Hinv.
Qed.

(** The chat is about the analysis on the screen.  In every state that the
    view reaches, whatever the events and the order in which the analyses
    and the responses settle, a chat session, when there is one, was seeded
    with the analysis that the view shows. *)
Theorem chat_about_shown_analysis (evs : list home_event) :
  chat_about_analysis (fst (home_run evs initial_home)).
Proof.
  assert (H : forall h, chat_about_analysis h ->
                        chat_about_analysis (fst (home_run evs h))).
  { induction evs as [|ev evs IH]; intros h Hinv; [exact Hinv|].
    rewrite home_run_cons. cbn [fst]. apply IH.
    apply home_handle_chat_about_analysis. exact Hinv. }
  apply H. intros c Hc. discriminate Hc.
Qed.

(** The image on the screen can be another than the one analysed.  When an
    analysis is requested for an image and, before it settles, an image of
    an accepted type is chosen, the analysis that settles with a result is
    shown, with its chat, beside the second image; no analysis of the second
    image was requested. *)
Theorem analysis_outlives_image (page : globals)
    (generateContent : GenerativePart -> result string)
    (JSON_parse : string -> result AnalysisResult)
    (first second : File) (text : string) (parsed : AnalysisResult) (h : home) :
  imageFile h = Some first ->
  file_type second = "image/jpeg"%string \/ file_type second = "image/png"%string ->
  truthy (API_KEY (environment_of page)) = true ->
  generateContent (fileToGenerativePart first) = Ok text ->
  JSON_parse (trim text) = Ok parsed ->
  let events :=
    [AnalyzeClick; FileChange (Some second);
     AnalysisSettled page generateContent JSON_parse first] in
  imageFile (fst (home_run events h)) = Some second
  /\ analysis (fst (home_run events h)) = Some parsed
  /\ chat (fst (home_run events h)) = Some (mkChat parsed)
  /\ isLoading (fst (home_run events h)) = false
  /\ forall e, In e (snd (home_run events h)) ->
       e = AnalyzeMedicalImage first \/ exists l, e = Live l.
Proof.
  intros Hf Ht Hk Hs Hj. cbv zeta.
  rewrite !home_run_cons. cbn [home_run fst snd].
  change (home_handle (FileChange (Some second)) ?x)
    with (handleFileChange (Some second) x).
  rewrite (handleFileChange_accepted second _ Ht).
  cbn [home_handle fst snd].
  unfold handleAnalyzeClick_resume, analyzeMedicalImage.
  pose proof (getApiKey_API_KEY (environment_of page) Hk) as Hg.
  destruct (process page) as [key|message] eqn:Hp;
    unfold environment_of in Hk; rewrite Hp in Hk; cbn [API_KEY] in Hk;
    [|discriminate Hk].
  rewrite Hk. cbn [negb snd bind]. rewrite Hs. cbn [bind]. rewrite Hj.
  cbn [bind].
  destruct (getApiKey (environment_of page)) as [credential|]; [|congruence].
  repeat split; try reflexivity.
  intros e Hin. rewrite app_nil_r in Hin.
  apply in_app_or in Hin as [Hin|Hin].
  - unfold handleAnalyzeClick in Hin. rewrite Hf in Hin.
    unfold disconnectLive in Hin. cbn [snd] in Hin.
    apply in_app_or in Hin as [Hin|[<-|[]]]; [|left; reflexivity].
    apply in_map_iff in Hin as (l & <- & _). right. exists l. reflexivity.
  - apply in_map_iff in Hin as (l & <- & _). right. exists l. reflexivity.
Qed.

Lemma analysis_outlives_image_witness :
  let page := mkGlobals None (process_env (Some "key"%string)) in
  let service := fun _ : GenerativePart => Ok " {} "%string in
  let parse := fun _ : string => Ok (mkAnalysisResult "fine" [] []) in
  let first := mkFile "image/png" (Some "data:image/png;base64,aGk="%string) in
  let second := mkFile "image/jpeg" None in
  let h := fst (handleFileChange (Some first) initial_home) in
  let events :=
    [AnalyzeClick; FileChange (Some second);
     AnalysisSettled page service parse first] in
  imageFile (fst (home_run events h)) = Some second
  /\ analysis (fst (home_run events h)) = Some (mkAnalysisResult "fine" [] [])
  /\ chat (fst (home_run events h))
     = Some (mkChat (mkAnalysisResult "fine" [] []))
  /\ isLoading (fst (home_run events h)) = false
  /\ forall e, In e (snd (home_run events h)) ->
       e = AnalyzeMedicalImage first \/ exists l, e = Live l.
Proof.
  cbv zeta.
  apply (analysis_outlives_image
           (mkGlobals None (process_env (Some "key"%string)))
           (fun _ : GenerativePart => Ok " {} "%string)
           (fun _ : string => Ok (mkAnalysisResult "fine" [] []))
           (mkFile "image/png" (Some "data:image/png;base64,aGk="%string))
           (mkFile "image/jpeg" None) " {} " (mkAnalysisResult "fine" [] [])
           (fst (handleFileChange
                   (Some (mkFile "image/png"
                            (Some "data:image/png;base64,aGk="%string)))
                   initial_home))
           eq_refl (or_introl eq_refl) eq_refl eq_refl eq_refl).
Defined.

(** Selecting a language of the list makes it the language of the view and
    leaves the connected flag of the live hook cleared: where the flag was
    set, the [disconnect] of the hook is called, which stops every scheduled
    source and empties the refs; the session is not closed.  The next
    message of the text chat asks for a response in that language.  A value
    that is no code of the list changes nothing. *)
Theorem language_selected (l : Language) (value : string) (h : home) :
  In l LANGUAGES ->
  (forall l', In l' LANGUAGES -> code l' <> value) ->
  let h' := fst (onLanguageChange (code l) h) in
  selectedLanguage h' = l
  /\ isConnected (live h') = false
  /\ snd (onLanguageChange (code l) h)
     = (if isConnected (live h)
        then map Live (out_effects (disconnect (live h))) else [])
  /\ (isConnected (live h) = true ->
      forall src, In src (scheduledSourcesRef (live h)) ->
        In (Live (SourceStop (src_id src))) (snd (onLanguageChange (code l) h)))
  /\ (forall session,
      ~ In (Live (SessionClose session)) (snd (onLanguageChange (code l) h)))
  /\ (forall c, chat h = Some c ->
      Exists (fun c => js_whitespace c = false)
        (list_ascii_of_string (chatInput h)) ->
      isChatLoading h = false ->
      snd (handleSendChatMessage h')
      = [ChatSendMessage c (promptWithLanguage (chatInput h) l)])
  /\ onLanguageChange value h = (h, []).
Proof.
  intros Hl Hvalue. cbv zeta.
  assert (Hfind : List.find (fun l' => String.eqb (code l') (code l)) LANGUAGES
                  = Some l)
    by (cbn in Hl; destruct Hl as [<-|[<-|[<-|[<-|[]]]]]; reflexivity).
  assert (Hnone : List.find (fun l' => String.eqb (code l') value) LANGUAGES
                  = None).
  { destruct (List.find (fun l' => String.eqb (code l') value) LANGUAGES)
      as [l'|] eqn:E; [|reflexivity].
    apply find_some in E as [Hin Heq]. apply String.eqb_eq in Heq.
    exfalso. exact (Hvalue l' Hin Heq). }
  unfold onLanguageChange. rewrite Hfind, Hnone. cbn [live].
  destruct (isConnected (live h)) eqn:Hc.
  - rewrite (surjective_pairing (disconnectLive _)), disconnectLive_view.
    cbn [fst snd live selectedLanguage isConnected].
    unfold disconnectLive. cbn [snd live].
    split; [reflexivity|]. split; [reflexivity|]. split; [reflexivity|].
    split; [|split; [|split]]; [| |  |reflexivity].
    + intros _ src Hin. apply in_map, disconnect_stops. exact Hin.
    + intros session. apply Live_closes_no_session.
    + intros c Hchat Hinput Hl'. unfold handleSendChatMessage.
      cbn [chat chatInput isChatLoading live isConnected selectedLanguage].
      rewrite Hchat, (trim_visible _ Hinput), Hl'. reflexivity.
  - cbn [fst snd live selectedLanguage].
    split; [reflexivity|]. split; [exact Hc|]. split; [reflexivity|].
    split; [|split; [|split]]; [| |  |reflexivity].
    + intros H. discriminate H.
    + intros session [].
    + intros c Hchat Hinput Hl'. unfold handleSendChatMessage.
      cbn [chat chatInput isChatLoading live isConnected selectedLanguage].
      rewrite Hchat, (trim_visible _ Hinput), Hl', Hc. reflexivity.
Qed.

Lemma language_selected_witness :
  let l := mkLanguage "es-ES" "Spanish" in
  let h :=
    mkHome
      (mkState true false (Some 1%nat) None None 0%Q
         [mkSource 7 (mkAudioBuffer 1 1 24000 [[Fin 0]]) 0%Q] (Some 3%nat) [] 8)
      None None false (Some (mkAnalysisResult "fine" [] [])) None
      (Some (mkChat (mkAnalysisResult "fine" [] []))) false "ok"
      (mkLanguage "en-US" "English") None in
  let h' := fst (onLanguageChange "es-ES" h) in
  selectedLanguage h' = l
  /\ isConnected (live h') = false
  /\ snd (onLanguageChange "es-ES" h)
     = (if isConnected (live h)
        then map Live (out_effects (disconnect (live h))) else [])
  /\ (isConnected (live h) = true ->
      forall src, In src (scheduledSourcesRef (live h)) ->
        In (Live (SourceStop (src_id src))) (snd (onLanguageChange "es-ES" h)))
  /\ (forall session,
      ~ In (Live (SessionClose session)) (snd (onLanguageChange "es-ES" h)))
  /\ (forall c, chat h = Some c ->
      Exists (fun c => js_whitespace c = false)
        (list_ascii_of_string (chatInput h)) ->
      isChatLoading h = false ->
      snd (handleSendChatMessage h')
      = [ChatSendMessage c (promptWithLanguage (chatInput h) l)])
  /\ onLanguageChange "de-DE" h = (h, []).
Proof.
  cbv zeta.
  apply (language_selected (mkLanguage "es-ES" "Spanish") "de-DE"
           (mkHome
              (mkState true false (Some 1%nat) None None 0%Q
                 [mkSource 7 (mkAudioBuffer 1 1 24000 [[Fin 0]]) 0%Q]
                 (Some 3%nat) [] 8)
              None None false (Some (mkAnalysisResult "fine" [] [])) None
              (Some (mkChat (mkAnalysisResult "fine" [] []))) false "ok"
              (mkLanguage "en-US" "English") None)).
  - cbn. right. right. left. reflexivity.
  - cbn. intros l' [<-|[<-|[<-|[<-|[]]]]]; discriminate.
Defined.

End View.

(* ===================================================================== *)
(** * Reviews *)
(* ===================================================================== *)

Section Reviews.

(** A review is taken only with a name and a comment; without one of them
    [handleSubmit] changes nothing, stores nothing and thanks nobody.  A
    review that is taken comes first in the list, before the earlier ones in
    their order; the list stored is the list shown; the form is emptied and
    closed.  The review is on the screen at once, also when the list is
    collapsed to three entries: it is followed there by the first two of the
    earlier ones. *)
Theorem review_submitted (now today n c : string) (r : nat) (f : feedback) :
  newReview f = (n, r, c) ->
  (n = EmptyString \/ c = EmptyString -> handleSubmit now today f = (f, []))
  /\ (n <> EmptyString -> c <> EmptyString ->
      let f' := fst (handleSubmit now today f) in
      let review := mkReview now n r c today in
      reviews f' = review :: reviews f
      /\ stored f' = Some (reviews f')
      /\ newReview f' = (EmptyString, 5%nat, EmptyString)
      /\ showForm f' = false
      /\ displayedReviews f'
         = review :: (if showAll f then reviews f else firstn 2 (reviews f))
      /\ snd (handleSubmit now today f) = [Alert thanks_message]).
Proof.
  intros Hnew. unfold handleSubmit. rewrite Hnew. split.
  - intros [-> | ->]; [reflexivity|]. rewrite orb_true_r. reflexivity.
  - intros Hn Hc. cbv zeta.
    destruct n as [|? ?]; [congruence|]. destruct c as [|? ?]; [congruence|].
    cbn [truthy negb orb fst snd reviews stored newReview showForm].
    unfold displayedReviews. cbn [showAll reviews].
    repeat split. destruct (showAll f); reflexivity.
Qed.

Lemma review_submitted_witness :
  let f := mkFeedback initialReviews false ("Ana"%string, 4%nat, "Clear"%string)
             true None in
  (("Ana"%string = EmptyString \/ "Clear"%string = EmptyString ->
    handleSubmit "1700000000000" "2025-11-20" f = (f, []))
   /\ ("Ana"%string <> EmptyString -> "Clear"%string <> EmptyString ->
       let f' := fst (handleSubmit "1700000000000" "2025-11-20" f) in
       let review := mkReview "1700000000000" "Ana" 4 "Clear" "2025-11-20" in
       reviews f' = review :: reviews f
       /\ stored f' = Some (reviews f')
       /\ newReview f' = (EmptyString, 5%nat, EmptyString)
       /\ showForm f' = false
       /\ displayedReviews f'
          = review :: (if showAll f then reviews f else firstn 2 (reviews f))
       /\ snd (handleSubmit "1700000000000" "2025-11-20" f)
          = [Alert thanks_message])).
Proof.
  cbv zeta.
  apply (review_submitted "1700000000000" "2025-11-20" "Ana" "Clear" 4
           (mkFeedback initialReviews false
              ("Ana"%string, 4%nat, "Clear"%string) true None) eq_refl).
Defined.

End Reviews.
